(** * ChromaForge ASE editor: codec, colour pipeline and hierarchical sort

    A shallow embedding of the core of the editor:
    - [parseASE] / [createASEBuffer]   (ase-utils.ts)
    - [blockToRgb] and its helpers      (color-utils.ts, color-engine.ts)
    - [sortBlocksHierarchically]        (main.ts)

    Conventions of the embedding.
    - A JavaScript string is the list of its UTF-16 code units ([jsstring]).
    - An [ArrayBuffer] is the list of its bytes, each a [Z] in [0,256).
    - A JavaScript number is an exact rational ([Q]) in the codec, the
      sort, the editing handlers and module [ColorUtils]: IEEE rounding,
      NaN and the infinities are not modelled there.  Where the source
      can meet [undefined] or NaN (a missing array element, [parseInt] of
      a string with no digits) the value is an [option Q], [None]
      standing for both.
    - Module [DoubleColor] gives the colour pipeline again with the
      arithmetic of the platform, IEEE 754 binary64 ([Double]), for the
      properties that depend on rounding, NaN, the infinities or the sign
      of zero.
    - A thrown exception is the [Throw] case of [result]. *)

From Stdlib Require Import ZArith QArith Qround Qabs List String Ascii Bool.
From Stdlib Require Import Lia Lqa Permutation SpecFloat.
Import ListNotations.

Local Open Scope Z_scope.

(** ** Strings *)

Definition jsstring := list Z.

(** The code units of an ASCII literal. *)
Definition lit (s : string) : jsstring :=
  map (fun a => Z.of_N (N_of_ascii a)) (list_ascii_of_string s).

Fixpoint jseqb (a b : jsstring) : bool :=
  match a, b with
  | [], [] => true
  | x :: a', y :: b' => (x =? y) && jseqb a' b'
  | _, _ => false
  end.

Lemma jseqb_eq (a b : jsstring) : jseqb a b = true <-> a = b.
Proof.
  revert b; induction a as [|x a IH]; intros [|y b]; simpl;
    try (split; [discriminate | congruence]); [tauto|].
  rewrite andb_true_iff, Z.eqb_eq, IH. split.
  - intros [-> ->]; reflexivity.
  - intros H; inversion H; auto.
Qed.

(** ** Data model (types.ts) *)

Inductive BlockType := groupStart | groupEnd | color.

Record Block := mkBlock {
  type : BlockType;
  name : option jsstring;
  model : option jsstring;
  values : option (list Q);
  colorType : option Z
}.

Record AseData := mkAseData {
  version : Z * Z;
  blocks : list Block
}.

Definition BlockType_eqb (a b : BlockType) : bool :=
  match a, b with
  | groupStart, groupStart | groupEnd, groupEnd | color, color => true
  | _, _ => false
  end.

(** [s || d] for an optional string: [d] when [s] is undefined or empty. *)
Definition str_or (s : option jsstring) (d : jsstring) : jsstring :=
  match s with
  | Some (c :: r) => c :: r
  | _ => d
  end.

(** ** Exceptions *)

Inductive JsError := InvalidFileSignature | RangeError.

Inductive result (A : Type) : Type :=
| Ok (a : A)
| Throw (e : JsError).
Arguments Ok {A} a.
Arguments Throw {A} e.

Definition bind {A B} (r : result A) (k : A -> result B) : result B :=
  match r with
  | Ok a => k a
  | Throw e => Throw e
  end.

Notation "x <- e ;; k" := (bind e (fun x => k))
  (at level 61, e at next level, right associativity).

(** ** Binary codec (ase-utils.ts) *)

Module Codec.

Section WithFloat32.

(** The platform's float32 conversions: [f32_bits v] is the binary32 bit
    pattern that [DataView.setFloat32] stores for the number [v], and
    [f32_val] the number [DataView.getFloat32] returns for a bit pattern. *)
Variable f32_bits : Q -> Z.
Variable f32_val : Z -> Q.

(** *** DataView reads (big-endian) *)

Definition getUint8 (view : list Z) (offset : Z) : result Z :=
  if offset <? 0 then Throw RangeError
  else match nth_error view (Z.to_nat offset) with
       | Some b => Ok b
       | None => Throw RangeError
       end.

Definition getUint16 (view : list Z) (offset : Z) : result Z :=
  b0 <- getUint8 view offset ;;
  b1 <- getUint8 view (offset + 1) ;;
  Ok (b0 * 256 + b1).

Definition getUint32 (view : list Z) (offset : Z) : result Z :=
  h <- getUint16 view offset ;;
  l <- getUint16 view (offset + 2) ;;
  Ok (h * 65536 + l).

Definition getFloat32 (view : list Z) (offset : Z) : result Q :=
  bits <- getUint32 view offset ;;
  Ok (f32_val bits).

(** [getChar]: [length] bytes read as code units. *)
Fixpoint getChar (view : list Z) (offset : Z) (length : nat) : result jsstring :=
  match length with
  | O => Ok []
  | S n =>
      c <- getUint8 view offset ;;
      r <- getChar view (offset + 1) n ;;
      Ok (c :: r)
  end.

Fixpoint getUTF16Units (view : list Z) (offset : Z) (n : nat) : result jsstring :=
  match n with
  | O => Ok []
  | S n' =>
      c <- getUint16 view offset ;;
      r <- getUTF16Units view (offset + 2) n' ;;
      Ok (c :: r)
  end.

(** [getUTF16String]: the loop runs for [i < length - 1]. *)
Definition getUTF16String (view : list Z) (offset length : Z) : result jsstring :=
  getUTF16Units view offset (Z.to_nat (length - 1)).

Fixpoint getFloats (view : list Z) (offset : Z) (numChannels : nat)
  : result (list Q) :=
  match numChannels with
  | O => Ok []
  | S n =>
      v <- getFloat32 view offset ;;
      r <- getFloats view (offset + 4) n ;;
      Ok (v :: r)
  end.

(** [name.replace(/\0/g, '')] *)
Definition stripNul (s : jsstring) : jsstring :=
  filter (fun c => negb (c =? 0)) s.

Definition numChannelsOf (model : jsstring) : nat :=
  if jseqb model (lit "CMYK") then 4%nat
  else if jseqb model (lit "RGB ") || jseqb model (lit "LAB ") then 3%nat
  else if jseqb model (lit "Gray") then 1%nat
  else 0%nat.

(** One iteration of the block loop of [parseASE]: the block pushed (if
    any) and the offset at which the next iteration starts. *)
Definition parseBlock (view : list Z) (offset : Z) : result (option Block * Z) :=
  blockType <- getUint16 view offset ;;
  blockLen <- getUint32 view (offset + 2) ;;
  let offset := offset + 6 in
  let endOfBlock := offset + blockLen in
  if blockType =? 0xC001 then
    nameLen <- getUint16 view offset ;;
    nm <- getUTF16String view (offset + 2) nameLen ;;
    Ok (Some (mkBlock groupStart (Some nm) None None None), endOfBlock)
  else if blockType =? 0xC002 then
    Ok (Some (mkBlock groupEnd None None None None), endOfBlock)
  else if blockType =? 0x0001 then
    nameLen <- getUint16 view offset ;;
    nm <- getUTF16String view (offset + 2) nameLen ;;
    let offset := offset + 2 + nameLen * 2 in
    mdl <- getChar view offset 4 ;;
    let offset := offset + 4 in
    let numChannels := numChannelsOf mdl in
    vals <- getFloats view offset numChannels ;;
    let offset := offset + 4 * Z.of_nat numChannels in
    ct <- getUint16 view offset ;;
    Ok (Some (mkBlock color (Some (stripNul nm)) (Some mdl) (Some vals) (Some ct)),
        endOfBlock)
  else Ok (None, endOfBlock).

(** The [for (let i = 0; i < blockCount; i++)] loop; [acc] is
    [data.blocks] so far. *)
Fixpoint parseBlocks (view : list Z) (count : nat) (offset : Z) (acc : list Block)
  : result (list Block) :=
  match count with
  | O => Ok acc
  | S n =>
      r <- parseBlock view offset ;;
      match r with
      | (Some b, next) => parseBlocks view n next (acc ++ [b])
      | (None, next) => parseBlocks view n next acc
      end
  end.

Definition parseASE (buffer : list Z) : result AseData :=
  signature <- getChar buffer 0 4 ;;
  if negb (jseqb signature (lit "ASEF")) then Throw InvalidFileSignature
  else
    verMaj <- getUint16 buffer 4 ;;
    verMin <- getUint16 buffer 6 ;;
    blockCount <- getUint32 buffer 8 ;;
    bs <- parseBlocks buffer (Z.to_nat blockCount) 12 [] ;;
    Ok (mkAseData (verMaj, verMin) bs).

(** *** Writers *)

Definition u16 (val : Z) : list Z :=
  [(val / 256) mod 256; val mod 256].

Definition u32 (val : Z) : list Z :=
  [(val / 16777216) mod 256; (val / 65536) mod 256; (val / 256) mod 256; val mod 256].

Definition strToBytes (str : jsstring) : list Z :=
  map (fun c => c mod 256) str.

Definition strToUTF16Bytes (str : jsstring) : list Z :=
  flat_map u16 str.

Definition setFloat32 (v : Q) : list Z := u32 (f32_bits v).

Definition len (l : list Z) : Z := Z.of_nat (List.length l).

(** [block.colorType || 2] *)
Definition colorType_or_2 (ct : option Z) : Z :=
  match ct with
  | Some c => if c =? 0 then 2 else c
  | None => 2
  end.

(** The bytes [createASEBuffer] pushes for one block. *)
Definition encodeBlock (block : Block) : list Z :=
  match type block with
  | groupStart =>
      match name block with
      | Some (c :: r) =>
          let nm := c :: r in
          let nameBytes := strToUTF16Bytes (nm ++ [0]) in
          let len_ := 2 + len nameBytes in
          u16 0xC001 ++ u32 len_ ++ u16 (len nm + 1) ++ nameBytes
      | _ => []
      end
  | groupEnd => u16 0xC002 ++ u32 0
  | color =>
      match name block, values block with
      | Some (c :: r), Some vals =>
          let nm := c :: r in
          let nameBytes := strToUTF16Bytes (nm ++ [0]) in
          let modelBytes := strToBytes (str_or (model block) (lit "RGB ")) in
          let valBytesLen := Z.of_nat (List.length vals) * 4 in
          let payloadLen := 2 + len nameBytes + 4 + valBytesLen + 2 in
          u16 0x0001 ++ u32 payloadLen ++ u16 (len nm + 1) ++ nameBytes
            ++ modelBytes ++ flat_map setFloat32 vals
            ++ u16 (colorType_or_2 (colorType block))
      | _, _ => []
      end
  end.

Definition createASEBuffer (data : AseData) : list Z :=
  strToBytes (lit "ASEF")
    ++ u16 (fst (version data))
    ++ u16 (snd (version data))
    ++ u32 (Z.of_nat (List.length (blocks data)))
    ++ flat_map encodeBlock (blocks data).

End WithFloat32.

End Codec.

(** ** Colour pipeline (color-utils.ts, color-engine.ts) *)

Module ColorUtils.

Local Open Scope Q_scope.

(** *** JavaScript built-ins used by the pipeline *)

(** ECMAScript [WhiteSpace] and [LineTerminator] code units, the ones
    [String.prototype.trim] removes. *)
Definition isWhiteSpace (c : Z) : bool :=
  ((9 <=? c) && (c <=? 13) || (c =? 32) || (c =? 160) || (c =? 5760)
   || (8192 <=? c) && (c <=? 8202) || (c =? 8232) || (c =? 8233)
   || (c =? 8239) || (c =? 8287) || (c =? 12288) || (c =? 65279))%Z.

Fixpoint trimStart (s : jsstring) : jsstring :=
  match s with
  | c :: r => if isWhiteSpace c then trimStart r else s
  | [] => []
  end.

Definition trim (s : jsstring) : jsstring :=
  rev (trimStart (rev (trimStart s))).

(** The value of a code unit as a digit (0-9, a-z, A-Z), if it is one. *)
Definition digitValue (c : Z) : option Z :=
  if ((48 <=? c) && (c <=? 57))%Z then Some (c - 48)%Z
  else if ((97 <=? c) && (c <=? 122))%Z then Some (c - 87)%Z
  else if ((65 <=? c) && (c <=? 90))%Z then Some (c - 55)%Z
  else None.

(** The longest prefix of digits below [radix], accumulated; [None] when
    there is no digit at all (NaN). *)
Fixpoint parseDigits (radix : Z) (acc : option Z) (s : jsstring) : option Z :=
  match s with
  | c :: r =>
      match digitValue c with
      | Some d =>
          if (d <? radix)%Z
          then parseDigits radix
                 (Some (match acc with Some a => a * radix + d | None => d end)%Z) r
          else acc
      | None => acc
      end
  | [] => acc
  end.

(** [parseInt(s, 16)] *)
Definition parseInt16 (s : jsstring) : option Z :=
  let s := trimStart s in
  let '(sign, s) :=
    match s with
    | 45%Z :: r => ((-1)%Z, r)
    | 43%Z :: r => (1%Z, r)
    | _ => (1%Z, s)
    end in
  let s :=
    match s with
    | 48%Z :: x :: r => if ((x =? 120) || (x =? 88))%Z then r else s
    | _ => s
    end in
  option_map (Z.mul sign) (parseDigits 16 None s).

(** [parseInt(s)]: radix 10 unless the digits start with 0x or 0X. *)
Definition parseInt (s : jsstring) : option Z :=
  let s := trimStart s in
  let '(sign, s) :=
    match s with
    | 45%Z :: r => ((-1)%Z, r)
    | 43%Z :: r => (1%Z, r)
    | _ => (1%Z, s)
    end in
  match s with
  | 48%Z :: x :: r =>
      if ((x =? 120) || (x =? 88))%Z
      then option_map (Z.mul sign) (parseDigits 16 None r)
      else option_map (Z.mul sign) (parseDigits 10 None s)
  | _ => option_map (Z.mul sign) (parseDigits 10 None s)
  end.

Definition Qltb (a b : Q) : bool := negb (Qle_bool b a).

Definition Math_min (a b : Q) : Q := if Qle_bool a b then a else b.
Definition Math_max (a b : Q) : Q := if Qle_bool a b then b else a.

(** [Math.round]: the nearest integer, halves upwards. *)
Definition Math_round (x : Q) : Z := Qfloor (x + (1 # 2)).

(** [x || 0] for a number that may be undefined. *)
Definition num_or_0 (x : option Q) : Q :=
  match x with
  | Some q => if Qeq_bool q 0 then 0 else q
  | None => 0
  end.

(** Conversion of an integer to an element of a [Uint8Array]. *)
Definition uint8 (z : Z) : Z := (z mod 256)%Z.

(** *** Hex strings *)

Definition isHexDigit (c : Z) : bool :=
  ((48 <=? c) && (c <=? 57) || (97 <=? c) && (c <=? 102)
   || (65 <=? c) && (c <=? 70))%Z.

Definition channelOfHex (a b : Z) : Q :=
  match parseInt16 [a; b] with
  | Some n => inject_Z n / 255
  | None => 0
  end.

(** [hexToRgb]: the pattern is an optional [#] and exactly six hex digits. *)
Definition hexToRgb (hex : jsstring) : list Q :=
  let digits := match hex with 35%Z :: r => r | _ => hex end in
  match digits with
  | [a; b; c; d; e; f] =>
      if forallb isHexDigit digits
      then [channelOfHex a b; channelOfHex c d; channelOfHex e f]
      else [0; 0; 0]
  | _ => [0; 0; 0]
  end.

(** *** Reference entries *)

(** Modelled from the spec: the record type [PantoneEntry] of
    pantone-library.ts, which is not among the sources.  A Reference Entry
    holds a canonical hex colour and per-model canonical numbers; the
    fields here are the ones color-utils.ts reads, all of them strings
    ([C], [M], [Y], [K] in 0-100, [R], [G], [B] in 0-255). *)
Record PantoneEntry := mkPantoneEntry {
  C : jsstring; M : jsstring; Y : jsstring; K : jsstring;
  R : jsstring; G : jsstring; B : jsstring;
  Hex : jsstring
}.

(** *** The ICC engine state (module variables of color-engine.ts) *)

Record ColorEngine := mkColorEngine {
  isReady : bool;
  cmykTransform : option Z
}.

(** Truthiness of the transform handle: not null and not 0. *)
Definition handle_of (e : ColorEngine) : option Z :=
  match cmykTransform e with
  | Some h => if (h =? 0)%Z then None else Some h
  | None => None
  end.

Section Pipeline.

(** The name lookups of pantone-library.ts, which is not among the
    sources: they are parameters of the pipeline. *)
Variable getOfficialEntry : jsstring -> option PantoneEntry.
Variable getOfficialHex : jsstring -> option jsstring.

(** The LittleCMS transform behind [Module._cmsDoTransform]: from the
    handle and the four source bytes to the three bytes it writes, or
    [None] when the call throws. *)
Variable cmsDoTransform : Z -> list Z -> option (Z * Z * Z).

(** [Math.pow] *)
Variable Math_pow : Q -> Q -> Q.

(** [Math.abs(values[i] - ref) < TOLERANCE]; false when either side is
    undefined or NaN. *)
Definition withinTolerance (v : option Q) (ref : option Q) : bool :=
  match v, ref with
  | Some v, Some r => Qltb (Qabs (v - r)) (1 # 100)
  | _, _ => false
  end.

Definition refOf (s : jsstring) (scale : Q) : option Q :=
  option_map (fun n => inject_Z n / scale) (parseInt s).

Definition valuesOf (block : Block) : list Q :=
  match values block with
  | Some v => v
  | None => []
  end.

Definition modelOf (block : Block) : jsstring :=
  trim (str_or (model block) (lit "RGB")).

Definition isStandardPantone (block : Block) (entry : PantoneEntry) : bool :=
  let values := valuesOf block in
  let model := modelOf block in
  if jseqb model (lit "CMYK") then
    withinTolerance (nth_error values 0) (refOf (C entry) 100)
    && withinTolerance (nth_error values 1) (refOf (M entry) 100)
    && withinTolerance (nth_error values 2) (refOf (Y entry) 100)
    && withinTolerance (nth_error values 3) (refOf (K entry) 100)
  else if jseqb model (lit "RGB") then
    withinTolerance (nth_error values 0) (refOf (R entry) 255)
    && withinTolerance (nth_error values 1) (refOf (G entry) 255)
    && withinTolerance (nth_error values 2) (refOf (B entry) 255)
  else true.

(** color-engine.ts *)
Definition simpleCmykToRgb (c m y k : Q) : list Z :=
  [Math_round (255 * (1 - c) * (1 - k));
   Math_round (255 * (1 - m) * (1 - k));
   Math_round (255 * (1 - y) * (1 - k))].

Definition cmykToProfileRGB (eng : ColorEngine) (c m y k : Q) : list Z :=
  if negb (isReady eng) then simpleCmykToRgb c m y k
  else match handle_of eng with
       | None => simpleCmykToRgb c m y k
       | Some h =>
           let srcData :=
             [uint8 (Math_round (c * 255)); uint8 (Math_round (m * 255));
              uint8 (Math_round (y * 255)); uint8 (Math_round (k * 255))] in
           match cmsDoTransform h srcData with
           | Some (r, g, b) => [uint8 r; uint8 g; uint8 b]
           | None => simpleCmykToRgb c m y k
           end
       end.

Definition clamp01 (x : Q) : Q := Math_min 1 (Math_max 0 x).

Definition toSrgb (v : Q) : Q :=
  if Qle_bool v (31308 # 10000000) then (1292 # 100) * v
  else (1055 # 1000) * Math_pow v (1 / (24 # 10)) - (55 # 1000).

Definition labToRgbValues (L a b : Q) : list Q :=
  let validL := if Qle_bool L (105 # 100) && Qltb 0 L then L * 100 else L in
  let y := (validL + 16) / 116 in
  let x := a / 500 + y in
  let z := y - b / 200 in
  let refX := 96422 # 1000 in
  let refY := 100 in
  let refZ := 82521 # 1000 in
  let epsilon := 8856 # 1000000 in
  let kappa := 9033 # 10 in
  let x3 := Math_pow x 3 in
  let y3 := Math_pow y 3 in
  let z3 := Math_pow z 3 in
  let x := (if Qltb epsilon x3 then x3 else (116 * x - 16) / kappa) * refX in
  let y := (if Qltb epsilon y3 then y3 else (116 * y - 16) / kappa) * refY in
  let z := (if Qltb epsilon z3 then z3 else (116 * z - 16) / kappa) * refZ in
  let x := x / 100 in
  let y := y / 100 in
  let z := z / 100 in
  let X50 := x in let Y50 := y in let Z50 := z in
  let x := X50 * (9555766 # 10000000) + Y50 * -(230393 # 10000000)
           + Z50 * (631636 # 10000000) in
  let y := X50 * -(282895 # 10000000) + Y50 * (10099416 # 10000000)
           + Z50 * (210077 # 10000000) in
  let z := X50 * (122982 # 10000000) + Y50 * -(204830 # 10000000)
           + Z50 * (13299098 # 10000000) in
  let rLin := x * (32404542 # 10000000) + y * -(15371385 # 10000000)
              + z * -(4985314 # 10000000) in
  let gLin := x * -(9692660 # 10000000) + y * (18760108 # 10000000)
              + z * (415560 # 10000000) in
  let bLin := x * (556434 # 10000000) + y * -(2040259 # 10000000)
              + z * (10572252 # 10000000) in
  [clamp01 (toSrgb rLin); clamp01 (toSrgb gLin); clamp01 (toSrgb bLin)].

(** Step 1 of [blockToRgb], the authority check: the colour it returns,
    or [None] when control falls through to the model-specific steps. *)
Definition authorityColor (block : Block) : option (list Q) :=
  match name block with
  | Some (ch :: r) =>
      let nm := ch :: r in
      match getOfficialEntry nm with
      | Some officialEntry =>
          if isStandardPantone block officialEntry
          then Some (hexToRgb (Hex officialEntry))
          else None
      | None =>
          match getOfficialHex nm with
          | Some (h :: hr) => Some (hexToRgb (h :: hr))
          | _ => None
          end
      end
  | _ => None
  end.

Definition blockToRgb (eng : ColorEngine) (block : Block) : list Q :=
  let m := modelOf block in
  let v := valuesOf block in
  match v with
  | [] => [0; 0; 0]
  | _ :: _ =>
      match authorityColor block with
      | Some rgb => rgb
      | None =>
          if jseqb m (lit "CMYK") then
            let c := num_or_0 (nth_error v 0) in
            let mVal := num_or_0 (nth_error v 1) in
            let y := num_or_0 (nth_error v 2) in
            let k := num_or_0 (nth_error v 3) in
            map (fun x => inject_Z x / 255) (cmykToProfileRGB eng c mVal y k)
          else if jseqb m (lit "LAB") then
            labToRgbValues (num_or_0 (nth_error v 0)) (num_or_0 (nth_error v 1))
              (num_or_0 (nth_error v 2))
          else if jseqb m (lit "RGB") then
            [num_or_0 (nth_error v 0); num_or_0 (nth_error v 1);
             num_or_0 (nth_error v 2)]
          else if jseqb m (lit "Gray") then
            [num_or_0 (nth_error v 0); num_or_0 (nth_error v 0);
             num_or_0 (nth_error v 0)]
          else [0; 0; 0]
      end
  end.

Definition rgbToCmyk (r g b : Q) : list Q :=
  let c := 1 - r in
  let m := 1 - g in
  let y := 1 - b in
  let k := Math_min c (Math_min m y) in
  if Qeq_bool k 1 then [0; 0; 0; 1]
  else [(c - k) / (1 - k); (m - k) / (1 - k); (y - k) / (1 - k); k].

(** [isAuthoritative]: the "verified" badge. *)
Definition isAuthoritative (block : Block) : bool :=
  match name block with
  | Some (ch :: r) =>
      let nm := ch :: r in
      match getOfficialEntry nm with
      | Some officialEntry => isStandardPantone block officialEntry
      | None =>
          match getOfficialHex nm with
          | Some (_ :: _) => true
          | _ => false
          end
      end
  | _ => false
  end.

Definition rgbToLab (r g b : Q) : list Q :=
  let lin (v : Q) :=
    if Qltb (4045 # 100000) v then Math_pow ((v + (55 # 1000)) / (1055 # 1000)) (24 # 10)
    else v / (1292 # 100) in
  let rLin := lin r * 100 in
  let gLin := lin g * 100 in
  let bLin := lin b * 100 in
  let x := rLin * (4124 # 10000) + gLin * (3576 # 10000) + bLin * (1805 # 10000) in
  let y := rLin * (2126 # 10000) + gLin * (7152 # 10000) + bLin * (722 # 10000) in
  let z := rLin * (193 # 10000) + gLin * (1192 # 10000) + bLin * (9505 # 10000) in
  let refX := 96422 # 1000 in
  let refY := 100 in
  let refZ := 82521 # 1000 in
  let epsilon := 8856 # 1000000 in
  let kappa := 9033 # 10 in
  let f (t : Q) :=
    if Qltb epsilon t then Math_pow t (1 / 3) else (kappa * t + 16) / 116 in
  let xVal := f (x / refX) in
  let yVal := f (y / refY) in
  let zVal := f (z / refZ) in
  [116 * yVal - 16; 500 * (xVal - yVal); 200 * (yVal - zVal)].

(** Rec. 601 luma. *)
Definition rgbToGray (r g b : Q) : list Q :=
  [(299 # 1000) * r + (587 # 1000) * g + (114 # 1000) * b].

Definition getLuminance (r g b : Q) : Q :=
  let a (v : Q) :=
    if Qle_bool v (3928 # 100000) then v / (1292 # 100)
    else Math_pow ((v + (55 # 1000)) / (1055 # 1000)) (24 # 10) in
  a r * (2126 # 10000) + a g * (7152 # 10000) + a b * (722 # 10000).

(** [parseFloat(x.toFixed(2))]: [x] rounded to two decimals, halves away
    from zero. *)
Definition toFixed2 (x : Q) : Q :=
  if Qltb x 0 then - (inject_Z (Qfloor (- x * 100 + (1 # 2))) / 100)
  else inject_Z (Qfloor (x * 100 + (1 # 2))) / 100.

(** [getContrastRatio]: the pair ([white], [black]).  The divisions are
    those of the rationals; the source's luminance plus 0.05 is not zero
    for any colour with non-negative components. *)
Definition getContrastRatio (eng : ColorEngine) (block : Block) : Q * Q :=
  let rgb := blockToRgb eng block in
  let lum := getLuminance (nth 0 rgb 0) (nth 1 rgb 0) (nth 2 rgb 0) in
  let whiteLum := 1 in
  let ratioWhite := (whiteLum + (5 # 100)) / (lum + (5 # 100)) in
  let blackLum := 0 in
  let ratioBlack := (lum + (5 # 100)) / (blackLum + (5 # 100)) in
  (toFixed2 ratioWhite, toFixed2 ratioBlack).

Definition getBestTextColor (eng : ColorEngine) (block : Block) : jsstring :=
  let ratios := getContrastRatio eng block in
  if Qltb (snd ratios) (fst ratios) then lit "#FFFFFF" else lit "#000000".

(** *** Colours as text *)

(** The digit for a value below 36, lower case. *)
Definition digitChar (d : Z) : Z := (if d <? 10 then 48 + d else 87 + d)%Z.

Fixpoint digitsRev (radix : Z) (fuel : nat) (n : Z) : jsstring :=
  match fuel with
  | O => []
  | S f =>
      if (n <? radix)%Z then [digitChar n]
      else digitChar (n mod radix)%Z :: digitsRev radix f (n / radix)%Z
  end.

(** [Number.prototype.toString(radix)] for an integer.  An integer has
    no more digits than bits, which is the fuel. *)
Definition intToString (radix : Z) (n : Z) : jsstring :=
  if (n <? 0)%Z
  then 45%Z :: rev (digitsRev radix (S (Z.to_nat (Z.log2 (- n)))) (- n)%Z)
  else rev (digitsRev radix (S (Z.to_nat (Z.log2 n))) n).

(** [getCSSColor]: [rgb(R, G, B)] with each channel clamped to [0,1] and
    rounded to a byte. *)
Definition cssBytes (eng : ColorEngine) (block : Block) : Z * Z * Z :=
  let rgb := blockToRgb eng block in
  let r := Math_min 1 (Math_max 0 (nth 0 rgb 0)) in
  let g := Math_min 1 (Math_max 0 (nth 1 rgb 0)) in
  let b := Math_min 1 (Math_max 0 (nth 2 rgb 0)) in
  (Math_round (r * 255), Math_round (g * 255), Math_round (b * 255)).

Definition getCSSColor (eng : ColorEngine) (block : Block) : jsstring :=
  let '(r, g, b) := cssBytes eng block in
  lit "rgb(" ++ intToString 10 r ++ lit ", " ++ intToString 10 g ++ lit ", "
    ++ intToString 10 b ++ lit ")".

Definition isDigit (c : Z) : bool := ((48 <=? c) && (c <=? 57))%Z.

(** [\d+] at the start of [s], greedy: the digits and the rest. *)
Fixpoint spanDigits (s : jsstring) : jsstring * jsstring :=
  match s with
  | c :: r =>
      if isDigit c then let '(d, rest) := spanDigits r in (c :: d, rest)
      else ([], s)
  | [] => ([], [])
  end.

Fixpoint dropPrefix (p s : jsstring) : option jsstring :=
  match p, s with
  | [], _ => Some s
  | x :: p', y :: s' => if (x =? y)%Z then dropPrefix p' s' else None
  | _ :: _, [] => None
  end.

(** [/rgb\((\d+),\s*(\d+),\s*(\d+)\)/] tried at the start of [s].  A
    digit run is followed by a non-digit and a white-space run by a
    digit, so the greedy choice is the only one. *)
Definition matchRgbHere (s : jsstring) : option (jsstring * jsstring * jsstring) :=
  match dropPrefix (lit "rgb(") s with
  | None => None
  | Some s1 =>
      let '(m1, s2) := spanDigits s1 in
      match m1, s2 with
      | _ :: _, 44%Z :: s3 =>
          let '(m2, s4) := spanDigits (trimStart s3) in
          match m2, s4 with
          | _ :: _, 44%Z :: s5 =>
              let '(m3, s6) := spanDigits (trimStart s5) in
              match m3, s6 with
              | _ :: _, 41%Z :: _ => Some (m1, m2, m3)
              | _, _ => None
              end
          | _, _ => None
          end
      | _, _ => None
      end
  end.

(** [css.match(...)]: the first position at which the pattern matches. *)
Fixpoint matchRgb (s : jsstring) : option (jsstring * jsstring * jsstring) :=
  match matchRgbHere s with
  | Some m => Some m
  | None =>
      match s with
      | [] => None
      | _ :: r => matchRgb r
      end
  end.

(** [ToInt32] and [<<] on integers. *)
Definition toInt32 (z : Z) : Z := ((z + 2147483648) mod 4294967296 - 2147483648)%Z.

Definition shl (a : option Z) (k : Z) : Z :=
  match a with
  | Some z => toInt32 (Z.shiftl (toInt32 z) k)
  | None => 0%Z
  end.

(** [toUpperCase] on the characters [toString(16)] yields. *)
Definition toUpperCase (s : jsstring) : jsstring :=
  map (fun c => if ((97 <=? c) && (c <=? 122))%Z then (c - 32)%Z else c) s.

(** [getHexFromBlock].  A captured digit run always parses; were [b] not
    a number, the sum would be NaN and the text ["#AN"]. *)
Definition getHexFromBlock (eng : ColorEngine) (block : Block) : jsstring :=
  let css := getCSSColor eng block in
  match matchRgb css with
  | Some (m1, m2, m3) =>
      let r := parseInt m1 in
      let g := parseInt m2 in
      let b := parseInt m3 in
      match b with
      | Some bv =>
          35%Z :: toUpperCase
                    (tl (intToString 16 (shl (Some 1%Z) 24 + shl r 16 + shl g 8 + bv)%Z))
      | None => lit "#AN"
      end
  | None => lit "#000000"
  end.

End Pipeline.

End ColorUtils.

(** ** Hierarchical sort (main.ts) *)

Module Sort.
Import ColorUtils.

Local Open Scope Q_scope.

(** *** Step 1: the flat blocks parsed into a tree

    The node objects of the source live in a heap; a reference is the
    index of the object, and objects are never freed.  [parent] and the
    elements of [stack] are references, so that pushing onto
    [parent.children] and setting [finishedGroup.endBlock] change the
    very objects that are reachable from [root]. *)

Definition Ref := nat.

Record TreeNode := mkTreeNode {
  block : Block;
  children : list Ref;
  endBlock : option Block
}.

Definition Heap := list TreeNode.

Fixpoint update (h : Heap) (r : Ref) (f : TreeNode -> TreeNode) : Heap :=
  match h, r with
  | [], _ => []
  | o :: h', O => f o :: h'
  | o :: h', S r' => o :: update h' r' f
  end.

(** [parent.children.push(node)] *)
Definition children_push (parent node : Ref) (h : Heap) : Heap :=
  update h parent (fun o => mkTreeNode (block o) (children o ++ [node]) (endBlock o)).

(** [finishedGroup.endBlock = b] *)
Definition set_endBlock (finishedGroup : Ref) (b : Block) (h : Heap) : Heap :=
  update h finishedGroup (fun o => mkTreeNode (block o) (children o) (Some b)).

(** The heap and [stack], its top first. *)
Record LoopState := mkLoopState {
  heap : Heap;
  stack : list Ref
}.

Definition root : Ref := 0%nat.

(** [{ type: 'groupStart' }], the block of the dummy root. *)
Definition rootBlock : Block := mkBlock groupStart None None None None.

Definition initialLoopState : LoopState :=
  mkLoopState [mkTreeNode rootBlock [] None] [root].

(** The body of [for (const b of blocks)].  [node] is the reference of
    the object [{ block: b, children: [] }] that the iteration allocates;
    [linked] is the heap with that object in it and pushed onto
    [parent.children]. *)
Definition loopStep (st : LoopState) (b : Block) : LoopState :=
  let parent := hd root (stack st) in
  let node := List.length (heap st) in
  let linked := children_push parent node (heap st ++ [mkTreeNode b [] None]) in
  match type b with
  | groupStart => mkLoopState linked (node :: stack st)
  | groupEnd =>
      match stack st with
      | finishedGroup :: (_ :: _) as rest =>
          mkLoopState (set_endBlock finishedGroup b (heap st)) rest
      | _ => mkLoopState linked (stack st)
      end
  | color => mkLoopState linked (stack st)
  end.

(** The tree below a reference, read off the heap.  The steps after the
    loop only walk the tree and reorder the [children] arrays, so they
    are defined on this tree.  A child is always allocated after its
    parent, so the number of objects bounds the depth and [fuel] never
    runs out when it starts at that number
    ([SortFrames.buildTree_frameTree]). *)
#[local] Unset Elimination Schemes.
Inductive Tree :=
| Node (b : Block) (ch : list Tree) (e : option Block).
#[local] Set Elimination Schemes.

Fixpoint treeOf (fuel : nat) (h : Heap) (r : Ref) : Tree :=
  match fuel with
  | O => Node rootBlock [] None
  | S fuel' =>
      match nth_error h r with
      | Some o => Node (block o) (map (treeOf fuel' h) (children o)) (endBlock o)
      | None => Node rootBlock [] None
      end
  end.

Definition children_of (n : Tree) : list Tree :=
  match n with Node _ ch _ => ch end.

(** [root.children] after the loop, as trees. *)
Definition buildTree (blocks : list Block) : list Tree :=
  let st := fold_left loopStep blocks initialLoopState in
  children_of (treeOf (List.length (heap st)) (heap st) root).

(** Induction on a tree, with the hypothesis for every child. *)
Fixpoint Tree_ind (P : Tree -> Prop)
    (step : forall b ch e, Forall P ch -> P (Node b ch e)) (n : Tree) : P n :=
  match n with
  | Node b ch e =>
      step b ch e
        ((fix all (l : list Tree) : Forall P l :=
            match l with
            | [] => Forall_nil P
            | c :: r => Forall_cons c (Tree_ind P step c) (all r)
            end) ch)
  end.

Definition block_of (n : Tree) : Block :=
  match n with Node b _ _ => b end.

Definition leaf (b : Block) : Tree := Node b [] None.

(** *** [Array.prototype.sort]

    The sort of the platform is stable; for a comparator that is
    consistent every conforming engine returns the same array, the one
    computed here by insertion from the right.  [comparefn a b > 0]
    places [a] after [b]. *)
Section ArraySort.
Context {A : Type} (comparefn : A -> A -> Q).

Fixpoint insertSorted (x : A) (l : list A) : list A :=
  match l with
  | [] => [x]
  | y :: r => if Qltb 0 (comparefn x y) then y :: insertSorted x r else x :: y :: r
  end.

Fixpoint array_sort (l : list A) : list A :=
  match l with
  | [] => []
  | x :: r => insertSorted x (array_sort r)
  end.

End ArraySort.

Section WithEnvironment.

(** [String.prototype.localeCompare] in the locale of the host. *)
Variable localeCompare : jsstring -> jsstring -> Q.

(** [blockToRgb] of color-utils.ts in its surroundings. *)
Variable getOfficialEntry : jsstring -> option PantoneEntry.
Variable getOfficialHex : jsstring -> option jsstring.
Variable cmsDoTransform : Z -> list Z -> option (Z * Z * Z).
Variable Math_pow : Q -> Q -> Q.
Variable eng : ColorEngine.

Definition toRgb (b : Block) : list Q :=
  blockToRgb getOfficialEntry getOfficialHex cmsDoTransform Math_pow eng b.

(** *** Step 2: the comparators *)

Definition getHSL (r g bVal : Q) : Q * Q * Q :=
  let max := Math_max (Math_max r g) bVal in
  let min := Math_min (Math_min r g) bVal in
  let l := (max + min) / 2 in
  if negb (Qeq_bool max min) then
    let d := max - min in
    let s := if Qltb (1 # 2) l then d / (2 - max - min) else d / (max + min) in
    let h :=
      if Qeq_bool max r then (g - bVal) / d + (if Qltb g bVal then 6 else 0)
      else if Qeq_bool max g then (bVal - r) / d + 2
      else if Qeq_bool max bVal then (r - g) / d + 4
      else 0 in
    (h / 6, s, l)
  else (0, 0, l).

Definition name_or_empty (b : Block) : jsstring := str_or (name b) [].

Definition compareColors (criterion : jsstring) (a b : Block) : Q :=
  if jseqb criterion (lit "name") then
    localeCompare (name_or_empty a) (name_or_empty b)
  else
    let rgbA := toRgb a in
    let rgbB := toRgb b in
    let '(hA, sA, lA) := getHSL (nth 0 rgbA 0) (nth 1 rgbA 0) (nth 2 rgbA 0) in
    let '(hB, sB, lB) := getHSL (nth 0 rgbB 0) (nth 1 rgbB 0) (nth 2 rgbB 0) in
    if jseqb criterion (lit "hue") then hA - hB
    else if jseqb criterion (lit "saturation") then sB - sA
    else if jseqb criterion (lit "lightness") then lA - lB
    else 0.

Definition isGroup (b : Block) : bool := BlockType_eqb (type b) groupStart.

(** The comparator of [nodes.sort], on the blocks of the two nodes. *)
Definition compareBlocks (criterion : jsstring) (a b : Block) : Q :=
  let isGroupA := isGroup a in
  let isGroupB := isGroup b in
  if isGroupA && negb isGroupB then -1
  else if negb isGroupA && isGroupB then 1
  else if isGroupA && isGroupB then
    localeCompare (name_or_empty a) (name_or_empty b)
  else compareColors criterion a b.

Definition compareNodes (criterion : jsstring) (a b : Tree) : Q :=
  compareBlocks criterion (block_of a) (block_of b).

(** [sortTree]: the children of every node first, then the nodes. *)
Fixpoint sortNode (criterion : jsstring) (n : Tree) : Tree :=
  match n with
  | Node b ch e =>
      Node b (array_sort (compareNodes criterion) (map (sortNode criterion) ch)) e
  end.

Definition sortTree (criterion : jsstring) (nodes : list Tree) : list Tree :=
  array_sort (compareNodes criterion) (map (sortNode criterion) nodes).

(** *** Step 3: flattening *)

Fixpoint flatten (n : Tree) : list Block :=
  match n with
  | Node b ch e =>
      b :: flat_map flatten ch ++ match e with Some eb => [eb] | None => [] end
  end.

Definition sortBlocksHierarchically (blocks : list Block) (criterion : jsstring)
  : list Block :=
  flat_map flatten (sortTree criterion (buildTree blocks)).

End WithEnvironment.

End Sort.

(** ** Undo history (history.ts) *)

Module History.

Section WithJSON.

(** [JSON.stringify] and [JSON.parse] on documents.  The text of an
    object is never the empty string, so a stored snapshot is truthy. *)
Variable Snapshot : Type.
Variable JSON_stringify : AseData -> Snapshot.
Variable JSON_parse : Snapshot -> AseData.

(** The module variables [historyStack], [historyIndex] and [onRestore]
    (whether a callback is registered).  [updateHistoryButtons] and
    [debouncedSave] read them and leave them as they are. *)
Record HistoryState := mkHistory {
  historyStack : list Snapshot;
  historyIndex : Z;
  onRestore : bool
}.

(** The state before [initHistory]. *)
Definition noHistory : HistoryState := mkHistory [] (-1) false.

Definition initHistory (initialData : AseData) : HistoryState :=
  mkHistory [JSON_stringify initialData] 0 true.

(** [pushHistory()], with [state.aseData] as argument. *)
Definition pushHistory (h : HistoryState) (aseData : AseData) : HistoryState :=
  let stack :=
    if historyIndex h <? Z.of_nat (List.length (historyStack h)) - 1
    then firstn (Z.to_nat (historyIndex h + 1)) (historyStack h)
    else historyStack h in
  let stack := stack ++ [JSON_stringify aseData] in
  let stack := if 50 <? Z.of_nat (List.length stack) then tl stack else stack in
  mkHistory stack (Z.of_nat (List.length stack) - 1) (onRestore h).

(** [restore()]: the document handed to the callback, if any. *)
Definition restore (h : HistoryState) : option AseData :=
  if onRestore h then
    if historyIndex h <? 0 then None
    else option_map JSON_parse (nth_error (historyStack h) (Z.to_nat (historyIndex h)))
  else None.

(** [undo()]: the new history, the document restored and the result. *)
Definition undo (h : HistoryState) : HistoryState * option AseData * bool :=
  if 0 <? historyIndex h then
    let h' := mkHistory (historyStack h) (historyIndex h - 1) (onRestore h) in
    (h', restore h', true)
  else (h, None, false).

Definition redo (h : HistoryState) : HistoryState * option AseData * bool :=
  if historyIndex h <? Z.of_nat (List.length (historyStack h)) - 1 then
    let h' := mkHistory (historyStack h) (historyIndex h + 1) (onRestore h) in
    (h', restore h', true)
  else (h, None, false).

(** [updateHistoryButtons]: the [disabled] flags of the two buttons. *)
Definition undoDisabled (h : HistoryState) : bool := historyIndex h <=? 0.
Definition redoDisabled (h : HistoryState) : bool :=
  Z.of_nat (List.length (historyStack h)) - 1 <=? historyIndex h.

End WithJSON.

Arguments mkHistory {Snapshot}.
Arguments historyStack {Snapshot}.
Arguments historyIndex {Snapshot}.
Arguments onRestore {Snapshot}.
Arguments noHistory {Snapshot}.
Arguments initHistory {Snapshot}.
Arguments pushHistory {Snapshot}.
Arguments restore {Snapshot}.
Arguments undo {Snapshot}.
Arguments redo {Snapshot}.
Arguments undoDisabled {Snapshot}.
Arguments redoDisabled {Snapshot}.

End History.

(** ** Editing handlers (ui.ts, main.ts) *)

Module Editor.
Import ColorUtils.

Local Open Scope Q_scope.

(** [{ ...block, model, values }] and [{ ...block, colorType }] as the
    in-place assignments of the handlers leave the block. *)
Definition withModelValues (block : Block) (m : jsstring) (vs : list Q) : Block :=
  mkBlock (type block) (name block) (Some m) (Some vs) (colorType block).

Definition withColorType (block : Block) (ct : Z) : Block :=
  mkBlock (type block) (name block) (model block) (values block) (Some ct).

(** [block.colorType === n] *)
Definition colorTypeIs (block : Block) (n : Z) : bool :=
  match colorType block with
  | Some c => (c =? n)%Z
  | None => false
  end.

Section WithEnvironment.

Variable getOfficialEntry : jsstring -> option PantoneEntry.
Variable getOfficialHex : jsstring -> option jsstring.
Variable cmsDoTransform : Z -> list Z -> option (Z * Z * Z).
Variable Math_pow : Q -> Q -> Q.
Variable eng : ColorEngine.

Abbreviation blockToRgb :=
  (ColorUtils.blockToRgb getOfficialEntry getOfficialHex cmsDoTransform Math_pow eng).
Abbreviation rgbToLab := (ColorUtils.rgbToLab Math_pow).
Abbreviation labToRgbValues := (ColorUtils.labToRgbValues Math_pow).

(** [f(a[0], a[1], a[2])] for an array [a]; the arrays indexed this way
    are results of [blockToRgb], [rgbToLab] and [labToRgbValues], which
    have three elements. *)
Definition apply3 (f : Q -> Q -> Q -> list Q) (a : list Q) : list Q :=
  f (nth 0 a 0) (nth 1 a 0) (nth 2 a 0).

(** *** [handleBatchAction] *)

(** The body of [blocks.forEach]: the block afterwards and [modified]. *)
Definition batchBlock (action : jsstring) (block : Block) : Block * bool :=
  if negb (BlockType_eqb (type block) color) then (block, false) else
  let model := modelOf block in
  let v := valuesOf block in
  if jseqb action (lit "rgb-lab") then
    match v with
    | [v0; v1; v2] =>
        if jseqb model (lit "RGB")
        then (withModelValues block (lit "LAB ") (rgbToLab v0 v1 v2), true)
        else (block, false)
    | _ => (block, false)
    end
  else if jseqb action (lit "lab-rgb") then
    match v with
    | [v0; v1; v2] =>
        if jseqb model (lit "LAB")
        then (withModelValues block (lit "RGB ") (labToRgbValues v0 v1 v2), true)
        else (block, false)
    | _ => (block, false)
    end
  else if jseqb action (lit "rgb-lab-cmyk") then
    match v with
    | [v0; v1; v2] =>
        if jseqb model (lit "RGB") then
          let lab := rgbToLab v0 v1 v2 in
          let rgb2 := apply3 labToRgbValues lab in
          (withModelValues block (lit "CMYK") (apply3 rgbToCmyk rgb2), true)
        else (block, false)
    | _ => (block, false)
    end
  else if jseqb action (lit "cmyk-lab") then
    if jseqb model (lit "CMYK") then
      let rgb := blockToRgb block in
      (withModelValues block (lit "LAB ") (apply3 rgbToLab rgb), true)
    else (block, false)
  else if jseqb action (lit "lab-cmyk") then
    match v with
    | [v0; v1; v2] =>
        if jseqb model (lit "LAB") then
          let rgb := labToRgbValues v0 v1 v2 in
          (withModelValues block (lit "CMYK") (apply3 rgbToCmyk rgb), true)
        else (block, false)
    | _ => (block, false)
    end
  else if jseqb action (lit "cmyk-lab-rgb") then
    if jseqb model (lit "CMYK") then
      let rgb := blockToRgb block in
      let lab := apply3 rgbToLab rgb in
      (withModelValues block (lit "RGB ") (apply3 labToRgbValues lab), true)
    else (block, false)
  else if jseqb action (lit "process-spot") then
    if negb (colorTypeIs block 1) then (withColorType block 1, true)
    else (block, false)
  else if jseqb action (lit "set-global") then
    if colorTypeIs block 2 then (withColorType block 0, true)
    else (block, false)
  else if jseqb action (lit "unset-global") then
    if colorTypeIs block 0 || colorTypeIs block 1 then (withColorType block 2, true)
    else (block, false)
  else (block, false).

(** [handleBatchAction]: the blocks afterwards and [count]; [None] when
    the palette is empty and the handler returns before [pushHistory]. *)
Definition handleBatchAction (action : jsstring) (blocks : list Block)
  : option (list Block * Z) :=
  match blocks with
  | [] => None
  | _ :: _ =>
      let results := map (batchBlock action) blocks in
      Some (map fst results,
            Z.of_nat (List.length (filter (fun r => snd r) results)))
  end.

(** *** [handleModelChange] *)

(** The selected block after the model selector changed to
    [newModelRaw]. *)
Definition handleModelChange (newModelRaw : jsstring) (block : Block) : Block :=
  let oldModel := modelOf block in
  let newModel := trim newModelRaw in
  if jseqb oldModel newModel then block else
  let rgb := blockToRgb block in
  if jseqb newModel (lit "RGB") then withModelValues block (lit "RGB ") rgb
  else if jseqb newModel (lit "CMYK") then
    withModelValues block (lit "CMYK") (apply3 rgbToCmyk rgb)
  else if jseqb newModel (lit "LAB") then
    withModelValues block (lit "LAB ") (apply3 rgbToLab rgb)
  else if jseqb newModel (lit "Gray") then
    withModelValues block (lit "Gray") (apply3 rgbToGray rgb)
  else withModelValues block (lit "RGB ") rgb.

(** *** [handleHexInput] *)

(** [inpHex.value.replace(/[^0-9A-F]/gi, '').substring(0, 6)] *)
Definition sanitizeHex (value : jsstring) : jsstring :=
  firstn 6 (filter isHexDigit value).

(** The [newValues] that [handleHexInput] puts into the channel inputs of
    the selected block; [None] when fewer than six hex digits were typed
    and nothing happens. *)
Definition handleHexInput (value : jsstring) (block : Block) : option (list Q) :=
  let hex := sanitizeHex value in
  if (List.length hex =? 6)%nat then
    let rgb := hexToRgb (35%Z :: hex) in
    let model := modelOf block in
    Some (if jseqb model (lit "RGB") then rgb
          else if jseqb model (lit "CMYK") then apply3 rgbToCmyk rgb
          else if jseqb model (lit "LAB") then apply3 rgbToLab rgb
          else if jseqb model (lit "Gray") then apply3 rgbToGray rgb
          else [])
  else None.

End WithEnvironment.

(** *** [handleSwatchDrop] *)

(** [blocks.splice(i, 1)] and [blocks.splice(i, 0, item)] for an index
    [i >= 0]; an index past the end inserts at the end. *)
Definition spliceOut (i : nat) (blocks : list Block) : list Block :=
  firstn i blocks ++ skipn (S i) blocks.

Definition spliceIn (i : nat) (item : Block) (blocks : list Block) : list Block :=
  firstn i blocks ++ item :: skipn i blocks.

(** [null] in a comparison or under [++] and [--] counts as 0. *)
Definition toNumber (sel : option Z) : Z :=
  match sel with
  | Some n => n
  | None => 0
  end.

(** [(newItem.name || '') + ' Copy'] on a deep copy. *)
Definition copyOf (block : Block) : Block :=
  mkBlock (type block) (Some (str_or (name block) [] ++ lit " Copy"))
    (model block) (values block) (colorType block).

Inductive DropOutcome :=
| Ignored                                        (* early return *)
| Dropped (blocks : list Block) (currentSelection : option Z)
| NoSuchSource.  (* [sourceIndex] is not an index of the list: the copy
                    throws, the move inserts [undefined] *)

(** [handleSwatchDrop] on the block list and the selection, for a drag
    payload that parses to the number [sourceIndex].  Both indices are
    those of rendered swatches, hence not negative. *)
Definition handleSwatchDrop (altKey : bool) (sourceIndex targetIndex : Z)
    (blocks : list Block) (currentSelection : option Z) : DropOutcome :=
  if (sourceIndex =? targetIndex)%Z && negb altKey then Ignored else
  match nth_error blocks (Z.to_nat sourceIndex) with
  | None => NoSuchSource
  | Some item =>
      if altKey then
        Dropped (spliceIn (Z.to_nat targetIndex) (copyOf item) blocks)
          (Some targetIndex)
      else
        let blocks' :=
          spliceIn (Z.to_nat targetIndex) item
            (spliceOut (Z.to_nat sourceIndex) blocks) in
        let sel :=
          match currentSelection with
          | Some s => if (s =? sourceIndex)%Z then Some targetIndex else
              if (targetIndex <=? s)%Z && (s <? sourceIndex)%Z then Some (s + 1)%Z
              else if (sourceIndex <? s)%Z && (s <=? targetIndex)%Z then Some (s - 1)%Z
              else Some s
          | None =>
              if (targetIndex <=? 0)%Z && (0 <? sourceIndex)%Z then Some 1%Z
              else if (sourceIndex <? 0)%Z && (0 <=? targetIndex)%Z then Some (-1)%Z
              else None
          end in
        Dropped blocks' sel
  end.

(** *** Merging a second file ([loadMergeFile]) *)

Section Merge.

(** [String.prototype.toLowerCase] *)
Variable toLowerCase : jsstring -> jsstring.

Definition normalizeName (nm : jsstring) : jsstring := toLowerCase (trim nm).

Definition optName_eqb (a b : option jsstring) : bool :=
  match a, b with
  | Some x, Some y => jseqb x y
  | None, None => true
  | _, _ => false
  end.

(** [existingNames.has(n)] *)
Definition has (existingNames : list (option jsstring)) (n : option jsstring) : bool :=
  existsb (optName_eqb n) existingNames.

(** The names of the palette's colours, [undefined] for a colour without
    a name. *)
Definition existingNamesOf (blocks : list Block) : list (option jsstring) :=
  map (fun b => option_map normalizeName (name b))
    (filter (fun b => BlockType_eqb (type b) color) blocks).

(** [newData.blocks.forEach]: the palette, the set of names and
    [addedCount] after the blocks of the second file. *)
Fixpoint mergeLoop (newBlocks : list Block) (blocks : list Block)
    (existingNames : list (option jsstring)) (addedCount : Z)
  : list Block * list (option jsstring) * Z :=
  match newBlocks with
  | [] => (blocks, existingNames, addedCount)
  | block :: rest =>
      match BlockType_eqb (type block) color, name block with
      | true, Some (c :: r) =>
          let normalizeName_ := normalizeName (c :: r) in
          if negb (has existingNames (Some normalizeName_)) then
            mergeLoop rest (blocks ++ [block])
              (existingNames ++ [Some normalizeName_]) (addedCount + 1)%Z
          else mergeLoop rest blocks existingNames addedCount
      | _, _ => mergeLoop rest blocks existingNames addedCount
      end
  end.

(** The [try] block: the palette and [addedCount] after merging the
    decoded [newData]. *)
Definition mergeBlocks (palette : list Block) (newData : AseData) : list Block * Z :=
  let '(palette', _, addedCount) :=
    mergeLoop (blocks newData) palette (existingNamesOf palette) 0%Z in
  (palette', addedCount).

(** [loadMergeFile] for a file that decodes to [newData]: the document
    afterwards and [addedCount].  With an empty palette the file is
    loaded instead ([loadFile]) and nothing is counted. *)
Definition loadMergeFile (aseData newData : AseData) : AseData * option Z :=
  match blocks aseData with
  | [] => (newData, None)
  | _ :: _ =>
      let '(palette', addedCount) := mergeBlocks (blocks aseData) newData in
      (mkAseData (version aseData) palette', Some addedCount)
  end.

End Merge.

End Editor.

(** ** Numbers of the platform: IEEE 754 binary64 *)

Module Double.

(** A Number is a binary64 value of the IEEE specification of the
    standard library: a signed zero, a signed infinity, NaN, or a sign, a
    mantissa and an exponent. *)
Definition number := spec_float.

Definition prec : Z := 53.
Definition emax : Z := 1024.

Definition NaN : number := S754_nan.

(** The Number nearest to an integer (the integer itself below 2^53). *)
Definition ofZ (n : Z) : number := binary_normalize prec emax n 0 false.

Definition zero : number := ofZ 0.
Definition one : number := ofZ 1.

(** [a + b], [a - b], [a * b], [a / b], [-a] *)
Definition add : number -> number -> number := SFadd prec emax.
Definition sub : number -> number -> number := SFsub prec emax.
Definition mul : number -> number -> number := SFmul prec emax.
Definition div : number -> number -> number := SFdiv prec emax.
Definition neg : number -> number := SFopp.

(** [a < b], [a <= b], [a === b]; all false when an operand is NaN. *)
Definition ltb : number -> number -> bool := SFltb.
Definition leb : number -> number -> bool := SFleb.
Definition eqb : number -> number -> bool := SFeqb.

(** The decimal literal [p / 10^k] of the source text, for [p] and
    [10^k] below 2^53: the Number nearest to it, which is the rounded
    quotient of the two integers. *)
Definition dec (p : Z) (k : Z) : number := div (ofZ p) (ofZ (10 ^ k)).

(** [x || 0] for a number that may be undefined: 0 for undefined, NaN
    and both zeros. *)
Definition orZero (x : option number) : number :=
  match x with
  | Some (S754_zero _) | Some S754_nan | None => zero
  | Some v => v
  end.

(** [a[i]] used as a number: NaN when the element is missing. *)
Definition elementAt (a : list number) (i : nat) : number :=
  match nth_error a i with
  | Some v => v
  | None => NaN
  end.

Definition Math_abs : number -> number := SFabs.

(** [Math.min] and [Math.max]: NaN when an operand is NaN; -0 counts as
    smaller than +0. *)
Definition Math_min (a b : number) : number :=
  match a, b with
  | S754_nan, _ | _, S754_nan => NaN
  | S754_zero sa, S754_zero sb => S754_zero (sa || sb)
  | _, _ => if ltb b a then b else a
  end.

Definition Math_max (a b : number) : number :=
  match a, b with
  | S754_nan, _ | _, S754_nan => NaN
  | S754_zero sa, S754_zero sb => S754_zero (sa && sb)
  | _, _ => if ltb a b then b else a
  end.

(** [Math.round]: the nearest integer, halves towards +infinity; NaN, the
    infinities, the zeros and the integers are returned as they are, and
    a result of zero keeps the sign of the argument. *)
Definition Math_round (x : number) : number :=
  match x with
  | S754_finite s m e =>
      if 0 <=? e then x
      else
        let v := if s then Z.neg m else Z.pos m in
        let n := (2 * v + 2 ^ (- e)) / 2 ^ (- e + 1) in
        if n =? 0 then S754_zero s else ofZ n
  | _ => x
  end.

(** Conversion to an element of a [Uint8Array]: 0 for NaN, the zeros and
    the infinities, else the integer part modulo 256. *)
Definition toUint8 (x : number) : Z :=
  match x with
  | S754_finite s m e =>
      let a := if 0 <=? e then Z.pos m * 2 ^ e else Z.pos m / 2 ^ (- e) in
      (if s then - a else a) mod 256
  | _ => 0
  end.

(** [x] is a number between 0 and 1, ends included. *)
Definition inUnit (x : number) : Prop := leb zero x = true /\ leb x one = true.

(** The exact value of a finite Number (0 for the others). *)
Definition toQ (x : number) : Q :=
  match x with
  | S754_finite s m e =>
      let a := if 0 <=? e then inject_Z (Z.pos m * 2 ^ e)
               else Qdiv (inject_Z (Z.pos m)) (inject_Z (2 ^ (- e))) in
      if s then (- a)%Q else a
  | _ => 0%Q
  end.

(** Equality of representations: the same Number, zeros of different
    sign apart. *)
Definition same (a b : number) : bool :=
  match a, b with
  | S754_zero s, S754_zero s' | S754_infinity s, S754_infinity s' => Bool.eqb s s'
  | S754_nan, S754_nan => true
  | S754_finite s m e, S754_finite s' m' e' =>
      Bool.eqb s s' && (m =? m')%positive && (e =? e')
  | _, _ => false
  end.

End Double.

(** ** The colour pipeline in binary64 (color-utils.ts, color-engine.ts) *)

Module DoubleColor.
Import ColorUtils Double.

(** [Block] of types.ts, with Numbers as channel values. *)
Record Block := mkBlock {
  type : BlockType;
  name : option jsstring;
  model : option jsstring;
  values : option (list number);
  colorType : option Z
}.

(** [parseInt(s)] and [parseInt(s, 16)] as Numbers: NaN when there is no
    digit, and the sign also on a zero. *)
Definition signed (s : jsstring) : bool * jsstring :=
  match trimStart s with
  | 45%Z :: r => (true, r)
  | 43%Z :: r => (false, r)
  | r => (false, r)
  end.

Definition withSign (negative : bool) (digits : option Z) : number :=
  match digits with
  | Some n => if negative then neg (ofZ n) else ofZ n
  | None => NaN
  end.

Definition parseInt (s : jsstring) : number :=
  let '(negative, s) := signed s in
  match s with
  | 48%Z :: x :: r =>
      if ((x =? 120) || (x =? 88))%Z
      then withSign negative (parseDigits 16 None r)
      else withSign negative (parseDigits 10 None s)
  | _ => withSign negative (parseDigits 10 None s)
  end.

Definition parseInt16 (s : jsstring) : number :=
  let '(negative, s) := signed s in
  let s :=
    match s with
    | 48%Z :: x :: r => if ((x =? 120) || (x =? 88))%Z then r else s
    | _ => s
    end in
  withSign negative (parseDigits 16 None s).

Definition channelOfHex (a b : Z) : number := div (parseInt16 [a; b]) (ofZ 255).

Definition hexToRgb (hex : jsstring) : list number :=
  let digits := match hex with 35%Z :: r => r | _ => hex end in
  match digits with
  | [a; b; c; d; e; f] =>
      if forallb isHexDigit digits
      then [channelOfHex a b; channelOfHex c d; channelOfHex e f]
      else [zero; zero; zero]
  | _ => [zero; zero; zero]
  end.

Definition valuesOf (block : Block) : list number :=
  match values block with
  | Some v => v
  | None => []
  end.

Definition modelOf (block : Block) : jsstring :=
  trim (str_or (model block) (lit "RGB")).

Definition TOLERANCE : number := dec 1 2.

(** [Math.abs(values[i] - ref) < TOLERANCE] *)
Definition withinTolerance (values : list number) (i : nat) (ref : number) : bool :=
  ltb (Math_abs (sub (elementAt values i) ref)) TOLERANCE.

Definition isStandardPantone (block : Block) (entry : PantoneEntry) : bool :=
  let values := valuesOf block in
  let model := modelOf block in
  if jseqb model (lit "CMYK") then
    let c := div (parseInt (C entry)) (ofZ 100) in
    let m := div (parseInt (M entry)) (ofZ 100) in
    let y := div (parseInt (Y entry)) (ofZ 100) in
    let k := div (parseInt (K entry)) (ofZ 100) in
    withinTolerance values 0 c && withinTolerance values 1 m
    && withinTolerance values 2 y && withinTolerance values 3 k
  else if jseqb model (lit "RGB") then
    let r := div (parseInt (R entry)) (ofZ 255) in
    let g := div (parseInt (G entry)) (ofZ 255) in
    let b := div (parseInt (B entry)) (ofZ 255) in
    withinTolerance values 0 r && withinTolerance values 1 g
    && withinTolerance values 2 b
  else true.

Section Pipeline.

Variable getOfficialEntry : jsstring -> option PantoneEntry.
Variable getOfficialHex : jsstring -> option jsstring.
Variable cmsDoTransform : Z -> list Z -> option (Z * Z * Z).

(** [Math.pow] *)
Variable Math_pow : number -> number -> number.

(** color-engine.ts *)
Definition simpleCmykToRgb (c m y k : number) : list number :=
  [Math_round (mul (mul (ofZ 255) (sub one c)) (sub one k));
   Math_round (mul (mul (ofZ 255) (sub one m)) (sub one k));
   Math_round (mul (mul (ofZ 255) (sub one y)) (sub one k))].

Definition cmykToProfileRGB (eng : ColorEngine) (c m y k : number) : list number :=
  if negb (isReady eng) then simpleCmykToRgb c m y k
  else match handle_of eng with
       | None => simpleCmykToRgb c m y k
       | Some h =>
           let srcData :=
             [toUint8 (Math_round (mul c (ofZ 255)));
              toUint8 (Math_round (mul m (ofZ 255)));
              toUint8 (Math_round (mul y (ofZ 255)));
              toUint8 (Math_round (mul k (ofZ 255)))] in
           match cmsDoTransform h srcData with
           | Some (r, g, b) => [ofZ (uint8 r); ofZ (uint8 g); ofZ (uint8 b)]
           | None => simpleCmykToRgb c m y k
           end
       end.

Definition clamp01 (x : number) : number := Math_min one (Math_max zero x).

Definition toSrgb (v : number) : number :=
  if leb v (dec 31308 7) then mul (dec 1292 2) v
  else sub (mul (dec 1055 3) (Math_pow v (div one (dec 24 1)))) (dec 55 3).

Definition labToRgbValues (L a b : number) : list number :=
  let validL := if leb L (dec 105 2) && ltb zero L then mul L (ofZ 100) else L in
  let y := div (add validL (ofZ 16)) (ofZ 116) in
  let x := add (div a (ofZ 500)) y in
  let z := sub y (div b (ofZ 200)) in
  let refX := dec 96422 3 in
  let refY := ofZ 100 in
  let refZ := dec 82521 3 in
  let epsilon := dec 8856 6 in
  let kappa := dec 9033 1 in
  let x3 := Math_pow x (ofZ 3) in
  let y3 := Math_pow y (ofZ 3) in
  let z3 := Math_pow z (ofZ 3) in
  let x := mul (if ltb epsilon x3 then x3
                else div (sub (mul (ofZ 116) x) (ofZ 16)) kappa) refX in
  let y := mul (if ltb epsilon y3 then y3
                else div (sub (mul (ofZ 116) y) (ofZ 16)) kappa) refY in
  let z := mul (if ltb epsilon z3 then z3
                else div (sub (mul (ofZ 116) z) (ofZ 16)) kappa) refZ in
  let x := div x (ofZ 100) in
  let y := div y (ofZ 100) in
  let z := div z (ofZ 100) in
  let X50 := x in let Y50 := y in let Z50 := z in
  let x := add (add (mul X50 (dec 9555766 7)) (mul Y50 (neg (dec 230393 7))))
               (mul Z50 (dec 631636 7)) in
  let y := add (add (mul X50 (neg (dec 282895 7))) (mul Y50 (dec 10099416 7)))
               (mul Z50 (dec 210077 7)) in
  let z := add (add (mul X50 (dec 122982 7)) (mul Y50 (neg (dec 204830 7))))
               (mul Z50 (dec 13299098 7)) in
  let rLin := add (add (mul x (dec 32404542 7)) (mul y (neg (dec 15371385 7))))
                  (mul z (neg (dec 4985314 7))) in
  let gLin := add (add (mul x (neg (dec 9692660 7))) (mul y (dec 18760108 7)))
                  (mul z (dec 415560 7)) in
  let bLin := add (add (mul x (dec 556434 7)) (mul y (neg (dec 2040259 7))))
                  (mul z (dec 10572252 7)) in
  [clamp01 (toSrgb rLin); clamp01 (toSrgb gLin); clamp01 (toSrgb bLin)].

(** Step 1 of [blockToRgb], the authority check: the colour it returns,
    or [None] when control falls through to the model-specific steps. *)
Definition authorityColor (block : Block) : option (list number) :=
  match name block with
  | Some (ch :: r) =>
      let nm := ch :: r in
      match getOfficialEntry nm with
      | Some officialEntry =>
          if isStandardPantone block officialEntry
          then Some (hexToRgb (Hex officialEntry))
          else None
      | None =>
          match getOfficialHex nm with
          | Some (h :: hr) => Some (hexToRgb (h :: hr))
          | _ => None
          end
      end
  | _ => None
  end.

Definition blockToRgb (eng : ColorEngine) (block : Block) : list number :=
  let m := modelOf block in
  let v := valuesOf block in
  match v with
  | [] => [zero; zero; zero]
  | _ :: _ =>
      match authorityColor block with
      | Some rgb => rgb
      | None =>
          if jseqb m (lit "CMYK") then
            let c := orZero (nth_error v 0) in
            let mVal := orZero (nth_error v 1) in
            let y := orZero (nth_error v 2) in
            let k := orZero (nth_error v 3) in
            map (fun x => div x (ofZ 255)) (cmykToProfileRGB eng c mVal y k)
          else if jseqb m (lit "LAB") then
            labToRgbValues (orZero (nth_error v 0)) (orZero (nth_error v 1))
              (orZero (nth_error v 2))
          else if jseqb m (lit "RGB") then
            [orZero (nth_error v 0); orZero (nth_error v 1); orZero (nth_error v 2)]
          else if jseqb m (lit "Gray") then
            [orZero (nth_error v 0); orZero (nth_error v 0); orZero (nth_error v 0)]
          else [zero; zero; zero]
      end
  end.

End Pipeline.

Definition rgbToCmyk (r g b : number) : list number :=
  let c := sub one r in
  let m := sub one g in
  let y := sub one b in
  let k := Math_min c (Math_min m y) in
  if eqb k one then [zero; zero; zero; one]
  else [div (sub c k) (sub one k); div (sub m k) (sub one k);
        div (sub y k) (sub one k); k].

End DoubleColor.

(** ** Codec: reading what was written *)

Module CodecFacts.
Import Codec.

(** [at_ view off s]: the bytes of [view] from offset [off] on are [s]. *)
Definition at_ (view : list Z) (off : Z) (s : list Z) : Prop :=
  0 <= off /\ skipn (Z.to_nat off) view = s.

Lemma skipn_cons_nth {A} (n : nat) (l : list A) (x : A) (r : list A) :
  skipn n l = x :: r -> nth_error l n = Some x /\ skipn (S n) l = r.
Proof.
  revert l; induction n as [|n IH]; intros [|y l] H; simpl in *; try discriminate.
  - inversion H; subst; split; [reflexivity | now destruct r].
  - apply IH in H. exact H.
Qed.

Ltac at_shift H :=
  match goal with
  | |- at_ ?v ?a ?r =>
      match type of H with
      | at_ v ?b r => replace a with b; [exact H | cbn [List.length]; lia]
      end
  end.

Lemma at_u8 view off b rest :
  at_ view off (b :: rest) ->
  getUint8 view off = Ok b /\ at_ view (off + 1) rest.
Proof.
  intros [Hoff Hs]. apply skipn_cons_nth in Hs as [Hn Hr].
  unfold getUint8, at_.
  destruct (off <? 0) eqn:E; [apply Z.ltb_lt in E; lia|].
  rewrite Hn. split; [reflexivity|]. split; [lia|].
  replace (Z.to_nat (off + 1)) with (S (Z.to_nat off)) by lia. exact Hr.
Qed.

Lemma at_skip view off l rest :
  at_ view off (l ++ rest) -> at_ view (off + len l) rest.
Proof.
  revert off; induction l as [|x l IH]; intros off H.
  - unfold len; simpl. now rewrite Z.add_0_r.
  - simpl in H. apply at_u8 in H as [_ H]. apply IH in H.
    unfold len in *. simpl List.length. rewrite Nat2Z.inj_succ.
    now replace (off + Z.succ (Z.of_nat (List.length l)))
      with (off + 1 + Z.of_nat (List.length l)) by lia.
Qed.

Lemma u16_value v : (v / 256) mod 256 * 256 + v mod 256 = v mod 65536.
Proof.
  change 65536 with (256 * 256). rewrite Z.rem_mul_r by lia. lia.
Qed.

Lemma at_u16 view off v rest :
  at_ view off (u16 v ++ rest) ->
  getUint16 view off = Ok (v mod 65536) /\ at_ view (off + 2) rest.
Proof.
  intros H. unfold u16 in H. simpl in H.
  apply at_u8 in H as [H0 H]. apply at_u8 in H as [H1 H].
  unfold getUint16. rewrite H0; simpl. rewrite H1; simpl.
  rewrite u16_value. split; [reflexivity|].
  now replace (off + 2) with (off + 1 + 1) by lia.
Qed.

Lemma u32_value v :
  ((v / 16777216) mod 256 * 256 + (v / 65536) mod 256) * 65536
    + ((v / 256) mod 256 * 256 + v mod 256) = v mod 4294967296.
Proof.
  rewrite u16_value.
  change 4294967296 with (65536 * 65536). rewrite (Z.rem_mul_r v 65536 65536) by lia.
  change 16777216 with (65536 * 256).
  rewrite <- (Z.div_div v 65536 256) by lia.
  rewrite (u16_value (v / 65536)). lia.
Qed.

Lemma at_u32 view off v rest :
  at_ view off (u32 v ++ rest) ->
  getUint32 view off = Ok (v mod 4294967296) /\ at_ view (off + 4) rest.
Proof.
  intros H. unfold u32 in H. simpl in H.
  apply at_u8 in H as [H0 H]. apply at_u8 in H as [H1 H].
  apply at_u8 in H as [H2 H]. apply at_u8 in H as [H3 H].
  unfold getUint32, getUint16.
  rewrite H0; simpl. rewrite H1; simpl.
  replace (off + 2) with (off + 1 + 1) by lia.
  rewrite H2; simpl. rewrite H3; simpl.
  rewrite u32_value. split; [reflexivity|].
  now replace (off + 4) with (off + 1 + 1 + 1 + 1) by lia.
Qed.

Lemma at_chars view off s rest :
  at_ view off (strToBytes s ++ rest) ->
  getChar view off (List.length s) = Ok (map (fun c => c mod 256) s)
  /\ at_ view (off + Z.of_nat (List.length s)) rest.
Proof.
  revert off; induction s as [|c s IH]; intros off H.
  - simpl. split; [reflexivity|]. now rewrite Z.add_0_r.
  - simpl in H. apply at_u8 in H as [H0 H]. apply IH in H as [H1 H].
    cbn [getChar map List.length]. rewrite H0; cbn [bind]. rewrite H1; cbn [bind].
    split; [reflexivity | at_shift H].
Qed.

Lemma at_utf16 view off s rest :
  at_ view off (strToUTF16Bytes s ++ rest) ->
  getUTF16Units view off (List.length s) = Ok (map (fun c => c mod 65536) s)
  /\ at_ view (off + 2 * Z.of_nat (List.length s)) rest.
Proof.
  revert off; induction s as [|c s IH]; intros off H.
  - simpl. split; [reflexivity|]. now rewrite Z.add_0_r.
  - unfold strToUTF16Bytes in H. cbn [flat_map] in H. rewrite <- app_assoc in H.
    apply at_u16 in H as [H0 H]. apply IH in H as [H1 H].
    cbn [getUTF16Units map List.length]. rewrite H0; cbn [bind]. rewrite H1; cbn [bind].
    split; [reflexivity | at_shift H].
Qed.

Section WithFloat32.
Variable f32_bits : Q -> Z.
Variable f32_val : Z -> Q.

(** What a number becomes when written with [setFloat32] and read back
    with [getFloat32]: its rounding to float32. *)
Definition fround (v : Q) : Q := f32_val (f32_bits v mod 4294967296).

Lemma at_floats view off vs rest :
  at_ view off (flat_map (setFloat32 f32_bits) vs ++ rest) ->
  getFloats f32_val view off (List.length vs) = Ok (map fround vs)
  /\ at_ view (off + 4 * Z.of_nat (List.length vs)) rest.
Proof.
  revert off; induction vs as [|v vs IH]; intros off H.
  - simpl. split; [reflexivity|]. now rewrite Z.add_0_r.
  - cbn [flat_map] in H. rewrite <- app_assoc in H. unfold setFloat32 at 1 in H.
    apply at_u32 in H as [H0 H]. apply IH in H as [H1 H].
    cbn [getFloats map List.length]. unfold getFloat32.
    rewrite H0; cbn [bind]. rewrite H1; cbn [bind].
    split; [reflexivity | at_shift H].
Qed.

(** *** Lengths of the written fields *)

Lemma len_app a b : len (a ++ b) = len a + len b.
Proof. unfold len. rewrite length_app. lia. Qed.

Lemma len_u16 v : len (u16 v) = 2.
Proof. reflexivity. Qed.

Lemma len_u32 v : len (u32 v) = 4.
Proof. reflexivity. Qed.

Lemma len_strToBytes s : len (strToBytes s) = len s.
Proof. unfold len, strToBytes. now rewrite length_map. Qed.

Lemma len_strToUTF16Bytes s : len (strToUTF16Bytes s) = 2 * len s.
Proof.
  unfold strToUTF16Bytes. induction s as [|c s IH]; [reflexivity|].
  cbn [flat_map]. rewrite len_app, IH, len_u16. unfold len. cbn [List.length]. lia.
Qed.

Lemma len_floats (vs : list Q) :
  len (flat_map (setFloat32 f32_bits) vs) = 4 * Z.of_nat (List.length vs).
Proof.
  induction vs as [|v vs IH]; [reflexivity|].
  cbn [flat_map]. rewrite len_app, IH. unfold setFloat32. rewrite len_u32.
  cbn [List.length]. lia.
Qed.

Lemma len_nonneg l : 0 <= len l.
Proof. unfold len. lia. Qed.

Lemma map_mod_id (m : Z) (s : list Z) :
  Forall (fun c => 0 <= c < m) s -> map (fun c => c mod m) s = s.
Proof.
  induction 1 as [|c s Hc _ IH]; [reflexivity|].
  cbn [map]. now rewrite IH, Z.mod_small.
Qed.

Lemma stripNul_id (s : jsstring) :
  Forall (fun c => 0 < c < 65536) s -> stripNul s = s.
Proof.
  induction 1 as [|c s Hc _ IH]; [reflexivity|].
  unfold stripNul in *. cbn [filter]. destruct (c =? 0) eqn:E.
  - apply Z.eqb_eq in E. lia.
  - cbn [negb]. now rewrite IH.
Qed.

(** *** Valid documents *)

Definition unitsOk (s : jsstring) : Prop := Forall (fun c => 0 <= c < 65536) s.

Definition knownModel (m : jsstring) : Prop :=
  m = lit "CMYK" \/ m = lit "RGB " \/ m = lit "LAB " \/ m = lit "Gray".

Definition colorTypeOk (ct : option Z) : Prop :=
  match ct with
  | Some c => 0 <= c < 65536
  | None => True
  end.

(** A block as the data model of the editor describes it: a group start
    carries a non-empty name; a colour carries a non-empty name without
    NUL, one of the four model tags, as many channels as the model has and
    a 16-bit colour type.  Names are shorter than 65535 code units, so that
    their length prefix fits its field. *)
Definition validBlock (b : Block) : Prop :=
  match type b with
  | groupStart =>
      exists nm, name b = Some nm /\ nm <> [] /\ unitsOk nm /\ len nm + 1 < 65536
  | groupEnd => True
  | color =>
      exists nm m vs,
        name b = Some nm /\ model b = Some m /\ values b = Some vs /\
        nm <> [] /\ Forall (fun c => 0 < c < 65536) nm /\ len nm + 1 < 65536 /\
        knownModel m /\ List.length vs = numChannelsOf m /\
        colorTypeOk (colorType b)
  end.

Definition validDocument (d : AseData) : Prop :=
  0 <= fst (version d) < 65536 /\ 0 <= snd (version d) < 65536 /\
  Z.of_nat (List.length (blocks d)) < 4294967296 /\
  Forall validBlock (blocks d).

(** The block that [parseASE] builds from the bytes of [b]. *)
Definition reread (b : Block) : Block :=
  match type b with
  | groupStart => mkBlock groupStart (name b) None None None
  | groupEnd => mkBlock groupEnd None None None None
  | color =>
      mkBlock color (name b) (model b)
        (option_map (map fround) (values b))
        (Some (colorType_or_2 (colorType b)))
  end.

Lemma colorType_or_2_range ct :
  colorTypeOk ct -> 0 <= colorType_or_2 ct < 65536.
Proof.
  destruct ct as [c|]; simpl; [|lia].
  destruct (c =? 0); lia.
Qed.

Lemma knownModel_bytes m :
  knownModel m -> List.length m = 4%nat /\ strToBytes m = m.
Proof.
  intros [H|[H|[H|H]]]; subst; split; reflexivity.
Qed.

Lemma parseBlock_encodeBlock view off b rest :
  validBlock b ->
  at_ view off (encodeBlock f32_bits b ++ rest) ->
  parseBlock f32_val view off
    = Ok (Some (reread b), off + len (encodeBlock f32_bits b))
  /\ at_ view (off + len (encodeBlock f32_bits b)) rest.
Proof.
  intros Hv Hat. split; [|now apply at_skip].
  destruct b as [ty nm0 mdl0 vs0 ct0]. unfold validBlock in Hv.
  unfold encodeBlock in *. unfold reread. cbn [type name model values colorType] in *.
  destruct ty.
  - (* groupStart *)
    destruct Hv as (nm & -> & Hne & Hu & Hl).
    destruct nm as [|c r]; [congruence|]. set (nm := c :: r) in *.
    repeat rewrite <- app_assoc in Hat.
    pose proof (len_nonneg nm) as Hnn.
    apply at_u16 in Hat as [E1 Hat]. apply at_u32 in Hat as [E2 Hat].
    apply at_u16 in Hat as [E3 Hat].
    replace (nm ++ [0]) with (nm ++ [0] ++ []) in Hat by reflexivity.
    unfold strToUTF16Bytes in Hat. rewrite flat_map_app in Hat.
    rewrite <- app_assoc in Hat.
    apply (at_utf16 view _ nm) in Hat as [E4 Hat].
    unfold parseBlock. rewrite E1; cbn [bind]. rewrite E2; cbn [bind].
    change (49153 mod 65536 =? 49153) with true. cbn iota.
    replace (off + 6) with (off + 2 + 4) by lia. rewrite E3; cbn [bind].
    unfold getUTF16String.
    rewrite (Z.mod_small (len nm + 1)) by lia.
    replace (Z.to_nat (len nm + 1 - 1)) with (List.length nm) by (unfold len; lia).
    rewrite E4; cbn [bind]. rewrite (map_mod_id 65536) by exact Hu.
    apply f_equal, f_equal.
    rewrite !len_app, len_u16, len_u32, len_u16, len_strToUTF16Bytes, len_app.
    change (len [0]) with 1.
    rewrite Z.mod_small; lia.
  - (* groupEnd *)
    repeat rewrite <- app_assoc in Hat.
    apply at_u16 in Hat as [E1 Hat]. apply at_u32 in Hat as [E2 Hat].
    unfold parseBlock. rewrite E1; cbn [bind]. rewrite E2; cbn [bind].
    change (49154 mod 65536 =? 49153) with false.
    change (49154 mod 65536 =? 49154) with true. cbn iota.
    apply f_equal, f_equal. change (len (u16 49154 ++ u32 0)) with 6.
    change (0 mod 4294967296) with 0. lia.
  - (* color *)
    destruct Hv as (nm & m & vs & -> & -> & -> & Hne & Hu & Hl & Hm & Hn & Hct).
    destruct nm as [|c r]; [congruence|]. set (nm := c :: r) in *.
    pose proof (len_nonneg nm) as Hnn.
    pose proof (knownModel_bytes m Hm) as [Hm4 Hmb].
    assert (Hmo : str_or (Some m) (lit "RGB ") = m).
    { destruct m; [discriminate Hm4 | reflexivity]. }
    rewrite Hmo in Hat.
    repeat rewrite <- app_assoc in Hat.
    apply at_u16 in Hat as [E1 Hat]. apply at_u32 in Hat as [E2 Hat].
    apply at_u16 in Hat as [E3 Hat].
    replace (nm ++ [0]) with (nm ++ [0] ++ []) in Hat by reflexivity.
    unfold strToUTF16Bytes in Hat. rewrite flat_map_app in Hat.
    rewrite <- app_assoc in Hat.
    pose proof Hat as Hat0.
    apply (at_utf16 view _ nm) in Hat0 as [E4 _].
    apply at_skip in Hat. apply at_skip in Hat.
    apply at_chars in Hat as [E5 Hat].
    apply at_floats in Hat as [E6 Hat].
    apply at_u16 in Hat as [E7 _].
    fold strToUTF16Bytes in *.
    rewrite !len_strToUTF16Bytes in *. change (len ([0] ++ [])) with 1 in *.
    unfold parseBlock. rewrite E1; cbn [bind]. rewrite E2; cbn [bind].
    change (1 mod 65536 =? 49153) with false.
    change (1 mod 65536 =? 49154) with false.
    change (1 mod 65536 =? 1) with true. cbn iota.
    replace (off + 6) with (off + 2 + 4) by lia. rewrite E3; cbn [bind].
    unfold getUTF16String.
    rewrite (Z.mod_small (len nm + 1)) by lia.
    replace (Z.to_nat (len nm + 1 - 1)) with (List.length nm) by (unfold len; lia).
    rewrite E4; cbn [bind].
    rewrite (map_mod_id 65536)
      by (eapply Forall_impl; [|exact Hu]; cbv beta; intros; lia).
    replace (off + 2 + 4 + 2 + (len nm + 1) * 2)
      with (off + 2 + 4 + 2 + 2 * len nm + 2 * 1) by lia.
    rewrite <- Hm4, E5; cbn [bind].
    fold (strToBytes m). rewrite Hmb.
    rewrite <- Hn.
    replace (off + 2 + 4 + 2 + 2 * len nm + 2 * 1 + 4)
      with (off + 2 + 4 + 2 + 2 * len nm + 2 * 1 + Z.of_nat (List.length m))
      by (rewrite Hm4; reflexivity).
    rewrite E6; cbn [bind]. rewrite E7; cbn [bind].
    rewrite (stripNul_id nm Hu).
    rewrite (Z.mod_small (colorType_or_2 ct0)) by (now apply colorType_or_2_range).
    cbn [option_map]. apply f_equal, f_equal.
    rewrite !len_app, !len_u16, len_u32, len_strToUTF16Bytes, len_app,
      len_strToBytes, len_floats.
    change (len [0]) with 1.
    assert (len m = 4) by (unfold len; rewrite Hm4; reflexivity).
    assert (0 <= Z.of_nat (List.length vs) <= 4).
    { rewrite Hn. unfold numChannelsOf.
      repeat match goal with |- context [if ?c then _ else _] => destruct c end; lia. }
    rewrite Hmo, Z.mod_small; lia.
Qed.

Lemma parseBlocks_encode view bs : forall off acc rest,
  Forall validBlock bs ->
  at_ view off (flat_map (encodeBlock f32_bits) bs ++ rest) ->
  parseBlocks f32_val view (List.length bs) off acc = Ok (acc ++ map reread bs).
Proof.
  induction bs as [|b bs IH]; intros off acc rest Hv Hat.
  - simpl. now rewrite app_nil_r.
  - inversion Hv as [|? ? Hb Hbs]; subst.
    cbn [flat_map] in Hat. rewrite <- app_assoc in Hat.
    destruct (parseBlock_encodeBlock view off b _ Hb Hat) as [E Hat'].
    cbn [parseBlocks List.length]. rewrite E; cbn [bind].
    rewrite (IH _ _ _ Hbs Hat'). cbn [map]. now rewrite <- app_assoc.
Qed.

(** Decoding the bytes of a valid document gives back the document, with
    every channel value rounded to float32 and every missing or zero
    colour type replaced by 2. *)
Theorem parseASE_createASEBuffer (d : AseData) :
  validDocument d ->
  parseASE f32_val (createASEBuffer f32_bits d)
    = Ok (mkAseData (version d) (map reread (blocks d))).
Proof.
  intros (Hmaj & Hmin & Hcount & Hbs).
  destruct d as [[maj min] bs]. cbn [version blocks fst snd] in *.
  unfold createASEBuffer. cbn [version blocks fst snd].
  set (body := flat_map (encodeBlock f32_bits) bs).
  assert (H0 : at_ (strToBytes (lit "ASEF") ++ u16 maj ++ u16 min
                      ++ u32 (Z.of_nat (List.length bs)) ++ body) 0
                   (strToBytes (lit "ASEF") ++ u16 maj ++ u16 min
                      ++ u32 (Z.of_nat (List.length bs)) ++ body ++ [])).
  { split; [lia|]. cbn [Z.to_nat skipn]. now rewrite app_nil_r. }
  set (buf := strToBytes (lit "ASEF") ++ u16 maj ++ u16 min
                ++ u32 (Z.of_nat (List.length bs)) ++ body) in *.
  apply at_chars in H0 as [E0 H0]. apply at_u16 in H0 as [E1 H0].
  apply at_u16 in H0 as [E2 H0]. apply at_u32 in H0 as [E3 H0].
  unfold parseASE. change 4%nat with (List.length (lit "ASEF")) at 1.
  rewrite E0; cbn [bind].
  change (negb (jseqb (map (fun c => c mod 256) (lit "ASEF")) (lit "ASEF"))) with false.
  cbn iota. change 4 with (0 + Z.of_nat (List.length (lit "ASEF"))) at 1.
  rewrite E1; cbn [bind].
  change 6 with (0 + Z.of_nat (List.length (lit "ASEF")) + 2) at 1.
  rewrite E2; cbn [bind].
  change 8 with (0 + Z.of_nat (List.length (lit "ASEF")) + 2 + 2) at 1.
  rewrite E3; cbn [bind].
  rewrite (Z.mod_small (Z.of_nat _)) by lia. rewrite Nat2Z.id.
  change 12 with (0 + Z.of_nat (List.length (lit "ASEF")) + 2 + 2 + 4).
  rewrite (parseBlocks_encode buf bs _ [] [] Hbs H0); cbn [bind app].
  now rewrite !Z.mod_small by lia.
Qed.

Lemma parseBlock_end view off ob next :
  parseBlock f32_val view off = Ok (ob, next) ->
  exists blockType blockLen,
    getUint16 view off = Ok blockType /\
    getUint32 view (off + 2) = Ok blockLen /\
    next = off + 6 + blockLen.
Proof.
  unfold parseBlock. intros H.
  destruct (getUint16 view off) as [ty|] eqn:E1; [|discriminate].
  destruct (getUint32 view (off + 2)) as [bl|] eqn:E2; [|discriminate].
  exists ty, bl. repeat split. cbn [bind] in H.
  repeat match type of H with
  | (if ?c then _ else _) = _ => destruct c
  | bind ?r _ = _ => destruct r; cbn [bind] in H; [|discriminate]
  end; now inversion H.
Qed.

Lemma parseBlock_unknown view off blockType blockLen :
  getUint16 view off = Ok blockType ->
  getUint32 view (off + 2) = Ok blockLen ->
  blockType <> 0xC001 -> blockType <> 0xC002 -> blockType <> 0x0001 ->
  parseBlock f32_val view off = Ok (None, off + 6 + blockLen).
Proof.
  intros E1 E2 H1 H2 H3. unfold parseBlock. rewrite E1, E2; cbn [bind].
  apply Z.eqb_neq in H1, H2, H3. now rewrite H1, H2, H3.
Qed.

End WithFloat32.

(** *** Sample inputs *)

(** A float32 stand-in used to run the codec on examples: 16.16 fixed
    point.  Any pair of conversions would do; the theorems above hold for
    all of them. *)
Definition sample_f32_bits (q : Q) : Z := Qfloor (q * 65536) mod 4294967296.
Definition sample_f32_val (z : Z) : Q := inject_Z z / 65536.

(** A one-swatch palette whose swatch was made Global (colour type 0) in
    the editor panel. *)
Definition globalSwatch : Block :=
  mkBlock color (Some (lit "Sky")) (Some (lit "RGB "))
    (Some [0%Q; (1 # 2)%Q; 1%Q]) (Some 0).

Definition globalDoc : AseData := mkAseData (1, 0) [globalSwatch].

Lemma globalDoc_valid : validDocument globalDoc.
Proof.
  unfold validDocument, globalDoc; cbn [version blocks fst snd List.length].
  repeat split; try lia. constructor; [|constructor].
  unfold validBlock, globalSwatch; cbn [type name model values colorType].
  exists (lit "Sky"), (lit "RGB "), [0%Q; (1 # 2)%Q; 1%Q].
  repeat split; try reflexivity; try discriminate; try (cbn; lia).
  - repeat constructor.
  - right; left; reflexivity.
Qed.

(** A palette holding one group whose name is the empty string, as
    [parseASE] itself produces for a group block with [nameLen <= 1]. *)
Definition unnamedGroupDoc : AseData :=
  mkAseData (1, 0) [mkBlock groupStart (Some []) None None None].

(** A file with one block of an unassigned type 0x0002 and a 3-byte
    payload, followed by a group end. *)
Definition fileWithUnknownBlock : list Z :=
  strToBytes (lit "ASEF") ++ u16 1 ++ u16 0 ++ u32 2
    ++ (u16 0x0002 ++ u32 3 ++ [7; 7; 7])
    ++ (u16 0xC002 ++ u32 0).

End CodecFacts.

(** ** Codec: the properties the specification states *)

Module CodecClaims.
Import Codec CodecFacts.

(** C1 (the code departs from it).  Decoding the encoding of a valid
    document must give back every colour's colour type.  For the valid
    one-swatch palette [globalDoc], whose swatch has colour type 0
    (Global), [parseASE (createASEBuffer globalDoc)] succeeds and the
    swatch comes back with colour type 2: [createASEBuffer] writes
    [block.colorType || 2], and 0 is falsy.  Block count, kind, name,
    model and the float32-rounded channel values do come back. *)
Theorem C1_roundtrip_turns_global_into_process
  (f32_bits : Q -> Z) (f32_val : Z -> Q) :
  parseASE f32_val (createASEBuffer f32_bits globalDoc)
    = Ok (mkAseData (1, 0)
            [mkBlock color (Some (lit "Sky")) (Some (lit "RGB "))
               (Some (map (fround f32_bits f32_val) [0%Q; (1 # 2)%Q; 1%Q]))
               (Some 2)])
  /\ map colorType (blocks globalDoc) = [Some 0].
Proof.
  split; [|reflexivity].
  rewrite (parseASE_createASEBuffer f32_bits f32_val globalDoc globalDoc_valid).
  reflexivity.
Qed.

(** The second way [createASEBuffer] breaks the round trip: a block with
    an empty name is not written, but the header still counts it, so the
    decoder runs off the end of the buffer. *)
Lemma unnamed_group_roundtrip_throws (f32_bits : Q -> Z) (f32_val : Z -> Q) :
  parseASE f32_val (createASEBuffer f32_bits unnamedGroupDoc) = Throw RangeError.
Proof. reflexivity. Qed.

(** C7.  A buffer whose first four bytes are not "ASEF" is rejected:
    [parseASE] throws and returns no document.  When the buffer has at
    least four bytes the exception is the signature error; a shorter
    buffer fails on the out-of-range read of the signature itself. *)
Theorem C7_bad_signature_rejected (f32_val : Z -> Q) (buffer : list Z) :
  firstn 4 buffer <> lit "ASEF" ->
  (exists e, parseASE f32_val buffer = Throw e) /\
  ((4 <= List.length buffer)%nat ->
     parseASE f32_val buffer = Throw InvalidFileSignature) /\
  ((List.length buffer < 4)%nat ->
     parseASE f32_val buffer = Throw RangeError).
Proof.
  intros Hsig.
  destruct buffer as [|a [|b [|c [|d rest]]]];
    try (split; [eexists; reflexivity | split; [cbn; lia | reflexivity]]).
  assert (E : parseASE f32_val (a :: b :: c :: d :: rest)
              = Throw InvalidFileSignature).
  { unfold parseASE.
    change (getChar (a :: b :: c :: d :: rest) 0 4) with (Ok [a; b; c; d]).
    cbn [bind].
    destruct (jseqb [a; b; c; d] (lit "ASEF")) eqn:J; [|reflexivity].
    apply jseqb_eq in J. exfalso. apply Hsig. cbn [firstn]. exact J. }
  split; [eexists; exact E | split; [intros _; exact E | cbn; lia]].
Qed.

Lemma C7_witness :
  parseASE sample_f32_val (lit "ASEX" ++ [0; 1; 0; 0; 0; 0; 0; 0])
    = Throw InvalidFileSignature.
Proof.
  apply (C7_bad_signature_rejected sample_f32_val
           (lit "ASEX" ++ [0; 1; 0; 0; 0; 0; 0; 0])).
  - cbn. discriminate.
  - cbn. lia.
Defined.

(** What one iteration appends to [data.blocks]. *)
Definition pushed (ob : option Block) : list Block :=
  match ob with
  | Some b => [b]
  | None => []
  end.

(** C8.  Whatever a block contains and whatever its type, the iteration
    that handles it leaves the cursor at [blockStart + 6 + blockLength],
    the end computed from the header before the payload is looked at,
    and the loop goes on from there with the block it has pushed, if
    any.  A block of unknown type pushes nothing and is skipped by its
    declared length.  On the byte level, after a block that is laid out
    as type, length and that many payload bytes the cursor stands
    exactly where the bytes after the payload begin, however many of the
    payload bytes the fields of the block took. *)
Theorem C8_cursor_resumes_at_declared_end (f32_val : Z -> Q) (view : list Z) (off : Z) :
  (forall ob next,
     parseBlock f32_val view off = Ok (ob, next) ->
     exists blockType blockLen,
       getUint16 view off = Ok blockType /\
       getUint32 view (off + 2) = Ok blockLen /\
       next = off + 6 + blockLen /\
       forall n acc,
         parseBlocks f32_val view (S n) off acc
           = parseBlocks f32_val view n (off + 6 + blockLen) (acc ++ pushed ob)) /\
  (forall blockType blockLen,
     getUint16 view off = Ok blockType ->
     getUint32 view (off + 2) = Ok blockLen ->
     blockType <> 0xC001 -> blockType <> 0xC002 -> blockType <> 0x0001 ->
     parseBlock f32_val view off = Ok (None, off + 6 + blockLen) /\
     forall n acc,
       parseBlocks f32_val view (S n) off acc
         = parseBlocks f32_val view n (off + 6 + blockLen) acc) /\
  (forall ty payload rest ob next,
     0 <= ty < 65536 -> len payload < 4294967296 ->
     at_ view off (u16 ty ++ u32 (len payload) ++ payload ++ rest) ->
     parseBlock f32_val view off = Ok (ob, next) ->
     next = off + 6 + len payload /\ at_ view next rest /\
     forall n acc,
       parseBlocks f32_val view (S n) off acc
         = parseBlocks f32_val view n (off + 6 + len payload) (acc ++ pushed ob)) /\
  (forall ty payload rest,
     0 <= ty < 65536 -> ty <> 0xC001 -> ty <> 0xC002 -> ty <> 0x0001 ->
     len payload < 4294967296 ->
     at_ view off (u16 ty ++ u32 (len payload) ++ payload ++ rest) ->
     parseBlock f32_val view off = Ok (None, off + 6 + len payload) /\
     at_ view (off + 6 + len payload) rest).
Proof.
  assert (Loop : forall ob next,
            parseBlock f32_val view off = Ok (ob, next) ->
            forall n acc,
              parseBlocks f32_val view (S n) off acc
                = parseBlocks f32_val view n next (acc ++ pushed ob)).
  { intros ob next E n acc. cbn [parseBlocks]. rewrite E. cbn [bind].
    destruct ob as [b|]; cbn [pushed]; [reflexivity | now rewrite app_nil_r]. }
  split; [|split; [|split]].
  - intros ob next H.
    destruct (parseBlock_end f32_val view off ob next H) as (ty & bl & E1 & E2 & ->).
    exists ty, bl. repeat split; try assumption. now apply Loop.
  - intros ty bl E1 E2 H1 H2 H3.
    pose proof (parseBlock_unknown f32_val view off ty bl E1 E2 H1 H2 H3) as E.
    split; [exact E|]. intros n acc. cbn [parseBlocks]. rewrite E. reflexivity.
  - intros ty payload rest ob next Hty Hlen Hat H.
    pose proof (len_nonneg payload) as Hnn.
    apply at_u16 in Hat as [E1 Hat]. apply at_u32 in Hat as [E2 Hat].
    apply at_skip in Hat. rewrite Z.mod_small in E2 by lia.
    destruct (parseBlock_end f32_val view off ob next H) as (ty' & bl & _ & E2' & ->).
    rewrite E2 in E2'. inversion E2'; subst bl.
    split; [reflexivity|]. split; [at_shift Hat|]. now apply Loop.
  - intros ty payload rest Hty H1 H2 H3 Hlen Hat.
    pose proof (len_nonneg payload) as Hnn.
    apply at_u16 in Hat as [E1 Hat]. apply at_u32 in Hat as [E2 Hat].
    apply at_skip in Hat.
    rewrite Z.mod_small in E1 by lia. rewrite Z.mod_small in E2 by lia.
    split.
    + exact (parseBlock_unknown f32_val view off ty _ E1 E2 H1 H2 H3).
    + at_shift Hat.
Qed.

(** A file whose first block is a group start named A with two bytes of
    padding after the name, inside the declared length of 8, followed by
    a group end. *)
Definition fileWithPaddedGroup : list Z :=
  strToBytes (lit "ASEF") ++ u16 1 ++ u16 0 ++ u32 2
    ++ (u16 0xC001 ++ u32 8 ++ (u16 2 ++ strToUTF16Bytes (lit "A" ++ [0]) ++ [9; 9]))
    ++ (u16 0xC002 ++ u32 0).

Lemma C8_witness :
  parseBlock sample_f32_val fileWithUnknownBlock 12 = Ok (None, 21) /\
  parseASE sample_f32_val fileWithUnknownBlock
    = Ok (mkAseData (1, 0) [mkBlock groupEnd None None None None]) /\
  (exists blockType blockLen,
     getUint16 fileWithPaddedGroup 12 = Ok blockType /\
     getUint32 fileWithPaddedGroup (12 + 2) = Ok blockLen /\
     26 = 12 + 6 + blockLen /\
     forall n acc,
       parseBlocks sample_f32_val fileWithPaddedGroup (S n) 12 acc
         = parseBlocks sample_f32_val fileWithPaddedGroup n (12 + 6 + blockLen)
             (acc ++ pushed (Some (mkBlock groupStart (Some (lit "A")) None None None)))) /\
  parseASE sample_f32_val fileWithPaddedGroup
    = Ok (mkAseData (1, 0) [mkBlock groupStart (Some (lit "A")) None None None;
                            mkBlock groupEnd None None None None]).
Proof.
  split; [|split; [reflexivity|split; [|reflexivity]]].
  - destruct (C8_cursor_resumes_at_declared_end sample_f32_val fileWithUnknownBlock 12)
      as (_ & H & _).
    assert (E1 : getUint16 fileWithUnknownBlock 12 = Ok 2) by reflexivity.
    assert (E2 : getUint32 fileWithUnknownBlock (12 + 2) = Ok 3) by reflexivity.
    assert (N1 : 2 <> 0xC001) by discriminate.
    assert (N2 : 2 <> 0xC002) by discriminate.
    assert (N3 : 2 <> 0x0001) by discriminate.
    exact (proj1 (H 2 3 E1 E2 N1 N2 N3)).
  - destruct (C8_cursor_resumes_at_declared_end sample_f32_val fileWithPaddedGroup 12)
      as (H & _).
    apply (H (Some (mkBlock groupStart (Some (lit "A")) None None None)) 26).
    reflexivity.
Defined.

End CodecClaims.

(** ** Colour pipeline: facts *)

Module ColorFacts.
Import ColorUtils.

Local Open Scope Q_scope.

Definition in01 (x : Q) : Prop := 0 <= x <= 1.

Lemma Qltb_lt a b : Qltb a b = true <-> a < b.
Proof.
  unfold Qltb. rewrite negb_true_iff. split.
  - intros H. apply Qnot_le_lt. intros L. apply Qle_bool_iff in L. congruence.
  - intros H. destruct (Qle_bool b a) eqn:E; [|reflexivity].
    apply Qle_bool_iff in E. exfalso. exact (Qlt_not_le _ _ H E).
Qed.

Lemma Math_round_near x :
  inject_Z (Math_round x) - (1 # 2) <= x /\ x < inject_Z (Math_round x) + (1 # 2).
Proof.
  unfold Math_round.
  pose proof (Qfloor_le (x + (1 # 2))) as Hl.
  pose proof (Qlt_floor (x + (1 # 2))) as Hu.
  rewrite inject_Z_plus in Hu. change (inject_Z 1) with 1 in Hu.
  split; lra.
Qed.

Lemma Math_round_range x n :
  0 <= x <= inject_Z n -> (0 <= Math_round x <= n)%Z.
Proof.
  intros [H0 H1]. destruct (Math_round_near x) as [Hl Hu]. split.
  - destruct (Z_lt_le_dec (Math_round x) 0) as [L|L]; [|exact L]. exfalso.
    assert (inject_Z (Math_round x) <= inject_Z (-1)) by (rewrite <- Zle_Qle; lia).
    change (inject_Z (-1)) with (- (1)) in H. lra.
  - destruct (Z_lt_le_dec n (Math_round x)) as [L|L]; [|exact L]. exfalso.
    assert (inject_Z (n + 1) <= inject_Z (Math_round x)) by (rewrite <- Zle_Qle; lia).
    rewrite inject_Z_plus in H. change (inject_Z 1) with 1 in H. lra.
Qed.




Lemma clamp01_in01 x : in01 (clamp01 x).
Proof.
  unfold in01, clamp01, Math_min, Math_max.
  destruct (Qle_bool 0 x) eqn:E0.
  - apply Qle_bool_iff in E0. destruct (Qle_bool 1 x) eqn:E1.
    + lra.
    + assert (~ 1 <= x) by (intros L; apply Qle_bool_iff in L; congruence). lra.
  - destruct (Qle_bool 1 0) eqn:E1; [apply Qle_bool_iff in E1|]; lra.
Qed.

(** *** [hexToRgb] stays in the unit cube *)

Definition hexDigits : list Z :=
  [48; 49; 50; 51; 52; 53; 54; 55; 56; 57; 97; 98; 99; 100; 101; 102;
   65; 66; 67; 68; 69; 70]%Z.

Lemma isHexDigit_In c : isHexDigit c = true -> In c hexDigits.
Proof.
  unfold isHexDigit. intros H.
  assert ((48 <= c <= 57) \/ (97 <= c <= 102) \/ (65 <= c <= 70))%Z as Hc.
  { repeat rewrite orb_true_iff in H. repeat rewrite andb_true_iff in H.
    repeat rewrite Z.leb_le in H. lia. }
  unfold hexDigits. simpl.
  assert (c = 48 \/ c = 49 \/ c = 50 \/ c = 51 \/ c = 52 \/ c = 53 \/ c = 54
          \/ c = 55 \/ c = 56 \/ c = 57 \/ c = 97 \/ c = 98 \/ c = 99
          \/ c = 100 \/ c = 101 \/ c = 102 \/ c = 65 \/ c = 66 \/ c = 67
          \/ c = 68 \/ c = 69 \/ c = 70)%Z as Hd by lia.
  intuition.
Qed.

Definition channelOk (a b : Z) : bool :=
  Qle_bool 0 (channelOfHex a b) && Qle_bool (channelOfHex a b) 1.

Lemma channelOk_all :
  forallb (fun a => forallb (channelOk a) hexDigits) hexDigits = true.
Proof. vm_compute. reflexivity. Qed.

Lemma channelOfHex_in01 a b :
  isHexDigit a = true -> isHexDigit b = true -> in01 (channelOfHex a b).
Proof.
  intros Ha Hb. apply isHexDigit_In in Ha, Hb.
  pose proof channelOk_all as H. rewrite forallb_forall in H.
  specialize (H a Ha). rewrite forallb_forall in H. specialize (H b Hb).
  unfold channelOk in H. apply andb_true_iff in H as [H0 H1].
  apply Qle_bool_iff in H0, H1. split; assumption.
Qed.

Lemma black_in01 : Forall in01 [0; 0; 0].
Proof. repeat constructor; unfold in01; lra. Qed.

Lemma hexToRgb_in01 hex :
  Forall in01 (hexToRgb hex) /\ List.length (hexToRgb hex) = 3%nat.
Proof.
  unfold hexToRgb.
  set (digits := match hex with 35%Z :: r => r | _ => hex end).
  destruct digits as [|a [|b [|c [|d [|e [|f [|g r]]]]]]];
    try (split; [exact black_in01 | reflexivity]).
  destruct (forallb isHexDigit [a; b; c; d; e; f]) eqn:E;
    [|split; [exact black_in01 | reflexivity]].
  cbn [forallb] in E. repeat rewrite andb_true_iff in E.
  destruct E as (Ha & Hb & Hc & Hd & He & Hf & _).
  split; [|reflexivity].
  repeat constructor; apply channelOfHex_in01; assumption.
Qed.

End ColorFacts.

(** ** Colour pipeline: the properties the specification states *)

Module ColorClaims.
Import ColorUtils ColorFacts.

Local Open Scope Q_scope.

(** *** Sample surroundings, used to run the pipeline on examples *)

Definition pantone185 : PantoneEntry :=
  mkPantoneEntry (lit "0") (lit "93") (lit "79") (lit "0")
    (lit "228") (lit "0") (lit "43") (lit "#E4002B").

(** A reference table with the single entry PANTONE 185 C. *)
Definition sampleEntry (nm : jsstring) : option PantoneEntry :=
  if jseqb (trim nm) (lit "PANTONE 185 C") then Some pantone185 else None.

Definition noHex (nm : jsstring) : option jsstring := None.
Definition noTransform (h : Z) (src : list Z) : option (Z * Z * Z) := None.
Definition samplePow (x y : Q) : Q := x.

(** The engine before [initColorEngine] has completed. *)
Definition engineDown : ColorEngine := mkColorEngine false None.


Section Claims.

Variable getOfficialEntry : jsstring -> option PantoneEntry.
Variable getOfficialHex : jsstring -> option jsstring.
Variable cmsDoTransform : Z -> list Z -> option (Z * Z * Z).
Variable Math_pow : Q -> Q -> Q.

Abbreviation blockToRgb :=
  (ColorUtils.blockToRgb getOfficialEntry getOfficialHex cmsDoTransform Math_pow).
Abbreviation authorityColor :=
  (ColorUtils.authorityColor getOfficialEntry getOfficialHex).







(** *** What "within tolerance of the reference" means *)








Lemma Math_min_le_l a b : Math_min a b <= a.
Proof.
  unfold Math_min. destruct (Qle_bool a b) eqn:E; [lra|].
  assert (~ a <= b) by (intros L; apply Qle_bool_iff in L; congruence). lra.
Qed.

Lemma Math_min_le_r a b : Math_min a b <= b.
Proof.
  unfold Math_min. destruct (Qle_bool a b) eqn:E; [|lra].
  now apply Qle_bool_iff in E.
Qed.



(** C10.  A block without channel values, or with an empty list of
    them, is drawn black whatever its name and model: the test comes
    before the name lookup and before any conversion, so the result does
    not depend on the reference table or on the engine. *)
Theorem C10_no_values_is_black (eng : ColorEngine) (block : Block) :
  values block = None \/ values block = Some [] ->
  blockToRgb eng block = [0; 0; 0].
Proof.
  intros H. unfold ColorUtils.blockToRgb, valuesOf.
  destruct H as [-> | ->]; reflexivity.
Qed.





End Claims.

(** *** The theorems at concrete entries, and entries at which the
    specification's wording fails *)

Abbreviation sampleBlockToRgb :=
  (ColorUtils.blockToRgb sampleEntry noHex noTransform samplePow).

(** A Gray swatch named after the reference entry, with no channel
    values stored. *)
Definition emptyPantoneGray : Block :=
  mkBlock color (Some (lit "PANTONE 185 C")) (Some (lit "Gray")) (Some []) (Some 1%Z).

(** An RGB swatch named after the reference entry, with values within
    0.01 of 228/255, 0/255 and 43/255. *)
Definition pantoneRgb : Block :=
  mkBlock color (Some (lit "PANTONE 185 C")) (Some (lit "RGB "))
    (Some [89 # 100; 0; 17 # 100]) (Some 1%Z).

Lemma C10_witness : sampleBlockToRgb engineDown emptyPantoneGray = [0; 0; 0].
Proof.
  apply (C10_no_values_is_black sampleEntry noHex noTransform samplePow
           engineDown emptyPantoneGray).
  right. reflexivity.
Defined.










End ColorClaims.

(** ** Hierarchical sort: the tree building *)

Module SortFrames.
Import Sort.

Local Open Scope nat_scope.

(** *** The tree building without a heap

    A node is linked into [parent.children] at the moment it is pushed
    on [stack], and while it is on the stack nothing else is added to its
    parent, so it stays its parent's last child.  The loop can therefore
    be described by the nodes on the stack alone, as frames (block and
    children so far, innermost first, the dummy root apart), each linked
    into its parent when it leaves the stack at its group end or when the
    input ends.  [buildTree_frameTree] below proves that this gives the
    tree that the loop builds in the heap. *)

Definition Frame := (Block * list Tree)%type.

Record BuildState := mkBuildState {
  openFrames : list Frame;
  rootChildren : list Tree
}.

(** [parent.children.push(n)] for the parent at the top of the stack. *)
Definition pushChild (n : Tree) (st : BuildState) : BuildState :=
  match openFrames st with
  | (b, ch) :: rest => mkBuildState ((b, ch ++ [n]) :: rest) (rootChildren st)
  | [] => mkBuildState [] (rootChildren st ++ [n])
  end.

(** The body of [for (const b of blocks)]. *)
Definition buildStep (st : BuildState) (b : Block) : BuildState :=
  match type b with
  | groupStart => mkBuildState ((b, []) :: openFrames st) (rootChildren st)
  | groupEnd =>
      match openFrames st with
      | (b0, ch) :: rest =>
          pushChild (Node b0 ch (Some b)) (mkBuildState rest (rootChildren st))
      | [] => pushChild (leaf b) st
      end
  | color => pushChild (leaf b) st
  end.

(** The groups still open when the input ends keep their children and
    have no [endBlock]; [pending] are the nodes to hang below the
    innermost frame. *)
Fixpoint closeOpen (pending : list Tree) (frames : list Frame) : list Tree :=
  match frames with
  | [] => pending
  | (b, ch) :: rest => closeOpen [Node b (ch ++ pending) None] rest
  end.

Definition initialState : BuildState := mkBuildState [] [].

(** [root.children] after the loop. *)
Definition frameTree (blocks : list Block) : list Tree :=
  let st := fold_left buildStep blocks initialState in
  rootChildren st ++ closeOpen [] (openFrames st).

(** *** Heap facts *)

Lemma nth_error_update_eq (h : Heap) r f o :
  nth_error h r = Some o -> nth_error (update h r f) r = Some (f o).
Proof.
  revert r; induction h as [|x h IH]; intros [|r] H; simpl in *; try discriminate.
  - now inversion H.
  - now apply IH.
Qed.

Lemma nth_error_update_ne (h : Heap) p r f :
  p <> r -> nth_error (update h p f) r = nth_error h r.
Proof.
  revert p r; induction h as [|x h IH]; intros [|p] [|r] H; simpl; try reflexivity.
  - congruence.
  - apply IH. congruence.
Qed.

Lemma length_update (h : Heap) r f : List.length (update h r f) = List.length h.
Proof.
  revert r; induction h as [|x h IH]; intros [|r]; simpl; try reflexivity.
  now rewrite IH.
Qed.

(** *** A reference that represents a finished tree

    [reps h lo hi t r]: the object at [r] and the objects below it spell
    out the tree [t]; all of them have references in [lo, hi), and every
    child has a larger reference than its parent. *)
Fixpoint reps (h : Heap) (lo hi : nat) (t : Tree) (r : Ref) {struct t} : Prop :=
  match t with
  | Node b ch e =>
      lo <= r < hi /\
      exists cs,
        nth_error h r = Some (mkTreeNode b cs e) /\
        (fix all (ts : list Tree) (rs : list Ref) {struct ts} : Prop :=
           match ts, rs with
           | [], [] => True
           | t' :: ts', r' :: rs' => reps h (S r) hi t' r' /\ all ts' rs'
           | _, _ => False
           end) ch cs
  end.

Lemma reps_unfold h lo hi b ch e r :
  reps h lo hi (Node b ch e) r <->
  lo <= r < hi /\
  exists cs,
    nth_error h r = Some (mkTreeNode b cs e) /\
    Forall2 (fun t' r' => reps h (S r) hi t' r') ch cs.
Proof.
  cbn [reps]. split; intros (Hr & cs & Hn & Hall); (split; [exact Hr|]);
    exists cs; (split; [exact Hn|]); clear Hn.
  - revert cs Hall. induction ch as [|t' ts IH]; intros [|r' rs] Hall;
      try contradiction; constructor; [apply Hall | apply IH, Hall].
  - induction Hall as [|t' r' ts rs H _ IH]; [exact I | split; assumption].
Qed.

(** Representation only looks at the objects in its range. *)
Lemma reps_weaken h h' hi hi' t :
  hi <= hi' ->
  forall lo lo' r,
    lo' <= lo ->
    (forall p, lo <= p < hi -> nth_error h' p = nth_error h p) ->
    reps h lo hi t r -> reps h' lo' hi' t r.
Proof.
  intros Hhi. induction t as [b ch e IH] using Tree_ind.
  intros lo lo' r Hlo Hsame H.
  apply reps_unfold in H as (Hr & cs & Hn & Hall). apply reps_unfold.
  split; [lia|]. exists cs. split; [now rewrite Hsame|].
  clear Hn. induction Hall as [|t' r' ts rs Ht _ IHall]; constructor.
  - inversion IH as [|? ? IHt _]; subst.
    apply (IHt (S r) (S r) r'); [lia | | exact Ht].
    intros p Hp. apply Hsame. lia.
  - inversion IH; subst. now apply IHall.
Qed.

Lemma treeOf_reps h hi t :
  forall lo r fuel,
    reps h lo hi t r -> hi <= r + fuel -> treeOf fuel h r = t.
Proof.
  induction t as [b ch e IH] using Tree_ind. intros lo r fuel H Hfuel.
  apply reps_unfold in H as (Hr & cs & Hn & Hall).
  destruct fuel as [|fuel]; [lia|]. cbn [treeOf]. rewrite Hn.
  cbn [block children endBlock]. f_equal.
  clear Hn. induction Hall as [|t' r' ts rs Ht _ IHall]; [reflexivity|].
  inversion IH as [|? ? IHt IHts]; subst. cbn [map]. f_equal.
  - apply (IHt (S r)); [exact Ht|].
    destruct t' as [b' ch' e']. apply reps_unfold in Ht as (Hr' & _). lia.
  - now apply IHall.
Qed.

(** *** The stack and the frames

    [spine h stack frames hi extra]: the objects on the stack are the
    frames, from the top down; the object of a frame has the block of the
    frame and no [endBlock], its children are references that represent
    the children of the frame, followed by [extra] (the reference of the
    next object up the stack, or nothing for the top). *)
Fixpoint spine (h : Heap) (stack : list Ref) (frames : list Frame)
    (hi : nat) (extra : list Ref) : Prop :=
  match stack, frames with
  | [], [] => True
  | r :: below, (b, ch) :: frames' =>
      r < hi /\ (below = [] -> r = root) /\
      (exists cs,
         nth_error h r = Some (mkTreeNode b (cs ++ extra) None) /\
         Forall2 (fun t c => reps h (S r) hi t c) ch cs) /\
      spine h below frames' r [r]
  | _, _ => False
  end.

(** The frames of a state, the root's included. *)
Definition allFrames (fs : BuildState) : list Frame :=
  openFrames fs ++ [(rootBlock, rootChildren fs)].

Definition related (st : LoopState) (fs : BuildState) : Prop :=
  spine (heap st) (stack st) (allFrames fs) (List.length (heap st)) [].

Lemma spine_weaken h h' frames : forall stack hi hi' extra,
  hi <= hi' ->
  (forall p, p < hi -> nth_error h' p = nth_error h p) ->
  spine h stack frames hi extra -> spine h' stack frames hi' extra.
Proof.
  induction frames as [|[b ch] frames IH]; intros [|r below] hi hi' extra Hhi Hsame H;
    cbn [spine] in *; try contradiction; [exact I|].
  destruct H as (Hr & Hroot & (cs & Hn & Hall) & Hbelow).
  split; [lia|]. split; [exact Hroot|]. split.
  - exists cs. split; [rewrite Hsame; [exact Hn | exact Hr]|].
    eapply Forall2_impl; [|exact Hall]. intros t c Ht.
    apply (reps_weaken h h' hi hi' t Hhi (S r) (S r) c); [lia| |exact Ht].
    intros p Hp. apply Hsame. lia.
  - apply (IH below r r [r]); [lia| |exact Hbelow].
    intros p Hp. apply Hsame. lia.
Qed.

Lemma spine_length h frames : forall stack hi extra,
  spine h stack frames hi extra -> List.length stack = List.length frames.
Proof.
  induction frames as [|[b ch] frames IH]; intros [|r below] hi extra H;
    cbn [spine] in H; try contradiction; [reflexivity|].
  destruct H as (_ & _ & _ & H). cbn [List.length]. f_equal. eauto.
Qed.

Lemma spine_heap_nonempty h r below frames hi extra :
  spine h (r :: below) frames hi extra -> r < List.length h.
Proof.
  destruct frames as [|[b ch] frames]; cbn [spine]; [contradiction|].
  intros (_ & _ & (cs & Hn & _) & _).
  apply nth_error_Some. congruence.
Qed.

(** The heap after [parent.children.push(node)] for a fresh [node]. *)
Lemma linked_same h r node o p :
  List.length h = node -> p <> r -> p < node ->
  nth_error (children_push r node (h ++ [o])) p = nth_error h p.
Proof.
  intros Hl Hp Hlt. unfold children_push.
  rewrite nth_error_update_ne by congruence.
  apply nth_error_app1. lia.
Qed.

Lemma linked_parent h r node o b cs e :
  nth_error h r = Some (mkTreeNode b cs e) ->
  nth_error (children_push r node (h ++ [o])) r
    = Some (mkTreeNode b (cs ++ [node]) e).
Proof.
  intros Hn. unfold children_push.
  rewrite (nth_error_update_eq _ _ _ (mkTreeNode b cs e)); [reflexivity|].
  rewrite nth_error_app1; [exact Hn|]. apply nth_error_Some. congruence.
Qed.

Lemma linked_node h r node o :
  List.length h = node -> r < node ->
  nth_error (children_push r node (h ++ [o])) node = Some o.
Proof.
  intros Hl Hr. unfold children_push.
  rewrite nth_error_update_ne by lia.
  rewrite nth_error_app2 by lia. subst node. now rewrite Nat.sub_diag.
Qed.

(** A leaf is pushed onto the children of the top of the stack. *)
Lemma spine_push_leaf h r below b0 ch frames b :
  spine h (r :: below) ((b0, ch) :: frames) (List.length h) [] ->
  spine (children_push r (List.length h) (h ++ [mkTreeNode b [] None]))
    (r :: below) ((b0, ch ++ [leaf b]) :: frames) (S (List.length h)) [].
Proof.
  cbn [spine]. intros (Hr & Hroot & (cs & Hn & Hall) & Hbelow).
  set (node := List.length h) in *.
  set (h' := children_push r node (h ++ [mkTreeNode b [] None])).
  rewrite app_nil_r in Hn.
  split; [lia|]. split; [exact Hroot|]. split.
  - exists (cs ++ [node]). split.
    + rewrite app_nil_r. now apply linked_parent.
    + apply Forall2_app.
      * eapply Forall2_impl; [|exact Hall]. intros t c Ht.
        apply (reps_weaken h h' node (S node) t (Nat.le_succ_diag_r _) (S r) (S r) c);
          [lia| |exact Ht].
        intros p Hp. apply linked_same; [reflexivity|lia|lia].
      * constructor; [|constructor]. unfold leaf. apply reps_unfold.
        split; [lia|]. exists []. split; [|constructor].
        now apply linked_node.
  - apply (spine_weaken h h' frames below r r [r]); [lia| |exact Hbelow].
    intros p Hp. apply linked_same; [reflexivity|lia|lia].
Qed.

(** A group start: the new node is linked and becomes the top. *)
Lemma spine_open_group h r below b0 ch frames b :
  spine h (r :: below) ((b0, ch) :: frames) (List.length h) [] ->
  spine (children_push r (List.length h) (h ++ [mkTreeNode b [] None]))
    (List.length h :: r :: below) ((b, []) :: (b0, ch) :: frames)
    (S (List.length h)) [].
Proof.
  intros H. pose proof H as H0. cbn [spine] in H.
  destruct H as (Hr & Hroot & (cs & Hn & Hall) & Hbelow).
  set (node := List.length h) in *.
  set (h' := children_push r node (h ++ [mkTreeNode b [] None])).
  rewrite app_nil_r in Hn.
  cbn [spine]. split; [lia|]. split; [discriminate|]. split.
  { exists []. split; [|constructor]. now apply linked_node. }
  split; [exact Hr|]. split; [exact Hroot|]. split.
  - exists cs. split; [now apply linked_parent|].
    eapply Forall2_impl; [|exact Hall]. intros t c Ht.
    apply (reps_weaken h h' node node t (Nat.le_refl _) (S r) (S r) c);
      [lia| |exact Ht].
    intros p Hp. apply linked_same; [reflexivity|lia|lia].
  - apply (spine_weaken h h' frames below r r [r]); [lia| |exact Hbelow].
    intros p Hp. apply linked_same; [reflexivity|lia|lia].
Qed.

(** A group end: the top gets its [endBlock], leaves the stack and is
    from then on a finished child of the node below it. *)
Lemma spine_close_group h top parent below b0 ch b1 ch1 frames b :
  spine h (top :: parent :: below) ((b0, ch) :: (b1, ch1) :: frames)
    (List.length h) [] ->
  spine (set_endBlock top b h) (parent :: below)
    ((b1, ch1 ++ [Node b0 ch (Some b)]) :: frames) (List.length h) [].
Proof.
  cbn [spine].
  intros (Ht & _ & (cs & Hn & Hall) & Hp & Hroot & (cs1 & Hn1 & Hall1) & Hbelow).
  set (h' := set_endBlock top b h). rewrite app_nil_r in Hn.
  assert (Hsame : forall p, p <> top -> nth_error h' p = nth_error h p).
  { intros p Hne. unfold h', set_endBlock. apply nth_error_update_ne. congruence. }
  split; [lia|]. split; [exact Hroot|]. split.
  - exists (cs1 ++ [top]). split.
    + rewrite app_nil_r, Hsame by lia. exact Hn1.
    + apply Forall2_app.
      * eapply Forall2_impl; [|exact Hall1]. intros t c Hc.
        apply (reps_weaken h h' top (List.length h) t (Nat.lt_le_incl _ _ Ht)
                 (S parent) (S parent) c); [lia| |exact Hc].
        intros p Hp'. apply Hsame. lia.
      * constructor; [|constructor]. apply reps_unfold. split; [lia|].
        exists cs. split.
        -- unfold h', set_endBlock.
           rewrite (nth_error_update_eq _ _ _ _ Hn). reflexivity.
        -- eapply Forall2_impl; [|exact Hall]. intros t c Hc.
           apply (reps_weaken h h' (List.length h) (List.length h) t
                    (Nat.le_refl _) (S top) (S top) c); [lia| |exact Hc].
           intros p Hp'. apply Hsame. lia.
  - apply (spine_weaken h h' frames below parent parent [parent]);
      [lia| |exact Hbelow].
    intros p Hp'. apply Hsame. lia.
Qed.

Lemma allFrames_pushChild n fs :
  allFrames (pushChild n fs)
    = match allFrames fs with
      | (b, ch) :: rest => (b, ch ++ [n]) :: rest
      | [] => []
      end.
Proof.
  unfold allFrames, pushChild. destruct fs as [[|[b ch] rest] rc]; reflexivity.
Qed.

(** One iteration keeps the heap and the frames related. *)
Lemma related_step st fs b :
  related st fs -> related (loopStep st b) (buildStep fs b).
Proof.
  unfold related. destruct st as [h stk], fs as [open rc].
  cbn [heap stack]. intros H.
  pose proof (spine_length _ _ _ _ _ H) as Hlen.
  unfold loopStep, buildStep. cbn [heap stack openFrames rootChildren].
  destruct stk as [|r below];
    [unfold allFrames in Hlen; rewrite length_app in Hlen; cbn in Hlen; lia|].
  cbn [hd].
  assert (Hleaf :
    spine (children_push r (List.length h) (h ++ [mkTreeNode b [] None]))
      (r :: below) (allFrames (pushChild (leaf b) (mkBuildState open rc)))
      (List.length (children_push r (List.length h) (h ++ [mkTreeNode b [] None])))
      []).
  { rewrite allFrames_pushChild. unfold children_push at 2.
    rewrite length_update, length_app, Nat.add_1_r.
    destruct (allFrames (mkBuildState open rc)) as [|[b0 ch] rest] eqn:E;
      [cbn [spine] in H; contradiction|].
    now apply spine_push_leaf. }
  destruct (type b).
  - (* groupStart *)
    cbn [heap stack]. unfold children_push at 2.
    rewrite length_update, length_app, Nat.add_1_r.
    unfold allFrames in *. cbn [openFrames rootChildren app] in *.
    destruct (open ++ [(rootBlock, rc)]) as [|[b0 ch] rest] eqn:E;
      [cbn [spine] in H; contradiction|].
    now apply spine_open_group.
  - (* groupEnd *)
    destruct below as [|parent below'].
    + (* nothing open: a leaf of the root *)
      destruct open as [|f open']; [exact Hleaf|].
      unfold allFrames in Hlen. cbn [openFrames] in Hlen.
      rewrite length_app in Hlen. cbn in Hlen. lia.
    + destruct open as [|[b0 ch] open'].
      { unfold allFrames in Hlen. cbn in Hlen. lia. }
      cbn [heap stack]. unfold set_endBlock at 2. rewrite length_update.
      rewrite allFrames_pushChild.
      unfold allFrames in *. cbn [openFrames rootChildren app] in *.
      destruct (open' ++ [(rootBlock, rc)]) as [|[b1 ch1] rest] eqn:E.
      { cbn [spine] in H. tauto. }
      now apply spine_close_group.
  - exact Hleaf.
Qed.

Lemma related_fold bs : forall st fs,
  related st fs ->
  related (fold_left loopStep bs st) (fold_left buildStep bs fs).
Proof.
  induction bs as [|b bs IH]; intros st fs H; cbn [fold_left]; [exact H|].
  now apply IH, related_step.
Qed.

Lemma related_initial : related initialLoopState initialState.
Proof.
  unfold related, initialLoopState, initialState, allFrames, root.
  cbn [heap stack openFrames rootChildren app spine List.length].
  split; [lia|]. split; [reflexivity|]. split; [|exact I].
  exists []. split; [reflexivity | constructor].
Qed.

(** *** Reading the tree off the heap *)

Lemma closeOpen_snoc frames : forall pending b ch,
  closeOpen pending (frames ++ [(b, ch)])
    = [Node b (ch ++ closeOpen pending frames) None].
Proof.
  induction frames as [|[b0 ch0] frames IH]; intros pending b ch; cbn [app closeOpen].
  - reflexivity.
  - apply IH.
Qed.

Lemma spine_reps h H frames : forall stack hi extra pending,
  spine h stack frames hi extra ->
  frames <> [] ->
  hi <= H ->
  Forall2 (fun t c => reps h (S (hd root stack)) H t c) pending extra ->
  exists t, closeOpen pending frames = [t] /\ reps h 0 H t root.
Proof.
  induction frames as [|[b ch] frames IH]; intros stack hi extra pending Hs Hne Hhi Hp;
    [congruence|].
  destruct stack as [|r below]; cbn [spine] in Hs; [contradiction|].
  destruct Hs as (Hr & Hroot & (cs & Hn & Hall) & Hbelow). cbn [hd] in Hp.
  assert (Hnode : forall lo, lo <= r -> reps h lo H (Node b (ch ++ pending) None) r).
  { intros lo Hlo. apply reps_unfold. split; [lia|].
    exists (cs ++ extra). split; [exact Hn|]. apply Forall2_app; [|exact Hp].
    eapply Forall2_impl; [|exact Hall]. intros t c Hc.
    apply (reps_weaken h h hi H t Hhi (S r) (S r) c); [lia| |exact Hc].
    reflexivity. }
  cbn [closeOpen].
  destruct frames as [|f frames'].
  - destruct below; [|cbn [spine] in Hbelow; contradiction].
    rewrite (Hroot eq_refl) in *. cbn [closeOpen].
    eexists. split; [reflexivity|]. apply Hnode. lia.
  - destruct below as [|parent below'];
      [destruct f; cbn [spine] in Hbelow; contradiction|].
    apply (IH (parent :: below') r [r] [Node b (ch ++ pending) None] Hbelow);
      [discriminate | lia |].
    constructor; [|constructor]. cbn [hd]. apply Hnode.
    destruct f as [b1 ch1]. cbn [spine] in Hbelow. lia.
Qed.

(** The tree that the loop builds in the heap is the tree of the frames. *)
Theorem buildTree_frameTree (bs : list Block) : buildTree bs = frameTree bs.
Proof.
  unfold buildTree, frameTree.
  pose proof (related_fold bs _ _ related_initial) as Hrel.
  set (st := fold_left loopStep bs initialLoopState) in *.
  set (fs := fold_left buildStep bs initialState) in *.
  unfold related in Hrel.
  destruct (spine_reps (heap st) (List.length (heap st)) (allFrames fs)
              (stack st) (List.length (heap st)) [] [] Hrel)
    as (t & Ht & Hreps).
  - unfold allFrames. destruct (openFrames fs); discriminate.
  - lia.
  - constructor.
  - unfold allFrames in Ht. rewrite closeOpen_snoc in Ht. inversion Ht; subst t.
    rewrite (treeOf_reps _ _ _ 0 root (List.length (heap st)) Hreps) by (unfold root; lia).
    reflexivity.
Qed.

End SortFrames.

(** ** Hierarchical sort: facts *)

Module SortFacts.
Import ColorUtils ColorFacts Sort SortFrames.

Local Open Scope Q_scope.

(** *** Insertion sort *)

Section ArraySortFacts.
Context {A : Type} (comparefn : A -> A -> Q).

Lemma insertSorted_perm x l : Permutation (insertSorted comparefn x l) (x :: l).
Proof.
  induction l as [|y r IH]; cbn [insertSorted]; [reflexivity|].
  destruct (Qltb 0 (comparefn x y)); [|reflexivity].
  rewrite IH. apply perm_swap.
Qed.

Lemma array_sort_perm l : Permutation (array_sort comparefn l) l.
Proof.
  induction l as [|x r IH]; cbn [array_sort]; [reflexivity|].
  rewrite insertSorted_perm. now constructor.
Qed.

(** [a] may stand before [b]. *)
Definition inOrder (a b : A) : Prop := ~ 0 < comparefn a b.

(** Every element stands in order with its successor. *)
Inductive ordered : list A -> Prop :=
| ordered_nil : ordered []
| ordered_one x : ordered [x]
| ordered_cons x y r : inOrder x y -> ordered (y :: r) -> ordered (x :: y :: r).

Lemma ordered_tail x l : ordered (x :: l) -> ordered l.
Proof. inversion 1; subst; [constructor | assumption]. Qed.

Lemma array_sort_ordered_id l : ordered l -> array_sort comparefn l = l.
Proof.
  induction l as [|x r IH]; intros H; [reflexivity|].
  cbn [array_sort]. rewrite (IH (ordered_tail _ _ H)).
  destruct r as [|y r']; [reflexivity|]. cbn [insertSorted].
  inversion H as [| |? ? ? Hxy _]; subst.
  destruct (Qltb 0 (comparefn x y)) eqn:E; [|reflexivity].
  apply Qltb_lt in E. contradiction.
Qed.

Hypothesis comparefn_antisym :
  forall a b, 0 < comparefn a b -> ~ 0 < comparefn b a.

Lemma insertSorted_ordered x l : ordered l -> ordered (insertSorted comparefn x l).
Proof.
  induction l as [|y r IH]; intros H; cbn [insertSorted]; [constructor|].
  destruct (Qltb 0 (comparefn x y)) eqn:E.
  - apply Qltb_lt in E. specialize (IH (ordered_tail _ _ H)).
    destruct r as [|z r']; cbn [insertSorted] in *.
    + constructor; [|constructor]. now apply comparefn_antisym.
    + destruct (Qltb 0 (comparefn x z)).
      * constructor; [|exact IH]. now inversion H.
      * constructor; [|exact IH]. now apply comparefn_antisym.
  - constructor; [|exact H]. intros L. apply Qltb_lt in L. congruence.
Qed.

Lemma array_sort_ordered l : ordered (array_sort comparefn l).
Proof.
  induction l as [|x r IH]; cbn [array_sort]; [constructor|].
  now apply insertSorted_ordered.
Qed.

Lemma array_sort_idempotent l :
  array_sort comparefn (array_sort comparefn l) = array_sort comparefn l.
Proof. apply array_sort_ordered_id, array_sort_ordered. Qed.

End ArraySortFacts.

Lemma array_sort_map {A} (comparefn : A -> A -> Q) (f : A -> A) l :
  (forall a b, comparefn (f a) (f b) = comparefn a b) ->
  array_sort comparefn (map f l) = map f (array_sort comparefn l).
Proof.
  intros Hf. induction l as [|x r IH]; [reflexivity|].
  cbn [map array_sort]. rewrite IH. generalize (array_sort comparefn r) as s.
  induction s as [|y s IHs]; [reflexivity|].
  cbn [map insertSorted]. rewrite Hf.
  destruct (Qltb 0 (comparefn x y)); cbn [map]; [now rewrite IHs | reflexivity].
Qed.

(** *** Flattening the tree gives back the blocks *)

Definition flatForest (nodes : list Tree) : list Block :=
  flat_map flatten nodes.

(** The blocks seen so far, read off the frames (outermost first). *)
Fixpoint flatOpen (frames : list Frame) : list Block :=
  match frames with
  | [] => []
  | (b, ch) :: rest => flatOpen rest ++ b :: flatForest ch
  end.

Definition flatState (st : BuildState) : list Block :=
  flatForest (rootChildren st) ++ flatOpen (openFrames st).

Lemma flatForest_app a b : flatForest (a ++ b) = flatForest a ++ flatForest b.
Proof. apply flat_map_app. Qed.

Lemma flatState_pushChild n st :
  flatState (pushChild n st) = flatState st ++ flatten n.
Proof.
  unfold flatState, pushChild. destruct st as [[|[b ch] rest] rc];
    cbn [openFrames rootChildren flatOpen].
  - rewrite flatForest_app, !app_nil_r. unfold flatForest at 2. simpl flat_map.
    now rewrite app_nil_r.
  - rewrite flatForest_app. unfold flatForest at 3. simpl flat_map.
    rewrite app_nil_r, <- !app_assoc. reflexivity.
Qed.

Lemma flatState_buildStep st b :
  flatState (buildStep st b) = flatState st ++ [b].
Proof.
  unfold buildStep. destruct (type b).
  - unfold flatState. cbn [openFrames rootChildren flatOpen].
    unfold flatForest at 2. simpl. now rewrite app_assoc.
  - destruct st as [[|[b0 ch] rest] rc]; cbn [openFrames rootChildren].
    + now rewrite flatState_pushChild.
    + rewrite flatState_pushChild. unfold flatState.
      cbn [openFrames rootChildren flatOpen flatten]. fold (flatForest ch).
      rewrite <- !app_assoc. reflexivity.
  - now rewrite flatState_pushChild.
Qed.

Lemma flatState_fold bs : forall st,
  flatState (fold_left buildStep bs st) = flatState st ++ bs.
Proof.
  induction bs as [|b bs IH]; intros st; cbn [fold_left].
  - now rewrite app_nil_r.
  - rewrite IH, flatState_buildStep, <- app_assoc. reflexivity.
Qed.

Lemma flatForest_closeOpen frames : forall pending,
  flatForest (closeOpen pending frames) = flatOpen frames ++ flatForest pending.
Proof.
  induction frames as [|[b ch] rest IH]; intros pending; cbn [closeOpen flatOpen].
  - reflexivity.
  - rewrite IH. unfold flatForest at 1. cbn [flat_map flatten].
    fold (flatForest (ch ++ pending)). rewrite flatForest_app, !app_nil_r.
    rewrite <- app_assoc. reflexivity.
Qed.

Lemma flatForest_frameTree bs : flatForest (frameTree bs) = bs.
Proof.
  unfold frameTree. rewrite flatForest_app, flatForest_closeOpen.
  pose proof (flatState_fold bs initialState) as H. unfold flatState in H.
  change (flatForest []) with (@nil Block). rewrite app_nil_r.
  rewrite H. reflexivity.
Qed.

(** *** Well-formed trees *)

(** A node as it occurs below a group that was opened and closed: a
    colour leaf, or a group with its end marker and such nodes below. *)
Fixpoint properInner (n : Tree) : bool :=
  match n with
  | Node b ch e =>
      match type b, e with
      | groupStart, Some eb =>
          BlockType_eqb (type eb) groupEnd && forallb properInner ch
      | color, None => match ch with [] => true | _ :: _ => false end
      | _, _ => false
      end
  end.

Definition orphanEnd (n : Tree) : bool :=
  match n with
  | Node b [] None => BlockType_eqb (type b) groupEnd
  | _ => false
  end.

(** A node as it occurs directly below the root: as above, or an orphan
    group end kept as a leaf. *)
Definition properTop (n : Tree) : bool := properInner n || orphanEnd n.

Definition properFrame (f : Frame) : bool :=
  BlockType_eqb (type (fst f)) groupStart && forallb properInner (snd f).

Definition properState (st : BuildState) : bool :=
  forallb properTop (rootChildren st) && forallb properFrame (openFrames st).

Lemma forallb_snoc {A} (f : A -> bool) l x :
  forallb f (l ++ [x]) = forallb f l && f x.
Proof. rewrite forallb_app. cbn [forallb]. now rewrite andb_true_r. Qed.

Lemma properState_buildStep st b :
  properState st = true -> properState (buildStep st b) = true.
Proof.
  destruct st as [fr rc]. unfold properState, buildStep, pushChild.
  cbn [openFrames rootChildren]. intros H. apply andb_true_iff in H as [Hr Hf].
  destruct (type b) eqn:Eb.
  - cbn [openFrames rootChildren forallb]. rewrite Hr, Hf.
    unfold properFrame. cbn [fst snd forallb]. now rewrite Eb.
  - destruct fr as [|[b0 ch] rest]; cbn [openFrames rootChildren].
    + cbn [forallb]. rewrite forallb_snoc, Hr.
      unfold properTop, leaf, orphanEnd, properInner. rewrite Eb. reflexivity.
    + cbn [forallb] in Hf. apply andb_true_iff in Hf as [Hf0 Hf].
      unfold properFrame in Hf0. cbn [fst snd] in Hf0.
      apply andb_true_iff in Hf0 as [Hb0 Hch].
      assert (Hn : properInner (Node b0 ch (Some b)) = true).
      { cbn [properInner]. destruct (type b0); try discriminate.
        now rewrite Eb, Hch. }
      destruct rest as [|[b1 ch1] rest']; cbn [openFrames rootChildren forallb].
      * rewrite forallb_snoc, Hr. unfold properTop. now rewrite Hn.
      * cbn [forallb] in Hf. apply andb_true_iff in Hf as [Hf1 Hf].
        rewrite Hr, Hf. unfold properFrame in *. cbn [fst snd] in *.
        apply andb_true_iff in Hf1 as [Hb1 Hch1].
        now rewrite Hb1, forallb_snoc, Hch1, Hn.
  - assert (Hn : properInner (leaf b) = true).
    { unfold leaf. cbn [properInner]. now rewrite Eb. }
    destruct fr as [|[b0 ch] rest]; cbn [openFrames rootChildren forallb].
    + rewrite forallb_snoc, Hr. unfold properTop. now rewrite Hn.
    + cbn [forallb] in Hf. apply andb_true_iff in Hf as [Hf0 Hf].
      rewrite Hr, Hf. unfold properFrame in *. cbn [fst snd] in *.
      apply andb_true_iff in Hf0 as [Hb0 Hch].
      now rewrite Hb0, forallb_snoc, Hch, Hn.
Qed.

Lemma properState_fold bs : forall st,
  properState st = true -> properState (fold_left buildStep bs st) = true.
Proof.
  induction bs as [|b bs IH]; intros st H; cbn [fold_left]; [exact H|].
  now apply IH, properState_buildStep.
Qed.

(** *** Inputs in which every group start is closed *)

(** The number of groups still open after [bs], starting with [d] open;
    a group end with no group open closes nothing. *)
Fixpoint openAfter (d : nat) (bs : list Block) : nat :=
  match bs with
  | [] => d
  | b :: r =>
      match type b with
      | groupStart => openAfter (S d) r
      | groupEnd => openAfter (pred d) r
      | color => openAfter d r
      end
  end.

Definition allGroupsClosed (bs : list Block) : Prop := openAfter 0 bs = 0%nat.

Lemma openFrames_buildStep st b :
  List.length (openFrames (buildStep st b))
    = match type b with
      | groupStart => S (List.length (openFrames st))
      | groupEnd => pred (List.length (openFrames st))
      | color => List.length (openFrames st)
      end.
Proof.
  unfold buildStep, pushChild. destruct (type b); [reflexivity| |].
  - destruct st as [[|[b0 ch] [|[b1 ch1] rest]] rc]; reflexivity.
  - destruct st as [[|[b0 ch] rest] rc]; reflexivity.
Qed.

Lemma openFrames_fold bs : forall st,
  List.length (openFrames (fold_left buildStep bs st))
    = openAfter (List.length (openFrames st)) bs.
Proof.
  induction bs as [|b bs IH]; intros st; cbn [fold_left openAfter]; [reflexivity|].
  rewrite IH, openFrames_buildStep. now destruct (type b).
Qed.

Lemma frameTree_proper bs :
  allGroupsClosed bs -> forallb properTop (frameTree bs) = true.
Proof.
  intros Hc. unfold frameTree.
  pose proof (openFrames_fold bs initialState) as Hl.
  cbn [initialState openFrames List.length] in Hl. rewrite Hc in Hl.
  pose proof (properState_fold bs initialState eq_refl) as Hp.
  destruct (fold_left buildStep bs initialState) as [fr rc].
  cbn [openFrames rootChildren] in *.
  destruct fr; [|discriminate Hl]. cbn [closeOpen]. rewrite app_nil_r.
  unfold properState in Hp. cbn [openFrames rootChildren forallb] in Hp.
  now rewrite andb_true_r in Hp.
Qed.

(** *** Parsing a flattened well-formed tree gives back the tree *)

Definition pushChildren (nodes : list Tree) (st : BuildState) : BuildState :=
  fold_left (fun s n => pushChild n s) nodes st.

Lemma pushChildren_frame nodes : forall b ch rest rc,
  pushChildren nodes (mkBuildState ((b, ch) :: rest) rc)
    = mkBuildState ((b, ch ++ nodes) :: rest) rc.
Proof.
  induction nodes as [|n nodes IH]; intros b ch rest rc; cbn [pushChildren fold_left].
  - now rewrite app_nil_r.
  - unfold pushChild at 2. cbn [openFrames rootChildren].
    fold (pushChildren nodes (mkBuildState ((b, ch ++ [n]) :: rest) rc)).
    rewrite IH, <- app_assoc. reflexivity.
Qed.

Lemma pushChildren_root nodes : forall rc,
  pushChildren nodes (mkBuildState [] rc) = mkBuildState [] (rc ++ nodes).
Proof.
  induction nodes as [|n nodes IH]; intros rc; cbn [pushChildren fold_left].
  - now rewrite app_nil_r.
  - unfold pushChild at 2. cbn [openFrames rootChildren].
    fold (pushChildren nodes (mkBuildState [] (rc ++ [n]))).
    rewrite IH, <- app_assoc. reflexivity.
Qed.

Lemma rebuild_inner n :
  properInner n = true ->
  forall st rest,
    fold_left buildStep (flatten n ++ rest) st
      = fold_left buildStep rest (pushChild n st).
Proof.
  induction n as [b ch e IH] using Tree_ind. intros Hp st rest.
  cbn [properInner] in Hp. destruct (type b) eqn:Eb; try discriminate.
  - (* a closed group *)
    destruct e as [eb|]; [|discriminate].
    apply andb_true_iff in Hp as [He Hch].
    assert (Heb : type eb = groupEnd) by (destruct (type eb); easy).
    cbn [flatten]. rewrite <- app_comm_cons. cbn [fold_left].
    unfold buildStep at 2. rewrite Eb.
    assert (Hkids : forall kids done,
      Forall (fun c => properInner c = true ->
                forall st rest, fold_left buildStep (flatten c ++ rest) st
                                = fold_left buildStep rest (pushChild c st)) kids ->
      forallb properInner kids = true ->
      forall rest',
        fold_left buildStep (flat_map flatten kids ++ rest')
          (mkBuildState ((b, done) :: openFrames st) (rootChildren st))
        = fold_left buildStep rest'
            (mkBuildState ((b, done ++ kids) :: openFrames st) (rootChildren st))).
    { induction kids as [|k kids IHk]; intros done HF Hall rest'.
      - cbn [flat_map app]. now rewrite app_nil_r.
      - inversion HF as [|? ? Hk HF']; subst.
        cbn [forallb] in Hall. apply andb_true_iff in Hall as [Hpk Hall].
        cbn [flat_map]. rewrite <- app_assoc, (Hk Hpk).
        unfold pushChild. cbn [openFrames rootChildren].
        rewrite (IHk (done ++ [k]) HF' Hall), <- app_assoc. reflexivity. }
    rewrite <- app_assoc, (Hkids ch [] IH Hch). cbn [app fold_left].
    unfold buildStep at 2. rewrite Heb. cbn [openFrames rootChildren].
    now destruct st.
  - (* a colour leaf *)
    destruct e; [discriminate|]. destruct ch; [|discriminate].
    cbn [flatten flat_map app fold_left]. unfold buildStep at 2. now rewrite Eb.
Qed.

Lemma rebuild_top nodes : forall rc rest,
  forallb properTop nodes = true ->
  fold_left buildStep (flatForest nodes ++ rest) (mkBuildState [] rc)
    = fold_left buildStep rest (mkBuildState [] (rc ++ nodes)).
Proof.
  induction nodes as [|n nodes IH]; intros rc rest Hp.
  - cbn. now rewrite app_nil_r.
  - cbn [forallb] in Hp. apply andb_true_iff in Hp as [Hn Hp].
    unfold flatForest. cbn [flat_map]. rewrite <- app_assoc.
    fold (flatForest nodes).
    assert (E : fold_left buildStep (flatten n ++ flatForest nodes ++ rest)
                  (mkBuildState [] rc)
                = fold_left buildStep (flatForest nodes ++ rest)
                    (mkBuildState [] (rc ++ [n]))).
    { unfold properTop in Hn. apply orb_true_iff in Hn as [Hn|Hn].
      - now rewrite (rebuild_inner n Hn).
      - destruct n as [b [|c ch] [e|]]; try discriminate.
        cbn [orphanEnd] in Hn. cbn [flatten flat_map app fold_left].
        unfold buildStep at 2. destruct (type b); try discriminate.
        reflexivity. }
    rewrite E, IH by exact Hp. now rewrite <- app_assoc.
Qed.

Lemma frameTree_flatForest nodes :
  forallb properTop nodes = true -> frameTree (flatForest nodes) = nodes.
Proof.
  intros Hp. unfold frameTree, initialState.
  rewrite <- (app_nil_r (flatForest nodes)), (rebuild_top nodes [] [] Hp).
  cbn [fold_left openFrames rootChildren closeOpen app]. now rewrite app_nil_r.
Qed.

(** *** Which group a leaf is in *)

(** The leaves of a flat block sequence, each with the group starts that
    enclose it (innermost first).  A group end with no group open is a
    leaf at the top level. *)
Fixpoint leafPaths (ctx : list Block) (bs : list Block) : list (Block * list Block) :=
  match bs with
  | [] => []
  | b :: r =>
      match type b with
      | groupStart => leafPaths (b :: ctx) r
      | groupEnd =>
          match ctx with
          | _ :: outer => leafPaths outer r
          | [] => (b, []) :: leafPaths [] r
          end
      | color => (b, ctx) :: leafPaths ctx r
      end
  end.

(** Every leaf with its nesting depth. *)
Definition leafDepths (bs : list Block) : list (Block * nat) :=
  map (fun p => (fst p, List.length (snd p))) (leafPaths [] bs).

(** The same, read off a tree. *)
Fixpoint nodePaths (ctx : list Block) (n : Tree) : list (Block * list Block) :=
  match n with
  | Node b ch e =>
      match type b with
      | groupStart => flat_map (nodePaths (b :: ctx)) ch
      | _ => [(b, ctx)]
      end
  end.

Lemma leafPaths_inner n :
  properInner n = true ->
  forall ctx rest,
    leafPaths ctx (flatten n ++ rest) = nodePaths ctx n ++ leafPaths ctx rest.
Proof.
  induction n as [b ch e IH] using Tree_ind. intros Hp ctx rest.
  cbn [properInner] in Hp. cbn [flatten nodePaths].
  rewrite <- app_comm_cons. cbn [leafPaths].
  destruct (type b) eqn:Eb; try discriminate.
  - destruct e as [eb|]; [|discriminate].
    apply andb_true_iff in Hp as [He Hch].
    assert (Heb : type eb = groupEnd) by (destruct (type eb); easy).
    rewrite <- app_assoc.
    assert (Hkids : forall rest',
      leafPaths (b :: ctx) (flat_map flatten ch ++ rest')
        = flat_map (nodePaths (b :: ctx)) ch ++ leafPaths (b :: ctx) rest').
    { clear - IH Hch. induction ch as [|k kids IHk]; intros rest'; [reflexivity|].
      inversion IH as [|? ? Hk HF]; subst.
      cbn [forallb] in Hch. apply andb_true_iff in Hch as [Hpk Hall].
      cbn [flat_map]. rewrite <- !app_assoc, (Hk Hpk), (IHk HF Hall). reflexivity. }
    rewrite Hkids. cbn [app leafPaths]. now rewrite Heb.
  - destruct e; [discriminate|]. destruct ch; [|discriminate]. reflexivity.
Qed.

Lemma leafPaths_top nodes : forall rest,
  forallb properTop nodes = true ->
  leafPaths [] (flatForest nodes ++ rest)
    = flat_map (nodePaths []) nodes ++ leafPaths [] rest.
Proof.
  induction nodes as [|n nodes IH]; intros rest Hp; [reflexivity|].
  cbn [forallb] in Hp. apply andb_true_iff in Hp as [Hn Hp].
  unfold flatForest. cbn [flat_map]. rewrite <- !app_assoc. fold (flatForest nodes).
  unfold properTop in Hn. apply orb_true_iff in Hn as [Hn|Hn].
  - now rewrite (leafPaths_inner n Hn), IH.
  - destruct n as [b [|c ch] [e|]]; try discriminate.
    cbn [orphanEnd] in Hn. cbn [flatten flat_map app leafPaths nodePaths].
    destruct (type b); try discriminate. now rewrite IH.
Qed.

Lemma flat_map_map_perm {A B} (f : A -> list B) (g : A -> A) (l : list A) :
  Forall (fun c => Permutation (f (g c)) (f c)) l ->
  Permutation (flat_map f (map g l)) (flat_map f l).
Proof.
  induction 1 as [|c l Hc _ IH]; cbn [map flat_map]; [reflexivity|].
  now apply Permutation_app.
Qed.

(** *** The sort on trees *)

Section WithEnvironment.

Variable localeCompare : jsstring -> jsstring -> Q.
Variable getOfficialEntry : jsstring -> option PantoneEntry.
Variable getOfficialHex : jsstring -> option jsstring.
Variable cmsDoTransform : Z -> list Z -> option (Z * Z * Z).
Variable Math_pow : Q -> Q -> Q.
Variable eng : ColorEngine.
Variable criterion : jsstring.

Abbreviation cmpB :=
  (compareBlocks localeCompare getOfficialEntry getOfficialHex cmsDoTransform
     Math_pow eng criterion).
Abbreviation cmpN :=
  (compareNodes localeCompare getOfficialEntry getOfficialHex cmsDoTransform
     Math_pow eng criterion).
Abbreviation sortN :=
  (sortNode localeCompare getOfficialEntry getOfficialHex cmsDoTransform
     Math_pow eng criterion).
Abbreviation sortT :=
  (sortTree localeCompare getOfficialEntry getOfficialHex cmsDoTransform
     Math_pow eng criterion).
Abbreviation sortB bs :=
  (sortBlocksHierarchically localeCompare getOfficialEntry
     getOfficialHex cmsDoTransform Math_pow eng bs criterion).

Lemma block_of_sortNode n : block_of (sortN n) = block_of n.
Proof. now destruct n. Qed.

Lemma compareNodes_sortNode a b : cmpN (sortN a) (sortN b) = cmpN a b.
Proof. unfold compareNodes. now rewrite !block_of_sortNode. Qed.

Lemma flatten_sortNode n : Permutation (flatten (sortN n)) (flatten n).
Proof.
  induction n as [b ch e IH] using Tree_ind. cbn [sortNode flatten].
  constructor. apply Permutation_app_tail.
  rewrite (Permutation_flat_map flatten (array_sort_perm cmpN (map sortN ch))).
  now apply flat_map_map_perm.
Qed.

Lemma flatForest_sortTree nodes :
  Permutation (flatForest (sortT nodes)) (flatForest nodes).
Proof.
  unfold sortTree, flatForest.
  rewrite (Permutation_flat_map flatten (array_sort_perm cmpN (map sortN nodes))).
  apply flat_map_map_perm. rewrite Forall_forall. intros n _.
  apply flatten_sortNode.
Qed.

Lemma sortBlocks_frames bs : sortB bs = flatForest (sortT (frameTree bs)).
Proof. unfold sortBlocksHierarchically. now rewrite buildTree_frameTree. Qed.

Lemma sortBlocks_perm bs : Permutation (sortB bs) bs.
Proof.
  rewrite sortBlocks_frames, flatForest_sortTree.
  now rewrite flatForest_frameTree.
Qed.

Lemma forallb_sorted_map (f : Tree -> bool) (l : list Tree) :
  Forall (fun c => f c = true -> f (sortN c) = true) l ->
  forallb f l = true ->
  forallb f (array_sort cmpN (map sortN l)) = true.
Proof.
  intros HF Hall. rewrite forallb_forall in *. intros x Hx.
  apply (Permutation_in _ (array_sort_perm cmpN (map sortN l))) in Hx.
  apply in_map_iff in Hx as (c & <- & Hc).
  rewrite Forall_forall in HF. now apply HF, Hall.
Qed.

Lemma properInner_sortNode n :
  properInner n = true -> properInner (sortN n) = true.
Proof.
  induction n as [b ch e IH] using Tree_ind. cbn [sortNode properInner].
  destruct (type b); try discriminate.
  - destruct e as [eb|]; [|discriminate]. intros H.
    apply andb_true_iff in H as [He Hch]. rewrite He. cbn [andb].
    now apply forallb_sorted_map.
  - destruct e; [discriminate|]. destruct ch; [|discriminate]. reflexivity.
Qed.

Lemma properTop_sortNode n :
  properTop n = true -> properTop (sortN n) = true.
Proof.
  unfold properTop. intros H. apply orb_true_iff in H as [H|H].
  - now rewrite properInner_sortNode.
  - destruct n as [b [|c ch] [e|]]; try discriminate.
    cbn [sortNode map array_sort]. cbn [orphanEnd] in *. rewrite H.
    apply orb_true_r.
Qed.

Lemma sortTree_proper nodes :
  forallb properTop nodes = true -> forallb properTop (sortT nodes) = true.
Proof.
  intros H. unfold sortTree. apply forallb_sorted_map; [|exact H].
  rewrite Forall_forall. intros n _. apply properTop_sortNode.
Qed.

Lemma nodePaths_sortNode n :
  forall ctx, Permutation (nodePaths ctx (sortN n)) (nodePaths ctx n).
Proof.
  induction n as [b ch e IH] using Tree_ind. intros ctx.
  cbn [sortNode nodePaths]. destruct (type b); try reflexivity.
  rewrite (Permutation_flat_map (nodePaths (b :: ctx))
             (array_sort_perm cmpN (map sortN ch))).
  apply flat_map_map_perm. eapply Forall_impl; [|exact IH].
  intros c Hc. apply Hc.
Qed.

Lemma leafPaths_sortBlocks bs :
  allGroupsClosed bs ->
  Permutation (leafPaths [] (sortB bs)) (leafPaths [] bs).
Proof.
  intros Hc. pose proof (frameTree_proper bs Hc) as Hp.
  pose proof (sortTree_proper _ Hp) as Hs.
  rewrite sortBlocks_frames.
  rewrite <- (flatForest_frameTree bs) at 2.
  rewrite <- (app_nil_r (flatForest (sortT (frameTree bs)))).
  rewrite <- (app_nil_r (flatForest (frameTree bs))).
  rewrite (leafPaths_top _ [] Hs), (leafPaths_top _ [] Hp).
  apply Permutation_app_tail. unfold sortTree.
  rewrite (Permutation_flat_map (nodePaths [])
             (array_sort_perm cmpN (map sortN (frameTree bs)))).
  apply flat_map_map_perm. rewrite Forall_forall. intros n _.
  apply nodePaths_sortNode.
Qed.

(** *** Sorting twice *)

Hypothesis localeCompare_antisym :
  forall a b, 0 < localeCompare a b -> ~ 0 < localeCompare b a.

Lemma compareBlocks_antisym a b : 0 < cmpB a b -> ~ 0 < cmpB b a.
Proof.
  unfold compareBlocks.
  destruct (isGroup a), (isGroup b); cbn [andb negb].
  - apply localeCompare_antisym.
  - intros H. lra.
  - intros _ H. lra.
  - unfold compareColors.
    destruct (jseqb criterion (lit "name")); [apply localeCompare_antisym|].
    destruct (getHSL _ _ _) as [[hA sA] lA].
    destruct (getHSL _ _ _) as [[hB sB] lB].
    repeat match goal with |- context [if ?c then _ else _] => destruct c end;
      intros H1 H2; lra.
Qed.

Lemma compareNodes_antisym a b : 0 < cmpN a b -> ~ 0 < cmpN b a.
Proof. apply compareBlocks_antisym. Qed.

Lemma sortNode_idempotent n : sortN (sortN n) = sortN n.
Proof.
  induction n as [b ch e IH] using Tree_ind. cbn [sortNode]. f_equal.
  assert (E : map (fun c => sortN (sortN c)) ch = map sortN ch).
  { clear - IH. induction IH as [|c l Hc _ IHl]; cbn [map]; congruence. }
  rewrite <- (array_sort_map cmpN sortN _ compareNodes_sortNode).
  rewrite map_map, E.
  apply array_sort_idempotent, compareNodes_antisym.
Qed.

Lemma sortTree_idempotent nodes : sortT (sortT nodes) = sortT nodes.
Proof.
  unfold sortTree.
  assert (E : map (fun c => sortN (sortN c)) nodes = map sortN nodes).
  { apply map_ext. intros c. apply sortNode_idempotent. }
  rewrite <- (array_sort_map cmpN sortN _ compareNodes_sortNode).
  rewrite map_map, E. apply array_sort_idempotent, compareNodes_antisym.
Qed.

Lemma sortBlocks_idempotent bs :
  allGroupsClosed bs -> sortB (sortB bs) = sortB bs.
Proof.
  intros Hc. pose proof (sortTree_proper _ (frameTree_proper bs Hc)) as Hs.
  rewrite (sortBlocks_frames (sortB bs)), (sortBlocks_frames bs).
  rewrite (frameTree_flatForest _ Hs), sortTree_idempotent. reflexivity.
Qed.

End WithEnvironment.

End SortFacts.

(** ** Hierarchical sort: the properties the specification states *)

Module SortClaims.
Import ColorUtils ColorFacts Sort SortFrames SortFacts.

Local Open Scope Q_scope.

(** *** Sample surroundings *)

(** Comparison by code units, standing in for [localeCompare]. *)
Fixpoint ordinalCompare (a b : jsstring) : Q :=
  match a, b with
  | [], [] => 0
  | [], _ :: _ => -1
  | _ :: _, [] => 1
  | x :: a', y :: b' =>
      if (x <? y)%Z then -1
      else if (y <? x)%Z then 1
      else ordinalCompare a' b'
  end.

Lemma ordinalCompare_antisym a b :
  0 < ordinalCompare a b -> ~ 0 < ordinalCompare b a.
Proof.
  revert b; induction a as [|x a IH]; intros [|y b]; cbn [ordinalCompare];
    try (intros H1 H2; lra).
  destruct (x <? y)%Z, (y <? x)%Z; try (intros H1 H2; lra).
  apply IH.
Qed.

Definition noEntry (nm : jsstring) : option PantoneEntry := None.

Abbreviation sampleSort :=
  (sortBlocksHierarchically ordinalCompare noEntry ColorClaims.noHex
     ColorClaims.noTransform ColorClaims.samplePow ColorClaims.engineDown).

Definition group (nm : string) : Block :=
  mkBlock groupStart (Some (lit nm)) None None None.

Definition groupClose : Block := mkBlock groupEnd None None None None.

Definition swatch (nm : string) (r g b : Q) : Block :=
  mkBlock color (Some (lit nm)) (Some (lit "RGB ")) (Some [r; g; b]) (Some 2%Z).

(** Two nested groups with two colours each, out of order. *)
Definition nestedPalette : list Block :=
  [group "Warm"; swatch "Rust" (7 # 10) (3 # 10) (1 # 10);
   swatch "Amber" 1 (3 # 4) 0;
   group "Cool"; swatch "Teal" 0 (1 # 2) (1 # 2); swatch "Navy" 0 0 (1 # 2);
   groupClose; groupClose].

(** A palette whose two groups are never closed. *)
Definition unclosedPalette : list Block :=
  [group "a"; swatch "x" 1 0 0; group "b"; swatch "y" 0 0 1].

Section Claims.

Variable localeCompare : jsstring -> jsstring -> Q.
Variable getOfficialEntry : jsstring -> option PantoneEntry.
Variable getOfficialHex : jsstring -> option jsstring.
Variable cmsDoTransform : Z -> list Z -> option (Z * Z * Z).
Variable Math_pow : Q -> Q -> Q.
Variable eng : ColorEngine.

Abbreviation sortBlocks :=
  (sortBlocksHierarchically localeCompare getOfficialEntry getOfficialHex
     cmsDoTransform Math_pow eng).

(** C3, as the code has it.  For every block sequence, balanced or not,
    and every criterion, the sort returns a permutation of the input, of
    the same length; a group end met while only the root is on the stack
    is linked as a childless node below the root and the stack stays as
    it is.  When every group start of the input is closed,
    every leaf keeps the groups that enclose it, and so its depth. *)
Theorem C3_sort_keeps_blocks_and_nesting (bs : list Block) (criterion : jsstring) :
  Permutation (sortBlocks bs criterion) bs /\
  List.length (sortBlocks bs criterion) = List.length bs /\
  (forall h b, type b = groupEnd ->
     loopStep (mkLoopState h [root]) b
       = mkLoopState
           (children_push root (List.length h) (h ++ [mkTreeNode b [] None]))
           [root]) /\
  (allGroupsClosed bs ->
     Permutation (leafPaths [] (sortBlocks bs criterion)) (leafPaths [] bs) /\
     Permutation (leafDepths (sortBlocks bs criterion)) (leafDepths bs)).
Proof.
  pose proof (sortBlocks_perm localeCompare getOfficialEntry getOfficialHex
                cmsDoTransform Math_pow eng criterion bs) as Hperm.
  split; [exact Hperm|]. split; [now apply Permutation_length|]. split.
  - intros h b Hb. unfold loopStep. now rewrite Hb.
  - intros Hc.
    pose proof (leafPaths_sortBlocks localeCompare getOfficialEntry getOfficialHex
                  cmsDoTransform Math_pow eng criterion bs Hc) as Hp.
    split; [exact Hp|]. unfold leafDepths. now apply Permutation_map.
Qed.

(** C9, as the code has it.  With a locale comparison that never puts
    two strings each after the other, sorting the output of the sort
    again changes nothing, for every criterion and every block sequence
    in which every group start is closed. *)
Theorem C9_sort_idempotent_on_closed_groups (bs : list Block) (criterion : jsstring) :
  (forall a b, 0 < localeCompare a b -> ~ 0 < localeCompare b a) ->
  allGroupsClosed bs ->
  sortBlocks (sortBlocks bs criterion) criterion = sortBlocks bs criterion.
Proof.
  intros Hlc Hc.
  exact (sortBlocks_idempotent localeCompare getOfficialEntry getOfficialHex
           cmsDoTransform Math_pow eng criterion Hlc bs Hc).
Qed.

End Claims.

(** C3 as worded fails on an input with unclosed groups: in
    [group a; swatch x; group b] the swatch is one group deep; groups
    sort before colours, so the output is [group a; group b; swatch x]
    and the swatch is two groups deep. *)
Lemma C3_counterexample :
  sampleSort [group "a"; swatch "x" 1 0 0; group "b"] (lit "name")
    = [group "a"; group "b"; swatch "x" 1 0 0] /\
  leafDepths [group "a"; swatch "x" 1 0 0; group "b"]
    = [(swatch "x" 1 0 0, 1%nat)] /\
  leafDepths (sampleSort [group "a"; swatch "x" 1 0 0; group "b"] (lit "name"))
    = [(swatch "x" 1 0 0, 2%nat)] /\
  ~ Permutation
      (leafDepths (sampleSort [group "a"; swatch "x" 1 0 0; group "b"] (lit "name")))
      (leafDepths [group "a"; swatch "x" 1 0 0; group "b"]).
Proof.
  repeat split; try reflexivity.
  intros H. apply Permutation_length_1 in H. discriminate H.
Qed.

Lemma C3_witness :
  allGroupsClosed nestedPalette /\
  Permutation (leafDepths (sampleSort nestedPalette (lit "name")))
    (leafDepths nestedPalette).
Proof.
  assert (Hc : allGroupsClosed nestedPalette) by reflexivity.
  split; [exact Hc|].
  destruct (C3_sort_keeps_blocks_and_nesting ordinalCompare noEntry
              ColorClaims.noHex ColorClaims.noTransform ColorClaims.samplePow
              ColorClaims.engineDown nestedPalette (lit "name"))
    as (_ & _ & _ & H).
  exact (proj2 (H Hc)).
Defined.

(** C9 as worded fails on an input with unclosed groups: sorting
    [unclosedPalette] by name moves group b before swatch x, which puts
    x into group b behind y; the second sort then orders x before y. *)
Lemma C9_counterexample :
  sampleSort unclosedPalette (lit "name")
    = [group "a"; group "b"; swatch "y" 0 0 1; swatch "x" 1 0 0] /\
  sampleSort (sampleSort unclosedPalette (lit "name")) (lit "name")
    = [group "a"; group "b"; swatch "x" 1 0 0; swatch "y" 0 0 1] /\
  sampleSort (sampleSort unclosedPalette (lit "name")) (lit "name")
    <> sampleSort unclosedPalette (lit "name").
Proof.
  repeat split; try reflexivity.
  intros H. vm_compute in H. discriminate H.
Qed.

Lemma C9_witness :
  sampleSort (sampleSort nestedPalette (lit "name")) (lit "name")
    = sampleSort nestedPalette (lit "name").
Proof.
  apply (C9_sort_idempotent_on_closed_groups ordinalCompare noEntry
           ColorClaims.noHex ColorClaims.noTransform ColorClaims.samplePow
           ColorClaims.engineDown nestedPalette (lit "name")).
  - exact ordinalCompare_antisym.
  - reflexivity.
Defined.

End SortClaims.

(** ** Codec: further properties of the decoder and the encoder *)

Module CodecMore.
Import Codec CodecFacts.

Section WithFloat32.
Variable f32_bits : Q -> Z.
Variable f32_val : Z -> Q.

(** *** Reads stay inside the buffer *)

Lemma getUint8_Ok view off b :
  getUint8 view off = Ok b ->
  0 <= off /\ (Z.to_nat off < List.length view)%nat.
Proof.
  unfold getUint8. destruct (off <? 0) eqn:E; [discriminate|].
  apply Z.ltb_ge in E.
  destruct (nth_error view (Z.to_nat off)) eqn:N; [|discriminate].
  intros _. split; [exact E|]. apply nth_error_Some. congruence.
Qed.

Lemma getUint8_app view extra off b :
  getUint8 view off = Ok b -> getUint8 (view ++ extra) off = Ok b.
Proof.
  intros H. pose proof (getUint8_Ok _ _ _ H) as [H0 Hl].
  unfold getUint8 in *. destruct (off <? 0); [discriminate|].
  now rewrite nth_error_app1.
Qed.

(** Takes a successful [bind] apart. *)
Lemma bind_Ok {A B} (r : result A) (k : A -> result B) (b : B) :
  bind r k = Ok b -> exists a, r = Ok a /\ k a = Ok b.
Proof. destruct r as [a|e]; [intros H; now exists a | discriminate]. Qed.

Lemma getUint16_app view extra off v :
  getUint16 view off = Ok v -> getUint16 (view ++ extra) off = Ok v.
Proof.
  unfold getUint16. intros H.
  apply bind_Ok in H as (b0 & E0 & H). apply bind_Ok in H as (b1 & E1 & H).
  now rewrite (getUint8_app _ extra _ _ E0), (getUint8_app _ extra _ _ E1).
Qed.

Lemma getUint32_app view extra off v :
  getUint32 view off = Ok v -> getUint32 (view ++ extra) off = Ok v.
Proof.
  unfold getUint32. intros H.
  apply bind_Ok in H as (h & E0 & H). apply bind_Ok in H as (l & E1 & H).
  now rewrite (getUint16_app _ extra _ _ E0), (getUint16_app _ extra _ _ E1).
Qed.

Lemma getChar_app view extra n : forall off s,
  getChar view off n = Ok s -> getChar (view ++ extra) off n = Ok s.
Proof.
  induction n as [|n IH]; intros off s H; cbn [getChar] in *; [exact H|].
  apply bind_Ok in H as (c & E0 & H). apply bind_Ok in H as (r & E1 & H).
  now rewrite (getUint8_app _ extra _ _ E0), (IH _ _ E1).
Qed.

Lemma getUTF16Units_app view extra n : forall off s,
  getUTF16Units view off n = Ok s -> getUTF16Units (view ++ extra) off n = Ok s.
Proof.
  induction n as [|n IH]; intros off s H; cbn [getUTF16Units] in *; [exact H|].
  apply bind_Ok in H as (c & E0 & H). apply bind_Ok in H as (r & E1 & H).
  now rewrite (getUint16_app _ extra _ _ E0), (IH _ _ E1).
Qed.

Lemma getFloats_app view extra n : forall off vs,
  getFloats f32_val view off n = Ok vs ->
  getFloats f32_val (view ++ extra) off n = Ok vs.
Proof.
  induction n as [|n IH]; intros off vs H; cbn [getFloats] in *; [exact H|].
  apply bind_Ok in H as (v & E0 & H). apply bind_Ok in H as (r & E1 & H).
  unfold getFloat32 in *. apply bind_Ok in E0 as (bits & E0 & Ev).
  inversion Ev; subst v.
  rewrite (getUint32_app _ extra _ _ E0). cbn [bind].
  now rewrite (IH _ _ E1).
Qed.

Lemma parseBlock_app view extra off r :
  parseBlock f32_val view off = Ok r ->
  parseBlock f32_val (view ++ extra) off = Ok r.
Proof.
  unfold parseBlock. intros H.
  apply bind_Ok in H as (ty & E0 & H). apply bind_Ok in H as (bl & E1 & H).
  rewrite (getUint16_app _ extra _ _ E0), (getUint32_app _ extra _ _ E1).
  cbn [bind]. unfold getUTF16String in *.
  destruct (ty =? 49153).
  - apply bind_Ok in H as (nl & E2 & H). apply bind_Ok in H as (nm & E3 & H).
    rewrite (getUint16_app _ extra _ _ E2). cbn [bind].
    now rewrite (getUTF16Units_app _ extra _ _ _ E3).
  - destruct (ty =? 49154); [exact H|].
    destruct (ty =? 1); [|exact H].
    apply bind_Ok in H as (nl & E2 & H). apply bind_Ok in H as (nm & E3 & H).
    apply bind_Ok in H as (mdl & E4 & H). apply bind_Ok in H as (vals & E5 & H).
    apply bind_Ok in H as (ct & E6 & H).
    rewrite (getUint16_app _ extra _ _ E2). cbn [bind].
    rewrite (getUTF16Units_app _ extra _ _ _ E3).
    cbn [bind]. rewrite (getChar_app _ extra _ _ _ E4). cbn [bind].
    rewrite (getFloats_app _ extra _ _ _ E5). cbn [bind].
    now rewrite (getUint16_app _ extra _ _ E6).
Qed.

Lemma parseBlocks_app view extra n : forall off acc bs,
  parseBlocks f32_val view n off acc = Ok bs ->
  parseBlocks f32_val (view ++ extra) n off acc = Ok bs.
Proof.
  induction n as [|n IH]; intros off acc bs H; cbn [parseBlocks] in *; [exact H|].
  apply bind_Ok in H as ([ob next] & E & H).
  rewrite (parseBlock_app _ extra _ _ E). cbn [bind].
  destruct ob; now apply IH.
Qed.

(** X2. Bytes after the last block are never looked at: a file that decodes
    still decodes, to the same document, when bytes are appended to it. *)
Theorem parseASE_ignores_trailing_bytes (buffer extra : list Z) (d : AseData) :
  parseASE f32_val buffer = Ok d ->
  parseASE f32_val (buffer ++ extra) = Ok d.
Proof.
  unfold parseASE. intros H.
  apply bind_Ok in H as (sig & E0 & H).
  rewrite (getChar_app _ extra _ _ _ E0). cbn [bind].
  destruct (negb (jseqb sig (lit "ASEF"))); [discriminate|].
  apply bind_Ok in H as (maj & E1 & H). apply bind_Ok in H as (mnr & E2 & H).
  apply bind_Ok in H as (cnt & E3 & H). apply bind_Ok in H as (bs & E4 & H).
  rewrite (getUint16_app _ extra _ _ E1), (getUint16_app _ extra _ _ E2).
  cbn [bind]. rewrite (getUint32_app _ extra _ _ E3). cbn [bind].
  now rewrite (parseBlocks_app _ extra _ _ _ _ E4).
Qed.

(** A file that decodes has at least its 12 header bytes. *)
Theorem parseASE_needs_header (buffer : list Z) (d : AseData) :
  parseASE f32_val buffer = Ok d -> (12 <= List.length buffer)%nat.
Proof.
  unfold parseASE. intros H.
  apply bind_Ok in H as (sig & _ & H).
  destruct (negb (jseqb sig (lit "ASEF"))); [discriminate|].
  apply bind_Ok in H as (maj & _ & H). apply bind_Ok in H as (mnr & _ & H).
  apply bind_Ok in H as (cnt & E3 & _).
  unfold getUint32 in E3. apply bind_Ok in E3 as (h & _ & E3).
  apply bind_Ok in E3 as (l & E3 & _).
  unfold getUint16 in E3. apply bind_Ok in E3 as (b0 & _ & E3).
  apply bind_Ok in E3 as (b1 & E3 & _).
  apply getUint8_Ok in E3 as [_ E3]. change (Z.to_nat (8 + 2 + 1)) with 11%nat in E3.
  lia.
Qed.

(** *** What the decoder hands out *)

(** The blocks [parseASE] builds: a group start has a name and nothing
    else, a group end has nothing, a colour has all four fields, a model
    tag of four code units, as many values as the tag stands for (none
    for an unknown tag) and a name without NUL. *)
Definition decodedShape (b : Block) : Prop :=
  match type b with
  | groupStart => exists nm, b = mkBlock groupStart (Some nm) None None None
  | groupEnd => b = mkBlock groupEnd None None None None
  | color =>
      exists nm m vs ct,
        b = mkBlock color (Some nm) (Some m) (Some vs) (Some ct) /\
        List.length m = 4%nat /\ List.length vs = numChannelsOf m /\
        Forall (fun c => c <> 0) nm
  end.

Lemma getChar_length view n : forall off s,
  getChar view off n = Ok s -> List.length s = n.
Proof.
  induction n as [|n IH]; intros off s H; cbn [getChar] in H.
  - now inversion H.
  - apply bind_Ok in H as (c & _ & H). apply bind_Ok in H as (r & E & H).
    inversion H; subst. cbn [List.length]. f_equal. eauto.
Qed.

Lemma getFloats_length view n : forall off vs,
  getFloats f32_val view off n = Ok vs -> List.length vs = n.
Proof.
  induction n as [|n IH]; intros off vs H; cbn [getFloats] in H.
  - now inversion H.
  - apply bind_Ok in H as (c & _ & H). apply bind_Ok in H as (r & E & H).
    inversion H; subst. cbn [List.length]. f_equal. eauto.
Qed.

Lemma stripNul_no_nul s : Forall (fun c => c <> 0) (stripNul s).
Proof.
  unfold stripNul. apply Forall_forall. intros c Hc.
  apply filter_In in Hc as [_ Hc]. apply negb_true_iff, Z.eqb_neq in Hc. exact Hc.
Qed.

Lemma parseBlock_shape view off b next :
  parseBlock f32_val view off = Ok (Some b, next) -> decodedShape b.
Proof.
  unfold parseBlock. intros H.
  apply bind_Ok in H as (ty & _ & H). apply bind_Ok in H as (bl & _ & H).
  destruct (ty =? 49153).
  { apply bind_Ok in H as (nl & _ & H). apply bind_Ok in H as (nm & _ & H).
    inversion H; subst. now exists nm. }
  destruct (ty =? 49154).
  { inversion H; subst. reflexivity. }
  destruct (ty =? 1); [|discriminate].
  apply bind_Ok in H as (nl & _ & H). apply bind_Ok in H as (nm & _ & H).
  apply bind_Ok in H as (mdl & E4 & H). apply bind_Ok in H as (vals & E5 & H).
  apply bind_Ok in H as (ct & _ & H). inversion H; subst.
  exists (stripNul nm), mdl, vals, ct. split; [reflexivity|].
  split; [exact (getChar_length _ _ _ _ E4)|].
  split; [exact (getFloats_length _ _ _ _ E5) | apply stripNul_no_nul].
Qed.

Lemma parseBlocks_shape view n : forall off acc bs,
  parseBlocks f32_val view n off acc = Ok bs ->
  Forall decodedShape acc ->
  Forall decodedShape bs /\ (List.length bs <= List.length acc + n)%nat.
Proof.
  induction n as [|n IH]; intros off acc bs H Hacc; cbn [parseBlocks] in H.
  - inversion H; subst. split; [exact Hacc | lia].
  - apply bind_Ok in H as ([[b|] next] & E & H).
    + apply IH in H as [Hs Hl].
      * split; [exact Hs|]. rewrite length_app in Hl. cbn in Hl. lia.
      * apply Forall_app. split; [exact Hacc|]. constructor; [|constructor].
        exact (parseBlock_shape _ _ _ _ E).
    + apply IH in H as [Hs Hl]; [|exact Hacc]. split; [exact Hs | lia].
Qed.

(** X3. Whatever the bytes, a document that [parseASE] returns consists of
    well-shaped blocks, and it has at most as many of them as the header
    announces (blocks of unknown type are counted but not kept). *)
Theorem parseASE_shape (buffer : list Z) (d : AseData) :
  parseASE f32_val buffer = Ok d ->
  Forall decodedShape (blocks d) /\
  exists blockCount,
    getUint32 buffer 8 = Ok blockCount /\
    (List.length (blocks d) <= Z.to_nat blockCount)%nat.
Proof.
  unfold parseASE. intros H.
  apply bind_Ok in H as (sig & _ & H).
  destruct (negb (jseqb sig (lit "ASEF"))); [discriminate|].
  apply bind_Ok in H as (maj & _ & H). apply bind_Ok in H as (mnr & _ & H).
  apply bind_Ok in H as (cnt & E3 & H). apply bind_Ok in H as (bs & E4 & H).
  inversion H; subst. cbn [blocks].
  destruct (parseBlocks_shape _ _ _ _ _ E4 (Forall_nil _)) as [Hs Hl].
  split; [exact Hs|]. exists cnt. split; [exact E3 | exact Hl].
Qed.

(** *** Blocks the encoder leaves out *)

(** [createASEBuffer] writes nothing for a group start or a colour whose
    name is missing or empty, nor for a colour without a values array. *)
Definition skippedByEncoder (b : Block) : Prop :=
  match type b with
  | groupStart => str_or (name b) [] = []
  | groupEnd => False
  | color => str_or (name b) [] = [] \/ values b = None
  end.

Lemma encodeBlock_skipped b : skippedByEncoder b -> encodeBlock f32_bits b = [].
Proof.
  unfold skippedByEncoder, encodeBlock. destruct (type b).
  - destruct (name b) as [[|c r]|]; [reflexivity|discriminate|reflexivity].
  - contradiction.
  - intros [H|H].
    + destruct (name b) as [[|c r]|]; [reflexivity|discriminate|reflexivity].
    + rewrite H. destruct (name b) as [[|c r]|]; reflexivity.
Qed.

Lemma getUint8_at_end view off : at_ view off [] -> getUint8 view off = Throw RangeError.
Proof.
  intros [H0 Hs]. unfold getUint8.
  destruct (off <? 0) eqn:E; [reflexivity|].
  assert (Hl : (List.length view <= Z.to_nat off)%nat).
  { pose proof (length_skipn (Z.to_nat off) view) as L. rewrite Hs in L.
    cbn in L. lia. }
  apply nth_error_None in Hl. now rewrite Hl.
Qed.

Lemma parseBlocks_underrun view ws : forall off acc k,
  Forall validBlock ws ->
  at_ view off (flat_map (encodeBlock f32_bits) ws ++ []) ->
  parseBlocks f32_val view (List.length ws + S k) off acc = Throw RangeError.
Proof.
  induction ws as [|b ws IH]; intros off acc k Hv Hat.
  - cbn [List.length Nat.add parseBlocks]. unfold parseBlock, getUint16.
    now rewrite (getUint8_at_end view off Hat).
  - inversion Hv as [|? ? Hb Hws]; subst.
    cbn [flat_map] in Hat. rewrite <- app_assoc in Hat.
    destruct (parseBlock_encodeBlock f32_bits f32_val view off b _ Hb Hat) as [E Hat'].
    cbn [List.length Nat.add parseBlocks]. rewrite E; cbn [bind].
    now apply IH.
Qed.

Lemma written_blocks bs :
  Forall (fun b => validBlock b \/ skippedByEncoder b) bs ->
  exists ws,
    Forall validBlock ws /\
    flat_map (encodeBlock f32_bits) bs = flat_map (encodeBlock f32_bits) ws /\
    (List.length ws <= List.length bs)%nat /\
    (Exists skippedByEncoder bs -> (List.length ws < List.length bs)%nat).
Proof.
  induction 1 as [|b bs Hb _ (ws & Hv & He & Hl & Hx)].
  - exists []. repeat split; auto. intros H; inversion H.
  - destruct Hb as [Hb|Hb].
    + exists (b :: ws). cbn [flat_map List.length]. rewrite He.
      repeat split; [now constructor | lia |].
      intros Hex. inversion Hex as [? ? Hs|? ? Hs]; subst.
      * exfalso. clear - Hb Hs. unfold validBlock, skippedByEncoder in *.
        destruct (type b).
        -- destruct Hb as (nm & En & Hne & _). rewrite En in Hs.
           destruct nm; [congruence|discriminate].
        -- exact Hs.
        -- destruct Hb as (nm & m & vs & En & _ & Ev & Hne & _).
           rewrite En, Ev in Hs. destruct Hs as [Hs|Hs]; [|discriminate].
           destruct nm; [congruence|discriminate].
      * specialize (Hx Hs). lia.
    + exists ws. cbn [flat_map List.length].
      rewrite (encodeBlock_skipped b Hb), He. cbn [app].
      repeat split; [exact Hv | lia | lia].
Qed.

(** X4. A document with a block that the encoder leaves out cannot be read
    back: the header counts every block, so after the blocks that were
    written the decoder reads past the end of the buffer. *)
Theorem skipped_block_breaks_reload (d : AseData) :
  0 <= fst (version d) < 65536 -> 0 <= snd (version d) < 65536 ->
  Z.of_nat (List.length (blocks d)) < 4294967296 ->
  Forall (fun b => validBlock b \/ skippedByEncoder b) (blocks d) ->
  Exists skippedByEncoder (blocks d) ->
  parseASE f32_val (createASEBuffer f32_bits d) = Throw RangeError.
Proof.
  intros Hmaj Hmin Hcount Hbs Hex.
  destruct d as [[maj min] bs]. cbn [version blocks fst snd] in *.
  destruct (written_blocks bs Hbs) as (ws & Hv & He & Hl & Hx).
  specialize (Hx Hex).
  unfold createASEBuffer. cbn [version blocks fst snd]. rewrite He.
  set (body := flat_map (encodeBlock f32_bits) ws).
  assert (H0 : at_ (strToBytes (lit "ASEF") ++ u16 maj ++ u16 min
                      ++ u32 (Z.of_nat (List.length bs)) ++ body) 0
                   (strToBytes (lit "ASEF") ++ u16 maj ++ u16 min
                      ++ u32 (Z.of_nat (List.length bs)) ++ body ++ [])).
  { split; [lia|]. cbn [Z.to_nat skipn]. now rewrite app_nil_r. }
  set (buf := strToBytes (lit "ASEF") ++ u16 maj ++ u16 min
                ++ u32 (Z.of_nat (List.length bs)) ++ body) in *.
  apply at_chars in H0 as [E0 H0]. apply at_u16 in H0 as [E1 H0].
  apply at_u16 in H0 as [E2 H0]. apply at_u32 in H0 as [E3 H0].
  unfold parseASE. change 4%nat with (List.length (lit "ASEF")) at 1.
  rewrite E0; cbn [bind].
  change (negb (jseqb (map (fun c => c mod 256) (lit "ASEF")) (lit "ASEF"))) with false.
  cbn iota. change 4 with (0 + Z.of_nat (List.length (lit "ASEF"))) at 1.
  rewrite E1; cbn [bind].
  change 6 with (0 + Z.of_nat (List.length (lit "ASEF")) + 2) at 1.
  rewrite E2; cbn [bind].
  change 8 with (0 + Z.of_nat (List.length (lit "ASEF")) + 2 + 2) at 1.
  rewrite E3; cbn [bind].
  rewrite (Z.mod_small (Z.of_nat _)) by lia. rewrite Nat2Z.id.
  change 12 with (0 + Z.of_nat (List.length (lit "ASEF")) + 2 + 2 + 4).
  replace (List.length bs)
    with (List.length ws + S (List.length bs - List.length ws - 1))%nat by lia.
  now rewrite (parseBlocks_underrun buf ws _ [] _ Hv H0).
Qed.

(** *** Saving, loading and saving again *)

Lemma u32_mod (v : Z) : u32 (v mod 4294967296) = u32 v.
Proof.
  assert (D : forall k c, k * (c * 256) = 4294967296 -> 0 < k ->
            ((v mod 4294967296) / k) mod 256 = (v / k) mod 256).
  { intros k c Hk Hk0.
    rewrite (Z.div_mod v 4294967296) at 2 by lia.
    set (q := v / 4294967296). set (r := v mod 4294967296).
    rewrite <- Hk.
    replace (k * (c * 256) * q + r) with (r + (q * c * 256) * k) by ring.
    rewrite Z.div_add by lia. now rewrite Z.mod_add by lia. }
  unfold u32.
  rewrite (D 16777216 1), (D 65536 256), (D 256 65536) by lia.
  do 3 apply f_equal. apply (f_equal (fun x => [x])).
  apply Z.mod_mod_divide. now exists 16777216.
Qed.

Lemma colorType_or_2_twice ct :
  colorType_or_2 (Some (colorType_or_2 ct)) = colorType_or_2 ct.
Proof.
  destruct ct as [c|]; [|reflexivity]. cbn [colorType_or_2].
  destruct (c =? 0) eqn:E; [reflexivity|]. now rewrite E.
Qed.

Lemma encodeBlock_reread (b : Block) :
  (forall v, f32_bits (fround f32_bits f32_val v) mod 4294967296
             = f32_bits v mod 4294967296) ->
  encodeBlock f32_bits (reread f32_bits f32_val b) = encodeBlock f32_bits b.
Proof.
  intros Hf. unfold reread, encodeBlock.
  destruct (type b); cbn [type name model values colorType]; try reflexivity.
  destruct (name b) as [[|c r]|]; try reflexivity.
  destruct (values b) as [vs|]; [|reflexivity]. cbn [option_map].
  rewrite length_map, colorType_or_2_twice.
  replace (flat_map (setFloat32 f32_bits) (map (fround f32_bits f32_val) vs))
    with (flat_map (setFloat32 f32_bits) vs); [reflexivity|].
  induction vs as [|v vs IH]; [reflexivity|].
  cbn [map flat_map]. rewrite IH. apply (f_equal (fun x => x ++ _)).
  unfold setFloat32. now rewrite <- (u32_mod (f32_bits (fround _ _ v))), Hf, u32_mod.
Qed.

Lemma validBlock_reread (b : Block) :
  validBlock b -> validBlock (reread f32_bits f32_val b).
Proof.
  unfold validBlock, reread.
  destruct (type b); cbn [type name model values colorType]; auto.
  intros (nm & m & vs & Hn & Hm & Hv & H1 & H2 & H3 & H4 & H5 & H6).
  exists nm, m, (map (fround f32_bits f32_val) vs). rewrite Hv, length_map.
  pose proof (colorType_or_2_range _ H6) as Hc.
  cbn [option_map colorTypeOk]. tauto.
Qed.

(** X1. Saving a valid document and loading the file gives the document with
    every channel value rounded to float32 and every missing or zero
    colour type replaced by 2.  The loaded document is valid again, and
    as float32 rounding does not change a number that is already a
    float32, saving it gives the same file. *)
Theorem save_load_save (d : AseData) :
  validDocument d ->
  (forall v, f32_bits (fround f32_bits f32_val v) mod 4294967296
             = f32_bits v mod 4294967296) ->
  let d' := mkAseData (version d) (map (reread f32_bits f32_val) (blocks d)) in
  parseASE f32_val (createASEBuffer f32_bits d) = Ok d' /\
  validDocument d' /\
  createASEBuffer f32_bits d' = createASEBuffer f32_bits d.
Proof.
  intros Hd Hf d'. split; [now apply parseASE_createASEBuffer|].
  destruct Hd as (Hmaj & Hmin & Hcount & Hbs). split.
  - unfold validDocument, d'. cbn [version blocks]. rewrite length_map.
    split; [assumption|]. split; [assumption|]. split; [assumption|].
    rewrite Forall_forall in *. intros x Hx. apply in_map_iff in Hx as (b & <- & Hb).
    apply validBlock_reread. now apply Hbs.
  - unfold createASEBuffer, d'. cbn [version blocks]. rewrite length_map.
    do 4 apply (f_equal (fun x => _ ++ x)).
    clear Hcount Hbs. induction (blocks d) as [|b bs IH]; [reflexivity|].
    cbn [map flat_map]. now rewrite IH, encodeBlock_reread.
Qed.

End WithFloat32.

(** A palette with a valid swatch followed by a group whose name is
    empty. *)
Definition paletteWithUnnamedGroup : AseData :=
  mkAseData (1, 0) [globalSwatch; mkBlock groupStart (Some []) None None None].

(** The sample float32 stand-in rounds once. *)
Lemma sample_f32_rounds_once (v : Q) :
  sample_f32_bits (fround sample_f32_bits sample_f32_val v) mod 4294967296
    = sample_f32_bits v mod 4294967296.
Proof.
  unfold fround, sample_f32_bits, sample_f32_val.
  rewrite !Z.mod_mod by lia.
  set (n := Qfloor (v * 65536) mod 4294967296).
  assert (E : inject_Z n / 65536 * 65536 == inject_Z n) by (field; discriminate).
  rewrite E, Qfloor_Z. unfold n. now rewrite Z.mod_mod by lia.
Qed.

Lemma save_load_save_witness :
  let d' := mkAseData (version globalDoc)
              (map (reread sample_f32_bits sample_f32_val) (blocks globalDoc)) in
  parseASE sample_f32_val (createASEBuffer sample_f32_bits globalDoc) = Ok d' /\
  validDocument d' /\
  createASEBuffer sample_f32_bits d' = createASEBuffer sample_f32_bits globalDoc.
Proof.
  apply (save_load_save sample_f32_bits sample_f32_val globalDoc).
  - exact globalDoc_valid.
  - exact sample_f32_rounds_once.
Defined.

(** What [fileWithUnknownBlock] decodes to. *)
Definition loneGroupEnd : AseData :=
  mkAseData (1, 0) [mkBlock groupEnd None None None None].

Lemma parseASE_ignores_trailing_bytes_witness :
  parseASE sample_f32_val (fileWithUnknownBlock ++ [1; 2; 3]) = Ok loneGroupEnd.
Proof.
  apply (parseASE_ignores_trailing_bytes sample_f32_val fileWithUnknownBlock [1; 2; 3]).
  reflexivity.
Defined.

Lemma parseASE_needs_header_witness : (12 <= List.length fileWithUnknownBlock)%nat.
Proof.
  apply (parseASE_needs_header sample_f32_val fileWithUnknownBlock loneGroupEnd).
  reflexivity.
Defined.

Lemma parseASE_shape_witness :
  Forall decodedShape (blocks loneGroupEnd) /\
  exists blockCount,
    getUint32 fileWithUnknownBlock 8 = Ok blockCount /\
    (List.length (blocks loneGroupEnd) <= Z.to_nat blockCount)%nat.
Proof.
  apply (parseASE_shape sample_f32_val fileWithUnknownBlock loneGroupEnd).
  reflexivity.
Defined.

Lemma skipped_block_breaks_reload_witness :
  parseASE sample_f32_val (createASEBuffer sample_f32_bits paletteWithUnnamedGroup)
    = Throw RangeError.
Proof.
  apply (skipped_block_breaks_reload sample_f32_bits sample_f32_val
           paletteWithUnnamedGroup).
  - cbn. lia.
  - cbn. lia.
  - cbn. lia.
  - constructor; [|constructor; [|constructor]].
    + left. unfold validBlock, globalSwatch; cbn [type name model values colorType].
      exists (lit "Sky"), (lit "RGB "), [0%Q; (1 # 2)%Q; 1%Q].
      repeat split; try reflexivity; try discriminate; try (cbn; lia).
      * repeat constructor.
      * right; left; reflexivity.
    + right. reflexivity.
  - right. left. reflexivity.
Defined.

End CodecMore.

(** ** Colour pipeline: further properties *)

Module ColorMore.
Import ColorUtils ColorFacts.

Local Open Scope Q_scope.

(** *** Bytes, by enumeration *)

Definition byteRange : list Z := map Z.of_nat (seq 0 256).

Lemma In_byteRange n : (0 <= n <= 255)%Z -> In n byteRange.
Proof.
  intros H. unfold byteRange. apply in_map_iff. exists (Z.to_nat n).
  split; [lia|]. apply in_seq. lia.
Qed.

Lemma forall_bytes (P : Z -> bool) :
  forallb P byteRange = true -> forall n, (0 <= n <= 255)%Z -> P n = true.
Proof.
  intros H n Hn. rewrite forallb_forall in H. apply H, In_byteRange, Hn.
Qed.

Definition optZ_eqb (a : option Z) (b : Z) : bool :=
  match a with Some x => (x =? b)%Z | None => false end.

Lemma optZ_eqb_eq a b : optZ_eqb a b = true -> a = Some b.
Proof.
  destruct a as [x|]; cbn; [|discriminate]. intros H. apply Z.eqb_eq in H. now subst.
Qed.

(** The decimal text of a byte is a non-empty run of digits that
    [parseInt] reads back. *)
Definition decimalOk (n : Z) : bool :=
  forallb isDigit (intToString 10 n)
  && match intToString 10 n with [] => false | _ :: _ => true end
  && optZ_eqb (parseInt (intToString 10 n)) n.

Lemma decimalOk_all : forallb decimalOk byteRange = true.
Proof. vm_compute. reflexivity. Qed.

(** The two hex digits of a byte, upper case. *)
Definition hexByte (n : Z) : jsstring :=
  toUpperCase [digitChar (n / 16); digitChar (n mod 16)].




(** *** The pattern on the text of [getCSSColor] *)

Lemma spanDigits_app d c rest :
  forallb isDigit d = true -> isDigit c = false ->
  spanDigits (d ++ c :: rest) = (d, c :: rest).
Proof.
  intros Hd Hc. induction d as [|x d IH]; cbn [app spanDigits].
  - now rewrite Hc.
  - cbn [forallb] in Hd. apply andb_true_iff in Hd as [Hx Hd].
    now rewrite Hx, (IH Hd).
Qed.

Lemma isDigit_not_space c : isDigit c = true -> isWhiteSpace c = false.
Proof.
  unfold isDigit, isWhiteSpace. intros H.
  apply andb_true_iff in H as [H1 H2]. apply Z.leb_le in H1, H2.
  repeat match goal with
  | |- context [(?a <=? ?b)%Z] => destruct (Z.leb_spec a b); try lia
  | |- context [(?a =? ?b)%Z] => destruct (Z.eqb_spec a b); try lia
  end; reflexivity.
Qed.

Lemma trimStart_space_digits d rest :
  forallb isDigit d = true -> d <> [] ->
  trimStart (32%Z :: d ++ rest) = d ++ rest.
Proof.
  intros Hd Hne. destruct d as [|c d]; [congruence|].
  cbn [forallb] in Hd. apply andb_true_iff in Hd as [Hc _].
  cbn [trimStart app]. change (isWhiteSpace 32) with true. cbn iota.
  now rewrite (isDigit_not_space c Hc).
Qed.

Lemma matchRgb_css d1 d2 d3 :
  forallb isDigit d1 = true -> d1 <> [] ->
  forallb isDigit d2 = true -> d2 <> [] ->
  forallb isDigit d3 = true -> d3 <> [] ->
  matchRgb (lit "rgb(" ++ d1 ++ lit ", " ++ d2 ++ lit ", " ++ d3 ++ lit ")")
    = Some (d1, d2, d3).
Proof.
  intros H1 N1 H2 N2 H3 N3.
  assert (E : matchRgbHere
                (lit "rgb(" ++ d1 ++ lit ", " ++ d2 ++ lit ", " ++ d3 ++ lit ")")
              = Some (d1, d2, d3)).
  { unfold matchRgbHere.
    change (dropPrefix (lit "rgb(")
              (lit "rgb(" ++ d1 ++ lit ", " ++ d2 ++ lit ", " ++ d3 ++ lit ")"))
      with (Some (d1 ++ 44%Z :: 32%Z :: d2 ++ 44%Z :: 32%Z :: d3 ++ [41%Z])).
    cbv beta iota.
    rewrite (spanDigits_app d1 44 _ H1 eq_refl).
    destruct d1 as [|c1 d1']; [congruence|]. cbv beta iota.
    rewrite (trimStart_space_digits d2 _ H2 N2).
    rewrite (spanDigits_app d2 44 _ H2 eq_refl).
    destruct d2 as [|c2 d2']; [congruence|]. cbv beta iota.
    rewrite (trimStart_space_digits d3 _ H3 N3).
    rewrite (spanDigits_app d3 41 _ H3 eq_refl).
    destruct d3 as [|c3 d3']; [congruence|]. reflexivity. }
  destruct (lit "rgb(" ++ d1 ++ lit ", " ++ d2 ++ lit ", " ++ d3 ++ lit ")");
    cbn [matchRgb]; now rewrite E.
Qed.

(** *** The hex text of three bytes *)

Lemma digitsRev_step f q a :
  (1 <= q)%Z -> (0 <= a < 16)%Z ->
  digitsRev 16 (S f) (16 * q + a) = digitChar a :: digitsRev 16 f q.
Proof.
  intros Hq Ha. cbn [digitsRev].
  destruct (Z.ltb_spec (16 * q + a) 16) as [L|L]; [lia|].
  replace ((16 * q + a) mod 16)%Z with a
    by (apply (Z.mod_unique _ _ q); lia).
  replace ((16 * q + a) / 16)%Z with q
    by (apply (Z.div_unique _ _ q a); lia).
  reflexivity.
Qed.

Lemma intToString16_color R G B :
  (0 <= R <= 255)%Z -> (0 <= G <= 255)%Z -> (0 <= B <= 255)%Z ->
  intToString 16 (16777216 + R * 65536 + G * 256 + B)
    = 49%Z :: [digitChar (R / 16); digitChar (R mod 16);
               digitChar (G / 16); digitChar (G mod 16);
               digitChar (B / 16); digitChar (B mod 16)].
Proof.
  intros HR HG HB.
  set (N := (16777216 + R * 65536 + G * 256 + B)%Z).
  assert (HN : (16777216 <= N < 33554432)%Z) by (unfold N; lia).
  unfold intToString. destruct (Z.ltb_spec N 0) as [L|_]; [lia|].
  assert (Hlog : Z.log2 N = 24%Z).
  { apply Z.log2_unique; [lia|]. change (2 ^ 24)%Z with 16777216%Z.
    change (2 ^ (24 + 1))%Z with 33554432%Z. exact HN. }
  rewrite Hlog. change (Z.to_nat 24) with 24%nat.
  pose proof (Z.div_mod R 16 ltac:(lia)) as ER.
  pose proof (Z.div_mod G 16 ltac:(lia)) as EG.
  pose proof (Z.div_mod B 16 ltac:(lia)) as EB.
  pose proof (Z.mod_pos_bound R 16 ltac:(lia)) as MR.
  pose proof (Z.mod_pos_bound G 16 ltac:(lia)) as MG.
  pose proof (Z.mod_pos_bound B 16 ltac:(lia)) as MB.
  assert (DR : (0 <= R / 16 < 16)%Z)
    by (split; [apply Z.div_pos; lia | apply Z.div_lt_upper_bound; lia]).
  assert (DG : (0 <= G / 16 < 16)%Z)
    by (split; [apply Z.div_pos; lia | apply Z.div_lt_upper_bound; lia]).
  assert (DB : (0 <= B / 16 < 16)%Z)
    by (split; [apply Z.div_pos; lia | apply Z.div_lt_upper_bound; lia]).
  set (r1 := (R / 16)%Z) in *. set (r0 := (R mod 16)%Z) in *.
  set (g1 := (G / 16)%Z) in *. set (g0 := (G mod 16)%Z) in *.
  set (b1 := (B / 16)%Z) in *. set (b0 := (B mod 16)%Z) in *.
  replace N with
    (16 * (16 * (16 * (16 * (16 * (16 * 1 + r1) + r0) + g1) + g0) + b1) + b0)%Z
    by (unfold N; lia).
  rewrite !digitsRev_step by lia.
  reflexivity.
Qed.

Lemma shl_byte n k :
  (0 <= n <= 255)%Z -> (0 <= k <= 16)%Z ->
  shl (Some n) k = (n * 2 ^ k)%Z.
Proof.
  intros Hn Hk. unfold shl, toInt32.
  replace ((n + 2147483648) mod 4294967296 - 2147483648)%Z with n
    by (rewrite Z.mod_small; lia).
  rewrite Z.shiftl_mul_pow2 by lia.
  assert (0 < 2 ^ k <= 2 ^ 16)%Z.
  { split; [apply Z.pow_pos_nonneg; lia | apply Z.pow_le_mono_r; lia]. }
  change (2 ^ 16)%Z with 65536%Z in *.
  rewrite Z.mod_small; nia.
Qed.

(** The six digits of a hex colour, pair by pair: the byte [hexToRgb]
    reads, what [getCSSColor] makes of that byte over 255, and its hex
    text. *)
Definition hexPairOk (a b : Z) : bool :=
  match parseInt16 [a; b] with
  | Some n =>
      (0 <=? n)%Z && (n <=? 255)%Z
      && (Math_round
            (Math_min 1 (Math_max 0 (num_or_0 (Some (channelOfHex a b)))) * 255)
          =? n)%Z
      && jseqb (hexByte n) (toUpperCase [a; b])
  | None => false
  end.

Lemma hexPairOk_all :
  forallb (fun a => forallb (hexPairOk a) hexDigits) hexDigits = true.
Proof. vm_compute. reflexivity. Qed.

Lemma hexPairOk_digits a b :
  isHexDigit a = true -> isHexDigit b = true -> hexPairOk a b = true.
Proof.
  intros Ha Hb. apply isHexDigit_In in Ha, Hb.
  pose proof hexPairOk_all as H. rewrite forallb_forall in H.
  specialize (H a Ha). rewrite forallb_forall in H. exact (H b Hb).
Qed.

Section WithEnvironment.

Variable getOfficialEntry : jsstring -> option PantoneEntry.
Variable getOfficialHex : jsstring -> option jsstring.
Variable cmsDoTransform : Z -> list Z -> option (Z * Z * Z).
Variable Math_pow : Q -> Q -> Q.

Abbreviation blockToRgb :=
  (ColorUtils.blockToRgb getOfficialEntry getOfficialHex cmsDoTransform Math_pow).
Abbreviation authorityColor :=
  (ColorUtils.authorityColor getOfficialEntry getOfficialHex).
Abbreviation isAuthoritative :=
  (ColorUtils.isAuthoritative getOfficialEntry getOfficialHex).
Abbreviation cssBytes :=
  (ColorUtils.cssBytes getOfficialEntry getOfficialHex cmsDoTransform Math_pow).
Abbreviation getHexFromBlock :=
  (ColorUtils.getHexFromBlock getOfficialEntry getOfficialHex cmsDoTransform Math_pow).

Lemma hexToRgb_length hex : List.length (hexToRgb hex) = 3%nat.
Proof. apply hexToRgb_in01. Qed.

Lemma blockToRgb_length (eng : ColorEngine) (block : Block) :
  List.length (blockToRgb eng block) = 3%nat.
Proof.
  unfold ColorUtils.blockToRgb.
  destruct (valuesOf block) as [|v0 vs]; [reflexivity|].
  destruct (authorityColor block) as [rgb|] eqn:Ea.
  { unfold ColorUtils.authorityColor in Ea.
    destruct (name block) as [[|ch r]|]; try discriminate.
    destruct (getOfficialEntry (ch :: r)) as [e|].
    - destruct (isStandardPantone block e); [|discriminate].
      inversion Ea. apply hexToRgb_length.
    - destruct (getOfficialHex (ch :: r)) as [[|h hr]|]; try discriminate.
      inversion Ea. apply hexToRgb_length. }
  destruct (jseqb (modelOf block) (lit "CMYK")).
  { rewrite length_map. unfold cmykToProfileRGB.
    destruct (negb (isReady eng)); [reflexivity|].
    destruct (handle_of eng); [|reflexivity].
    destruct (cmsDoTransform _ _) as [[[r g] b]|]; reflexivity. }
  destruct (jseqb (modelOf block) (lit "LAB")); [reflexivity|].
  destruct (jseqb (modelOf block) (lit "RGB")); [reflexivity|].
  destruct (jseqb (modelOf block) (lit "Gray")); reflexivity.
Qed.

(** X5. Every caller indexes the result of [blockToRgb] at 0, 1 and 2: it
    has exactly three components, whatever the block, the tables and the
    engine. *)
Theorem blockToRgb_three_components (eng : ColorEngine) (block : Block) :
  List.length (blockToRgb eng block) = 3%nat.
Proof. apply blockToRgb_length. Qed.

Lemma css_channel_byte (x : Q) :
  (0 <= Math_round (Math_min 1 (Math_max 0 x) * 255) <= 255)%Z.
Proof.
  pose proof (clamp01_in01 x) as [H0 H1]. unfold clamp01 in *.
  apply Math_round_range. change (inject_Z 255) with 255. split; nra.
Qed.

Lemma cssBytes_range eng block R G B :
  cssBytes eng block = (R, G, B) ->
  (0 <= R <= 255)%Z /\ (0 <= G <= 255)%Z /\ (0 <= B <= 255)%Z.
Proof.
  unfold ColorUtils.cssBytes. intros H. inversion H; subst.
  repeat split; apply css_channel_byte.
Qed.

Lemma decimal_facts n :
  (0 <= n <= 255)%Z ->
  forallb isDigit (intToString 10 n) = true /\ intToString 10 n <> [] /\
  parseInt (intToString 10 n) = Some n.
Proof.
  intros Hn. pose proof (forall_bytes decimalOk decimalOk_all n Hn) as H.
  unfold decimalOk in H. apply andb_true_iff in H as [H H3].
  apply andb_true_iff in H as [H1 H2].
  split; [exact H1|]. split; [|now apply optZ_eqb_eq].
  destruct (intToString 10 n); [discriminate | discriminate].
Qed.

Lemma getHexFromBlock_bytes eng block R G B :
  cssBytes eng block = (R, G, B) ->
  getHexFromBlock eng block = 35%Z :: hexByte R ++ hexByte G ++ hexByte B.
Proof.
  intros Hc. pose proof (cssBytes_range _ _ _ _ _ Hc) as (HR & HG & HB).
  unfold ColorUtils.getHexFromBlock, getCSSColor. rewrite Hc.
  destruct (decimal_facts R HR) as (D1 & N1 & P1).
  destruct (decimal_facts G HG) as (D2 & N2 & P2).
  destruct (decimal_facts B HB) as (D3 & N3 & P3).
  rewrite (matchRgb_css _ _ _ D1 N1 D2 N2 D3 N3), P1, P2, P3.
  change (shl (Some 1%Z) 24) with 16777216%Z.
  rewrite (shl_byte R 16), (shl_byte G 8) by lia.
  change (2 ^ 16)%Z with 65536%Z. change (2 ^ 8)%Z with 256%Z.
  rewrite (intToString16_color R G B HR HG HB). reflexivity.
Qed.



(** X8. Typing a hex colour into an RGB swatch and reading the swatch's hex
    back gives the typed digits, in upper case: [hexToRgb] followed by
    [getHexFromBlock] loses nothing. *)
Theorem getHexFromBlock_hexToRgb (eng : ColorEngine) (block : Block)
    (a b c d e f : Z) :
  forallb isHexDigit [a; b; c; d; e; f] = true ->
  modelOf block = lit "RGB" ->
  values block = Some (hexToRgb (35%Z :: [a; b; c; d; e; f])) ->
  authorityColor block = None ->
  getHexFromBlock eng block = 35%Z :: toUpperCase [a; b; c; d; e; f].
Proof.
  intros Hd Hm Hv Ha.
  assert (Hh : hexToRgb (35%Z :: [a; b; c; d; e; f])
               = [channelOfHex a b; channelOfHex c d; channelOfHex e f]).
  { unfold hexToRgb. now rewrite Hd. }
  rewrite Hh in Hv.
  cbn [forallb] in Hd. repeat rewrite andb_true_iff in Hd.
  destruct Hd as (Da & Db & Dc & Dd & De & Df & _).
  pose proof (hexPairOk_digits a b Da Db) as P1.
  pose proof (hexPairOk_digits c d Dc Dd) as P2.
  pose proof (hexPairOk_digits e f De Df) as P3.
  unfold hexPairOk in *.
  destruct (parseInt16 [a; b]) as [n1|]; [|discriminate].
  destruct (parseInt16 [c; d]) as [n2|]; [|discriminate].
  destruct (parseInt16 [e; f]) as [n3|]; [|discriminate].
  repeat rewrite andb_true_iff in P1, P2, P3.
  destruct P1 as (((_ & _) & R1) & J1). destruct P2 as (((_ & _) & R2) & J2).
  destruct P3 as (((_ & _) & R3) & J3).
  apply Z.eqb_eq in R1, R2, R3. apply jseqb_eq in J1, J2, J3.
  assert (Hc : cssBytes eng block = (n1, n2, n3)).
  { unfold ColorUtils.cssBytes, ColorUtils.blockToRgb, valuesOf.
    rewrite Hv, Ha, Hm.
    change (jseqb (lit "RGB") (lit "CMYK")) with false.
    change (jseqb (lit "RGB") (lit "LAB")) with false.
    change (jseqb (lit "RGB") (lit "RGB")) with true.
    cbn [nth nth_error]. now rewrite R1, R2, R3. }
  rewrite (getHexFromBlock_bytes _ _ _ _ _ Hc), J1, J2, J3. reflexivity.
Qed.

(** X9. For a block with channel values the "verified" badge and the colour
    go together: [isAuthoritative] holds exactly when [blockToRgb]
    returns the colour of the authority check instead of converting the
    values. *)
Theorem isAuthoritative_iff_authority_path (eng : ColorEngine) (block : Block) :
  valuesOf block <> [] ->
  (isAuthoritative block = true <->
   exists rgb, authorityColor block = Some rgb /\ blockToRgb eng block = rgb).
Proof.
  intros Hv.
  assert (E : isAuthoritative block
              = match authorityColor block with Some _ => true | None => false end).
  { unfold ColorUtils.isAuthoritative, ColorUtils.authorityColor.
    destruct (name block) as [[|ch r]|]; try reflexivity.
    destruct (getOfficialEntry (ch :: r)) as [en|].
    - now destruct (isStandardPantone block en).
    - now destruct (getOfficialHex (ch :: r)) as [[|h hr]|]. }
  rewrite E. unfold ColorUtils.blockToRgb.
  destruct (valuesOf block) as [|v0 vs]; [congruence|].
  destruct (authorityColor block) as [rgb|].
  - split; [intros _; now exists rgb | reflexivity].
  - split; [discriminate | intros (rgb & Hn & _); discriminate].
Qed.

(** X10. [hexToRgb] always returns three components in [0,1]; a string that
    is not an optional [#] and six hex digits gives black. *)
Theorem hexToRgb_unit_cube (hex : jsstring) :
  Forall in01 (hexToRgb hex) /\ List.length (hexToRgb hex) = 3%nat /\
  (List.length (match hex with 35%Z :: r => r | _ => hex end) <> 6%nat ->
   hexToRgb hex = [0; 0; 0]).
Proof.
  split; [apply hexToRgb_in01|]. split; [apply hexToRgb_in01|].
  unfold hexToRgb. intros Hl.
  set (digits := match hex with 35%Z :: r => r | _ => hex end) in *.
  change (List.length digits <> 6%nat) in Hl.
  destruct digits as [|a [|b [|c [|d [|e [|f [|g r]]]]]]]; try reflexivity.
  exfalso. apply Hl. reflexivity.
Qed.

(** *** Contrast *)

Lemma toFixed2_between (x : Q) (lo hi : Z) :
  0 <= inject_Z lo -> inject_Z lo <= x -> x <= inject_Z hi ->
  inject_Z lo <= toFixed2 x <= inject_Z hi.
Proof.
  intros H0 Hlo Hhi. unfold toFixed2.
  destruct (Qltb x 0) eqn:E; [apply Qltb_lt in E; lra|].
  set (n := Qfloor (x * 100 + (1 # 2))).
  assert (Hn1 : (lo * 100 <= n)%Z).
  { unfold n. rewrite <- (Qfloor_Z (lo * 100)). apply Qfloor_resp_le.
    rewrite inject_Z_mult. change (inject_Z 100) with 100. lra. }
  assert (Hn2 : (n <= hi * 100)%Z).
  { destruct (Z_lt_le_dec (hi * 100) n) as [L|L]; [|exact L]. exfalso.
    assert (inject_Z (hi * 100 + 1) <= inject_Z n) by (rewrite <- Zle_Qle; lia).
    pose proof (Qfloor_le (x * 100 + (1 # 2))) as Hf. fold n in Hf.
    rewrite inject_Z_plus, inject_Z_mult in H.
    change (inject_Z 100) with 100 in H. change (inject_Z 1) with 1 in H. lra. }
  rewrite Zle_Qle in Hn1, Hn2. rewrite inject_Z_mult in Hn1, Hn2.
  change (inject_Z 100) with 100 in *.
  assert (E100 : inject_Z n / 100 == inject_Z n * (1 # 100)) by (unfold Qdiv; reflexivity).
  rewrite E100. split; lra.
Qed.

Lemma getLuminance_range (r g b : Q) :
  (forall x, 0 <= x <= 1 -> 0 <= Math_pow x (24 # 10) <= 1) ->
  in01 r -> in01 g -> in01 b ->
  0 <= getLuminance Math_pow r g b <= 1.
Proof.
  intros Hpow Hr Hg Hb. unfold in01 in *. unfold getLuminance.
  assert (Ha : forall v, 0 <= v <= 1 ->
    0 <= (if Qle_bool v (3928 # 100000) then v / (1292 # 100)
          else Math_pow ((v + (55 # 1000)) / (1055 # 1000)) (24 # 10)) <= 1).
  { intros v Hv. destruct (Qle_bool v (3928 # 100000)).
    - split; [apply Qle_shift_div_l; lra | apply Qle_shift_div_r; lra].
    - apply Hpow. split; [apply Qle_shift_div_l; lra | apply Qle_shift_div_r; lra]. }
  pose proof (Ha r Hr) as Ar. pose proof (Ha g Hg) as Ag. pose proof (Ha b Hb) as Ab.
  split; lra.
Qed.

(** X11. With a [Math.pow] that keeps [0,1] for the exponent 2.4, the two
    contrast numbers of a colour whose display components lie in [0,1]
    are between 1 and 21. *)
Theorem getContrastRatio_range (eng : ColorEngine) (block : Block) :
  (forall x, 0 <= x <= 1 -> 0 <= Math_pow x (24 # 10) <= 1) ->
  Forall in01 (blockToRgb eng block) ->
  1 <= fst (getContrastRatio getOfficialEntry getOfficialHex cmsDoTransform
              Math_pow eng block) <= 21 /\
  1 <= snd (getContrastRatio getOfficialEntry getOfficialHex cmsDoTransform
              Math_pow eng block) <= 21.
Proof.
  intros Hpow Hrgb. unfold getContrastRatio.
  pose proof (blockToRgb_length eng block) as Hlen.
  destruct (blockToRgb eng block) as [|r [|g [|b [|? ?]]]]; try discriminate.
  inversion Hrgb as [|? ? Hr Hrgb']; subst. inversion Hrgb' as [|? ? Hg Hrgb'']; subst.
  inversion Hrgb'' as [|? ? Hb _]; subst.
  cbn [nth fst snd].
  pose proof (getLuminance_range r g b Hpow Hr Hg Hb) as [L0 L1].
  set (lum := getLuminance Math_pow r g b) in *.
  split.
  - apply (toFixed2_between _ 1 21); [discriminate| |].
    + change (inject_Z 1) with 1. apply Qle_shift_div_l; lra.
    + change (inject_Z 21) with 21. apply Qle_shift_div_r; lra.
  - apply (toFixed2_between _ 1 21); [discriminate| |].
    + change (inject_Z 1) with 1. apply Qle_shift_div_l; lra.
    + change (inject_Z 21) with 21. apply Qle_shift_div_r; lra.
Qed.

(** X12. A colour whose display components all lie between 0 and 0.03928 (a
    near black) gets white text, whatever [Math.pow] does. *)
Theorem getBestTextColor_near_black (eng : ColorEngine) (block : Block) :
  Forall (fun v => 0 <= v <= 3928 # 100000) (blockToRgb eng block) ->
  getBestTextColor getOfficialEntry getOfficialHex cmsDoTransform Math_pow eng block
    = lit "#FFFFFF".
Proof.
  intros Hrgb. unfold getBestTextColor, getContrastRatio.
  pose proof (blockToRgb_length eng block) as Hlen.
  destruct (blockToRgb eng block) as [|r [|g [|b [|? ?]]]]; try discriminate.
  inversion Hrgb as [|? ? Hr Hrgb']; subst. inversion Hrgb' as [|? ? Hg Hrgb'']; subst.
  inversion Hrgb'' as [|? ? Hb _]; subst.
  cbn [nth fst snd].
  assert (Hlum : 0 <= getLuminance Math_pow r g b <= 4 # 1000).
  { unfold getLuminance.
    assert (Ha : forall v, 0 <= v <= 3928 # 100000 ->
      0 <= (if Qle_bool v (3928 # 100000) then v / (1292 # 100)
            else Math_pow ((v + (55 # 1000)) / (1055 # 1000)) (24 # 10)) <= 4 # 1000).
    { intros v Hv. destruct (Qle_bool v (3928 # 100000)) eqn:E.
      - split; [apply Qle_shift_div_l; lra | apply Qle_shift_div_r; lra].
      - exfalso. destruct Hv as [_ Hv]. apply Qle_bool_iff in Hv. congruence. }
    pose proof (Ha r Hr) as Ar. pose proof (Ha g Hg) as Ag. pose proof (Ha b Hb) as Ab.
    split; lra. }
  set (lum := getLuminance Math_pow r g b) in *. destruct Hlum as [L0 L1].
  assert (Hw : 19 <= toFixed2 ((1 + (5 # 100)) / (lum + (5 # 100)))).
  { assert (Hx : 19 <= (1 + (5 # 100)) / (lum + (5 # 100)) <= 21).
    { split; [apply Qle_shift_div_l; lra | apply Qle_shift_div_r; lra]. }
    apply (toFixed2_between _ 19 21); [discriminate| |]; apply Hx. }
  assert (Hb' : toFixed2 ((lum + (5 # 100)) / (0 + (5 # 100))) <= 2).
  { assert (Hx : 1 <= (lum + (5 # 100)) / (0 + (5 # 100)) <= 2).
    { split; [apply Qle_shift_div_l; lra | apply Qle_shift_div_r; lra]. }
    apply (toFixed2_between _ 1 2); [discriminate| |]; apply Hx. }
  assert (Hlt : Qltb (toFixed2 ((lum + (5 # 100)) / (0 + (5 # 100))))
                  (toFixed2 ((1 + (5 # 100)) / (lum + (5 # 100)))) = true)
    by (apply Qltb_lt; lra).
  now rewrite Hlt.
Qed.

End WithEnvironment.

(** X13. [rgbToCmyk] maps the unit cube into the unit cube, and at least one
    of cyan, magenta and yellow comes out as 0. *)
Theorem rgbToCmyk_unit_cube (r g b : Q) :
  in01 r -> in01 g -> in01 b ->
  exists c m y k,
    rgbToCmyk r g b = [c; m; y; k] /\
    in01 c /\ in01 m /\ in01 y /\ in01 k /\
    (c == 0 \/ m == 0 \/ y == 0).
Proof.
  unfold in01. intros Hr Hg Hb. unfold rgbToCmyk.
  set (k := Math_min (1 - r) (Math_min (1 - g) (1 - b))).
  assert (Hk1 : k <= 1 - r) by apply ColorClaims.Math_min_le_l.
  assert (Hk2 : k <= 1 - g).
  { eapply Qle_trans; [apply ColorClaims.Math_min_le_r|apply ColorClaims.Math_min_le_l]. }
  assert (Hk3 : k <= 1 - b).
  { eapply Qle_trans; [apply ColorClaims.Math_min_le_r|apply ColorClaims.Math_min_le_r]. }
  assert (Hk : k == 1 - r \/ k == 1 - g \/ k == 1 - b).
  { unfold k, Math_min.
    destruct (Qle_bool (1 - g) (1 - b));
      destruct (Qle_bool (1 - r) _); auto using Qeq_refl. }
  assert (Hk0 : 0 <= k) by (destruct Hk as [E|[E|E]]; rewrite E; lra).
  destruct (Qeq_bool k 1) eqn:E.
  - exists 0, 0, 0, 1. split; [reflexivity|].
    repeat split; lra.
  - apply Qeq_bool_neq in E. assert (Hpos : 0 < 1 - k) by lra.
    eexists _, _, _, _. split; [reflexivity|].
    repeat split;
      try (apply Qle_shift_div_l; lra); try (apply Qle_shift_div_r; lra);
      try lra.
    destruct Hk as [Ek|[Ek|Ek]]; [left | right; left | right; right];
      rewrite Ek; field; lra.
Qed.

(** [rgbToGray] keeps the unit interval, and the grey of a neutral colour
    (v, v, v) is v. *)
Theorem rgbToGray_unit_interval (r g b : Q) :
  in01 r -> in01 g -> in01 b ->
  exists gray,
    rgbToGray r g b = [gray] /\ in01 gray /\
    (r == g -> g == b -> gray == r).
Proof.
  unfold in01. intros Hr Hg Hb. eexists. split; [reflexivity|].
  split; [split; lra|]. intros E1 E2. lra.
Qed.

(** *** Examples *)

Abbreviation sampleHex :=
  (ColorUtils.getHexFromBlock ColorClaims.sampleEntry ColorClaims.noHex
     ColorClaims.noTransform ColorClaims.samplePow).

(** An unnamed RGB swatch holding what [hexToRgb] reads from [#ff8000]. *)
Definition typedOrange : Block :=
  mkBlock color None (Some (lit "RGB "))
    (Some (hexToRgb (lit "#ff8000"))) (Some 2%Z).

(** An unnamed RGB swatch holding black. *)
Definition blackRgb : Block :=
  mkBlock color None (Some (lit "RGB ")) (Some [0; 0; 0]) (Some 2%Z).

Lemma getHexFromBlock_hexToRgb_witness :
  sampleHex ColorClaims.engineDown typedOrange
    = 35%Z :: toUpperCase [102; 102; 56; 48; 48; 48]%Z.
Proof.
  apply (getHexFromBlock_hexToRgb ColorClaims.sampleEntry ColorClaims.noHex
           ColorClaims.noTransform ColorClaims.samplePow
           ColorClaims.engineDown typedOrange 102 102 56 48 48 48);
    reflexivity.
Defined.

Lemma isAuthoritative_iff_authority_path_witness :
  ColorUtils.isAuthoritative ColorClaims.sampleEntry ColorClaims.noHex
    ColorClaims.pantoneRgb = true <->
  exists rgb,
    ColorUtils.authorityColor ColorClaims.sampleEntry ColorClaims.noHex
      ColorClaims.pantoneRgb = Some rgb /\
    ColorClaims.sampleBlockToRgb ColorClaims.engineDown ColorClaims.pantoneRgb = rgb.
Proof.
  apply (isAuthoritative_iff_authority_path ColorClaims.sampleEntry ColorClaims.noHex
           ColorClaims.noTransform ColorClaims.samplePow
           ColorClaims.engineDown ColorClaims.pantoneRgb).
  discriminate.
Defined.

Lemma hexToRgb_unit_cube_witness : hexToRgb (lit "#12") = [0; 0; 0].
Proof.
  apply (hexToRgb_unit_cube (lit "#12")). discriminate.
Defined.

Lemma getContrastRatio_range_witness :
  1 <= fst (getContrastRatio ColorClaims.sampleEntry ColorClaims.noHex
              ColorClaims.noTransform ColorClaims.samplePow
              ColorClaims.engineDown ColorClaims.pantoneRgb) <= 21 /\
  1 <= snd (getContrastRatio ColorClaims.sampleEntry ColorClaims.noHex
              ColorClaims.noTransform ColorClaims.samplePow
              ColorClaims.engineDown ColorClaims.pantoneRgb) <= 21.
Proof.
  apply (getContrastRatio_range ColorClaims.sampleEntry ColorClaims.noHex
           ColorClaims.noTransform ColorClaims.samplePow
           ColorClaims.engineDown ColorClaims.pantoneRgb).
  - intros x Hx. exact Hx.
  - repeat constructor; vm_compute; discriminate.
Defined.

Lemma getBestTextColor_near_black_witness :
  getBestTextColor ColorClaims.sampleEntry ColorClaims.noHex
    ColorClaims.noTransform ColorClaims.samplePow ColorClaims.engineDown blackRgb
    = lit "#FFFFFF".
Proof.
  apply (getBestTextColor_near_black ColorClaims.sampleEntry ColorClaims.noHex
           ColorClaims.noTransform ColorClaims.samplePow
           ColorClaims.engineDown blackRgb).
  repeat constructor; vm_compute; discriminate.
Defined.

Lemma rgbToCmyk_unit_cube_witness :
  exists c m y k,
    rgbToCmyk 1 (1 # 2) 0 = [c; m; y; k] /\
    in01 c /\ in01 m /\ in01 y /\ in01 k /\
    (c == 0 \/ m == 0 \/ y == 0).
Proof.
  apply (rgbToCmyk_unit_cube 1 (1 # 2) 0); split; vm_compute; discriminate.
Defined.

Lemma rgbToGray_unit_interval_witness :
  exists gray,
    rgbToGray (1 # 2) (1 # 2) (1 # 2) = [gray] /\ in01 gray /\
    ((1 # 2) == (1 # 2) -> (1 # 2) == (1 # 2) -> gray == (1 # 2)).
Proof.
  apply (rgbToGray_unit_interval (1 # 2) (1 # 2) (1 # 2));
    split; vm_compute; discriminate.
Defined.

End ColorMore.

(** ** Undo history: what the stack guarantees *)

Module HistoryFacts.
Import History.

Section WithJSON.

Variable Snapshot : Type.
Variable JSON_stringify : AseData -> Snapshot.
Variable JSON_parse : Snapshot -> AseData.

Abbreviation HistoryState := (History.HistoryState Snapshot).
Abbreviation initHistory := (History.initHistory JSON_stringify).
Abbreviation pushHistory := (History.pushHistory JSON_stringify).
Abbreviation undo := (History.undo JSON_parse).
Abbreviation redo := (History.redo JSON_parse).

(** What the user does to the history. *)
Inductive Action :=
| DoPush (aseData : AseData)
| DoUndo
| DoRedo.

Definition act (h : HistoryState) (a : Action) : HistoryState :=
  match a with
  | DoPush d => pushHistory h d
  | DoUndo => fst (fst (undo h))
  | DoRedo => fst (fst (redo h))
  end.

(** The cursor points at a stored snapshot, and at most 50 are kept. *)
Definition wellFormed (h : HistoryState) : Prop :=
  onRestore h = true /\
  (1 <= List.length (historyStack h) <= 50)%nat /\
  (0 <= historyIndex h < Z.of_nat (List.length (historyStack h)))%Z.

Lemma wellFormed_init d : wellFormed (initHistory d).
Proof. unfold wellFormed; cbn. repeat split; lia. Qed.

Lemma pushHistory_stack (h : HistoryState) (d : AseData) :
  wellFormed h ->
  let kept := firstn (Z.to_nat (historyIndex h + 1)) (historyStack h) in
  List.length kept = Z.to_nat (historyIndex h + 1) /\
  historyStack (pushHistory h d)
    = (if (50 <? Z.of_nat (List.length (kept ++ [JSON_stringify d])))%Z
       then tl (kept ++ [JSON_stringify d]) else kept ++ [JSON_stringify d]) /\
  historyIndex (pushHistory h d)
    = (Z.of_nat (List.length (historyStack (pushHistory h d))) - 1)%Z.
Proof.
  intros (_ & Hl & Hi) kept.
  assert (Hk : List.length kept = Z.to_nat (historyIndex h + 1)).
  { unfold kept. rewrite length_firstn. lia. }
  split; [exact Hk|]. split; [|reflexivity].
  unfold History.pushHistory. cbn [historyStack].
  destruct (historyIndex h <? Z.of_nat (List.length (historyStack h)) - 1)%Z eqn:E;
    [reflexivity|].
  apply Z.ltb_ge in E.
  assert (Hfull : kept = historyStack h).
  { unfold kept. apply firstn_all2. lia. }
  now rewrite Hfull.
Qed.

Lemma wellFormed_push h d : wellFormed h -> wellFormed (pushHistory h d).
Proof.
  intros Hw. destruct (pushHistory_stack h d Hw) as (Hk & Hs & Hi).
  destruct Hw as (Hr & Hl & Hx).
  set (kept := firstn (Z.to_nat (historyIndex h + 1)) (historyStack h)) in *.
  assert (Hlen : List.length (kept ++ [JSON_stringify d])
                 = S (Z.to_nat (historyIndex h + 1))).
  { rewrite length_app, Hk. cbn. lia. }
  assert (Hb : (1 <= List.length (historyStack (pushHistory h d)) <= 50)%nat).
  { rewrite Hs.
    destruct (50 <? Z.of_nat (List.length (kept ++ [JSON_stringify d])))%Z eqn:E.
    - apply Z.ltb_lt in E.
      destruct (kept ++ [JSON_stringify d]) as [|x l]; cbn in *; lia.
    - apply Z.ltb_ge in E. lia. }
  split; [exact Hr|]. split; [exact Hb|]. rewrite Hi. lia.
Qed.

Lemma wellFormed_act h a : wellFormed h -> wellFormed (act h a).
Proof.
  intros Hw. destruct a as [d| |]; cbn [act].
  - now apply wellFormed_push.
  - unfold History.undo. destruct (0 <? historyIndex h)%Z eqn:E; [|exact Hw].
    apply Z.ltb_lt in E. destruct Hw as (Hr & Hl & Hx).
    unfold wellFormed; cbn. repeat split; try assumption; lia.
  - unfold History.redo.
    destruct (historyIndex h <? Z.of_nat (List.length (historyStack h)) - 1)%Z eqn:E;
      [|exact Hw].
    apply Z.ltb_lt in E. destruct Hw as (Hr & Hl & Hx).
    unfold wellFormed; cbn. repeat split; try assumption; lia.
Qed.

(** X14. Whatever is pushed, undone and redone after [initHistory], the stack
    holds between 1 and 50 snapshots and the cursor points at one of
    them. *)
Theorem history_stays_well_formed (initialData : AseData) (actions : list Action) :
  wellFormed (fold_left act actions (initHistory initialData)).
Proof.
  generalize (wellFormed_init initialData).
  generalize (initHistory initialData) as h.
  induction actions as [|a actions IH]; intros h Hw; [exact Hw|].
  cbn [fold_left]. apply IH. now apply wellFormed_act.
Qed.

(** After [pushHistory] nothing can be redone: [redo] returns false and
    changes nothing, and the Redo button is disabled. *)
Theorem pushHistory_disables_redo (h : HistoryState) (aseData : AseData) :
  redo (pushHistory h aseData) = (pushHistory h aseData, None, false) /\
  redoDisabled (pushHistory h aseData) = true.
Proof.
  unfold History.redo, redoDisabled.
  set (h' := pushHistory h aseData).
  assert (E : historyIndex h' = (Z.of_nat (List.length (historyStack h')) - 1)%Z)
    by reflexivity.
  rewrite E, Z.ltb_irrefl, Z.leb_refl. split; reflexivity.
Qed.

Lemma nth_error_tl {A} (l : list A) n : nth_error (tl l) n = nth_error l (S n).
Proof. destruct l; [now destruct n | reflexivity]. Qed.

(** X15. [pushHistory] stores the document as it is when it is called and
    moves the cursor onto it, so [undo] right after it restores the
    snapshot that was under the cursor before, which need not be the
    document of that moment; [redo] then restores that document. *)
Theorem undo_after_pushHistory (h : HistoryState) (aseData : AseData) :
  wellFormed h ->
  exists h1 before,
    nth_error (historyStack h) (Z.to_nat (historyIndex h)) = Some before /\
    undo (pushHistory h aseData) = (h1, Some (JSON_parse before), true) /\
    redo h1 = (pushHistory h aseData,
               Some (JSON_parse (JSON_stringify aseData)), true).
Proof.
  intros Hw. pose proof (wellFormed_push h aseData Hw) as Hw'.
  destruct (pushHistory_stack h aseData Hw) as (Hk & Hs & Hi).
  destruct Hw as (Hr & Hl & Hx).
  set (kept := firstn (Z.to_nat (historyIndex h + 1)) (historyStack h)) in *.
  set (h' := pushHistory h aseData) in *.
  destruct (nth_error (historyStack h) (Z.to_nat (historyIndex h))) as [before|] eqn:Eb;
    [|apply nth_error_None in Eb; lia].
  assert (Hkb : nth_error kept (Z.to_nat (historyIndex h)) = Some before).
  { unfold kept. rewrite nth_error_firstn.
    destruct (Nat.ltb_spec (Z.to_nat (historyIndex h)) (Z.to_nat (historyIndex h + 1)));
      [exact Eb | lia]. }
  assert (Hlen : List.length (kept ++ [JSON_stringify aseData])
                 = S (Z.to_nat (historyIndex h + 1))).
  { rewrite length_app, Hk. cbn. lia. }
  (* the two snapshots at the end of the new stack *)
  assert (Hn : (2 <= List.length (historyStack h'))%nat /\
    nth_error (historyStack h') (List.length (historyStack h') - 2) = Some before /\
    nth_error (historyStack h') (List.length (historyStack h') - 1)
      = Some (JSON_stringify aseData)).
  { rewrite Hs.
    destruct (50 <? Z.of_nat (List.length (kept ++ [JSON_stringify aseData])))%Z eqn:E.
    - apply Z.ltb_lt in E.
      assert (Ht : List.length (tl (kept ++ [JSON_stringify aseData]))
                   = Z.to_nat (historyIndex h + 1)).
      { destruct (kept ++ [JSON_stringify aseData]); cbn in *; lia. }
      rewrite Ht, !nth_error_tl. split; [lia|]. split.
      + replace (S (Z.to_nat (historyIndex h + 1) - 2))
          with (Z.to_nat (historyIndex h)) by lia.
        rewrite nth_error_app1 by lia. exact Hkb.
      + replace (S (Z.to_nat (historyIndex h + 1) - 1))
          with (List.length kept + 0)%nat by lia.
        now rewrite nth_error_app2, Nat.add_comm, Nat.add_sub by lia.
    - rewrite Hlen. split; [lia|]. split.
      + replace (S (Z.to_nat (historyIndex h + 1)) - 2)%nat
          with (Z.to_nat (historyIndex h)) by lia.
        rewrite nth_error_app1 by lia. exact Hkb.
      + replace (S (Z.to_nat (historyIndex h + 1)) - 1)%nat
          with (List.length kept + 0)%nat by lia.
        now rewrite nth_error_app2, Nat.add_comm, Nat.add_sub by lia. }
  destruct Hn as (H2 & Hn2 & Hn1).
  assert (Hr' : onRestore h' = true) by exact Hr.
  eexists _, before. split; [reflexivity|].
  unfold History.undo, History.redo, restore. cbn [historyStack historyIndex onRestore].
  rewrite Hi, Hr'.
  replace (0 <? Z.of_nat (List.length (historyStack h')) - 1)%Z with true
    by (symmetry; apply Z.ltb_lt; lia).
  replace (Z.of_nat (List.length (historyStack h')) - 1 - 1 <? 0)%Z with false
    by (symmetry; apply Z.ltb_ge; lia).
  replace (Z.to_nat (Z.of_nat (List.length (historyStack h')) - 1 - 1))
    with (List.length (historyStack h') - 2)%nat by lia.
  rewrite Hn2. cbn [option_map]. split; [reflexivity|].
  cbn [historyStack historyIndex onRestore].
  replace (Z.of_nat (List.length (historyStack h')) - 1 - 1
           <? Z.of_nat (List.length (historyStack h')) - 1)%Z with true
    by (symmetry; apply Z.ltb_lt; lia).
  replace (Z.of_nat (List.length (historyStack h')) - 1 - 1 + 1)%Z
    with (Z.of_nat (List.length (historyStack h')) - 1)%Z by lia.
  replace (Z.of_nat (List.length (historyStack h')) - 1 <? 0)%Z with false
    by (symmetry; apply Z.ltb_ge; lia).
  replace (Z.to_nat (Z.of_nat (List.length (historyStack h')) - 1))
    with (List.length (historyStack h') - 1)%nat by lia.
  rewrite Hn1. cbn [option_map].
  apply (f_equal (fun x => (x, Some (JSON_parse (JSON_stringify aseData)), true))).
  clearbody h'. clear - Hi Hr'. destruct h' as [st ix cb].
  cbn [historyStack historyIndex onRestore] in *. now subst ix cb.
Qed.

(** X16. A successful [undo] is taken back by [redo] and the other way round:
    the history is as before, and the document restored is the one under
    the old cursor. *)
Theorem undo_redo_inverse (h : HistoryState) :
  wellFormed h ->
  ((0 < historyIndex h)%Z ->
   exists h1 r, undo h = (h1, r, true) /\
     redo h1 = (h, option_map JSON_parse
                     (nth_error (historyStack h) (Z.to_nat (historyIndex h))), true)) /\
  ((historyIndex h < Z.of_nat (List.length (historyStack h)) - 1)%Z ->
   exists h1 r, redo h = (h1, r, true) /\
     undo h1 = (h, option_map JSON_parse
                     (nth_error (historyStack h) (Z.to_nat (historyIndex h))), true)).
Proof.
  intros (Hr & Hl & Hx). destruct h as [st ix cb]. cbn in *. subst cb. split; intros H.
  - eexists _, _. unfold History.undo, History.redo, restore. cbn.
    replace (0 <? ix)%Z with true by (symmetry; apply Z.ltb_lt; lia).
    split; [reflexivity|]. cbn [historyStack historyIndex onRestore].
    replace (ix - 1 <? Z.of_nat (List.length st) - 1)%Z with true
      by (symmetry; apply Z.ltb_lt; lia).
    replace (ix - 1 + 1)%Z with ix by lia.
    replace (ix <? 0)%Z with false by (symmetry; apply Z.ltb_ge; lia).
    reflexivity.
  - eexists _, _. unfold History.undo, History.redo, restore. cbn.
    replace (ix <? Z.of_nat (List.length st) - 1)%Z with true
      by (symmetry; apply Z.ltb_lt; lia).
    split; [reflexivity|]. cbn [historyStack historyIndex onRestore].
    replace (0 <? ix + 1)%Z with true by (symmetry; apply Z.ltb_lt; lia).
    replace (ix + 1 - 1)%Z with ix by lia.
    replace (ix <? 0)%Z with false by (symmetry; apply Z.ltb_ge; lia).
    reflexivity.
Qed.

End WithJSON.

(** *** Examples, with the documents themselves as snapshots *)

Definition keep (d : AseData) : AseData := d.

Definition openedHistory : History.HistoryState AseData :=
  initHistory keep CodecFacts.globalDoc.

Definition editedHistory : History.HistoryState AseData :=
  pushHistory keep openedHistory CodecFacts.unnamedGroupDoc.

Lemma undo_after_pushHistory_witness :
  exists h1 before,
    nth_error (historyStack openedHistory) (Z.to_nat (historyIndex openedHistory))
      = Some before /\
    undo keep (pushHistory keep openedHistory CodecFacts.unnamedGroupDoc)
      = (h1, Some (keep before), true) /\
    redo keep h1 = (pushHistory keep openedHistory CodecFacts.unnamedGroupDoc,
                    Some (keep (keep CodecFacts.unnamedGroupDoc)), true).
Proof.
  apply (undo_after_pushHistory AseData keep keep openedHistory
           CodecFacts.unnamedGroupDoc).
  unfold wellFormed; cbn. repeat split; lia.
Defined.

Lemma undo_redo_inverse_witness :
  ((0 < historyIndex editedHistory)%Z ->
   exists h1 r, undo keep editedHistory = (h1, r, true) /\
     redo keep h1
       = (editedHistory,
          option_map keep (nth_error (historyStack editedHistory)
                             (Z.to_nat (historyIndex editedHistory))), true)) /\
  ((historyIndex editedHistory
      < Z.of_nat (List.length (historyStack editedHistory)) - 1)%Z ->
   exists h1 r, redo keep editedHistory = (h1, r, true) /\
     undo keep h1
       = (editedHistory,
          option_map keep (nth_error (historyStack editedHistory)
                             (Z.to_nat (historyIndex editedHistory))), true)).
Proof.
  apply (undo_redo_inverse AseData keep editedHistory).
  unfold wellFormed; cbn. repeat split; lia.
Defined.

End HistoryFacts.

(** ** Editing handlers: what they keep *)

Module EditorFacts.
Import Codec ColorUtils CodecFacts ColorFacts Editor.

Local Open Scope Q_scope.

Lemma rgbToCmyk_length r g b : List.length (rgbToCmyk r g b) = 4%nat.
Proof. unfold rgbToCmyk. now destruct (Qeq_bool _ 1). Qed.

Section WithEnvironment.

Variable getOfficialEntry : jsstring -> option PantoneEntry.
Variable getOfficialHex : jsstring -> option jsstring.
Variable cmsDoTransform : Z -> list Z -> option (Z * Z * Z).
Variable Math_pow : Q -> Q -> Q.
Variable eng : ColorEngine.

Abbreviation batchBlock :=
  (Editor.batchBlock getOfficialEntry getOfficialHex cmsDoTransform Math_pow eng).
Abbreviation handleBatchAction :=
  (Editor.handleBatchAction getOfficialEntry getOfficialHex cmsDoTransform Math_pow eng).
Abbreviation handleModelChange :=
  (Editor.handleModelChange getOfficialEntry getOfficialHex cmsDoTransform Math_pow eng).
Abbreviation handleHexInput := (Editor.handleHexInput Math_pow).
Abbreviation blockToRgb :=
  (ColorUtils.blockToRgb getOfficialEntry getOfficialHex cmsDoTransform Math_pow eng).
Abbreviation authorityColor :=
  (ColorUtils.authorityColor getOfficialEntry getOfficialHex).

(** *** Batch actions *)

(** What one step of a batch action can do to a block. *)
Inductive batchChange (block : Block) : Block -> bool -> Prop :=
| Untouched : batchChange block block false
| Converted m vs :
    type block = color -> knownModel m -> List.length vs = numChannelsOf m ->
    batchChange block (withModelValues block m vs) true
| Retyped ct :
    type block = color -> (0 <= ct <= 2)%Z -> colorType block <> Some ct ->
    batchChange block (withColorType block ct) true.

Lemma colorTypeIs_false block n : colorTypeIs block n = false -> colorType block <> Some n.
Proof.
  unfold colorTypeIs. intros H E. rewrite E in H. now rewrite Z.eqb_refl in H.
Qed.

Lemma colorTypeIs_true block n : colorTypeIs block n = true -> colorType block = Some n.
Proof.
  unfold colorTypeIs. destruct (colorType block) as [c|]; [|discriminate].
  intros H. apply Z.eqb_eq in H. now subst.
Qed.

Lemma batchBlock_change action block :
  batchChange block (fst (batchBlock action block)) (snd (batchBlock action block)).
Proof.
  unfold Editor.batchBlock.
  destruct (type block) eqn:Et; cbn [BlockType_eqb negb]; try apply Untouched.
  repeat match goal with
  | |- context [if jseqb action ?l then _ else _] => destruct (jseqb action l)
  end;
  repeat match goal with
  | |- context [match valuesOf block with _ => _ end] =>
      destruct (valuesOf block) as [|? [|? [|? [|? ?]]]]
  | |- context [if jseqb (modelOf block) ?l then _ else _] =>
      destruct (jseqb (modelOf block) l)
  end; cbn [fst snd]; try apply Untouched;
  try (apply Converted; [exact Et | | ];
       [first [now left | now right; left | now right; right; left] |
        first [reflexivity | apply rgbToCmyk_length]]).
  - destruct (colorTypeIs block 1) eqn:E; cbn [negb fst snd]; [apply Untouched|].
    apply Retyped; [exact Et | lia | now apply colorTypeIs_false].
  - destruct (colorTypeIs block 2) eqn:E; cbn [fst snd]; [|apply Untouched].
    apply colorTypeIs_true in E.
    apply Retyped; [exact Et | lia | congruence].
  - destruct (colorTypeIs block 0) eqn:E0; cbn [orb fst snd].
    + apply colorTypeIs_true in E0. apply Retyped; [exact Et | lia | congruence].
    + destruct (colorTypeIs block 1) eqn:E1; cbn [fst snd]; [|apply Untouched].
      apply colorTypeIs_true in E1. apply Retyped; [exact Et | lia | congruence].
Qed.

Lemma batchChange_valid block block' modified :
  batchChange block block' modified -> validBlock block -> validBlock block'.
Proof.
  intros [|m vs Et Hm Hl|ct Et Hct _] Hv; [exact Hv| |];
    unfold validBlock in *; cbn [type name model values colorType withModelValues
                                 withColorType] in *; rewrite Et in *;
    destruct Hv as (nm & m0 & vs0 & Hn & Hm0 & Hv0 & H1 & H2 & H3 & H4 & H5 & H6).
  - exists nm, m, vs. tauto.
  - exists nm, m0, vs0. cbn [colorTypeOk]. repeat split; try assumption; lia.
Qed.

Lemma batchChange_same block block' modified :
  batchChange block block' modified ->
  type block' = type block /\ name block' = name block /\
  (type block <> color -> block' = block).
Proof.
  intros [|m vs Et Hm Hl|ct Et Hct _]; cbn; repeat split; congruence.
Qed.

(** X17. Whatever the action, a batch run keeps the number of blocks, their
    types and their names, leaves groups alone and counts no more
    blocks than there are; a valid document stays valid, so it can still
    be saved and read back. *)
Theorem handleBatchAction_keeps_document (action : jsstring) (ver : Z * Z)
    (blocks blocks' : list Block) (count : Z) :
  handleBatchAction action blocks = Some (blocks', count) ->
  map type blocks' = map type blocks /\
  map name blocks' = map name blocks /\
  Forall2 (fun b b' => type b <> color -> b' = b) blocks blocks' /\
  (0 <= count <= Z.of_nat (List.length blocks))%Z /\
  (validDocument (mkAseData ver blocks) -> validDocument (mkAseData ver blocks')).
Proof.
  unfold Editor.handleBatchAction. intros H.
  assert (E : blocks' = map fst (map (batchBlock action) blocks) /\
              count = Z.of_nat (List.length
                        (filter (fun r => snd r) (map (batchBlock action) blocks)))).
  { destruct blocks; [discriminate|]. inversion H. split; reflexivity. }
  clear H. destruct E as [-> ->].
  assert (Hc : (List.length (filter (fun r : Block * bool => snd r)
                              (map (batchBlock action) blocks))
                <= List.length blocks)%nat).
  { eapply Nat.le_trans; [apply filter_length_le | now rewrite length_map]. }
  split; [|split; [|split; [|split; [lia|]]]].
  - rewrite !map_map. apply map_ext. intros b.
    apply (batchChange_same _ _ _ (batchBlock_change action b)).
  - rewrite !map_map. apply map_ext. intros b.
    apply (batchChange_same _ _ _ (batchBlock_change action b)).
  - clear Hc. induction blocks as [|b bs IH]; [constructor|].
    cbn [map]. constructor; [|exact IH].
    apply (batchChange_same _ _ _ (batchBlock_change action b)).
  - unfold validDocument. cbn. rewrite !length_map.
    intros (H1 & H2 & H3 & H4).
    split; [assumption|]. split; [assumption|]. split; [assumption|].
    rewrite map_map. rewrite Forall_forall in *. intros x Hx.
    apply in_map_iff in Hx as (b & <- & Hb).
    apply (batchChange_valid _ _ _ (batchBlock_change action b)). now apply H4.
Qed.

(** The colour of a block as a batch run leaves it. *)
Lemma map_fst_batch action bs f :
  (forall b, fst (batchBlock action b) = f b) ->
  map fst (map (batchBlock action) bs) = map f bs.
Proof. intros H. rewrite map_map. now apply map_ext. Qed.

Lemma handleBatchAction_Some action bs bs' count :
  handleBatchAction action bs = Some (bs', count) ->
  bs <> [] /\ bs' = map fst (map (batchBlock action) bs) /\
  count = Z.of_nat (List.length (filter (fun r => snd r) (map (batchBlock action) bs))).
Proof.
  unfold Editor.handleBatchAction. destruct bs; [discriminate|].
  intros H. inversion H. repeat split. discriminate.
Qed.

Lemma handleBatchAction_nonempty action bs :
  bs <> [] ->
  handleBatchAction action bs
    = Some (map fst (map (batchBlock action) bs),
            Z.of_nat (List.length
                        (filter (fun r => snd r) (map (batchBlock action) bs)))).
Proof. destruct bs; [congruence | reflexivity]. Qed.

Definition setGlobal (b : Block) : Block * bool :=
  if negb (BlockType_eqb (type b) color) then (b, false)
  else if colorTypeIs b 2 then (withColorType b 0, true) else (b, false).

Lemma batchBlock_set_global b : batchBlock (lit "set-global") b = setGlobal b.
Proof. reflexivity. Qed.

Lemma encodeBlock_set_global f32_bits b :
  encodeBlock f32_bits (fst (setGlobal b)) = encodeBlock f32_bits b.
Proof.
  unfold setGlobal. destruct (negb _); [reflexivity|].
  destruct (colorTypeIs b 2) eqn:E; [|reflexivity].
  apply colorTypeIs_true in E. unfold encodeBlock.
  cbn [fst withColorType type name model values colorType]. now rewrite E.
Qed.

(** X18. The Set Global batch action does not reach the file: the bytes
    written for the palette after it are those written before it. *)
Theorem set_global_is_not_saved (f32_bits : Q -> Z) (ver : Z * Z)
    (palette palette' : list Block) (count : Z) :
  handleBatchAction (lit "set-global") palette = Some (palette', count) ->
  createASEBuffer f32_bits (mkAseData ver palette')
    = createASEBuffer f32_bits (mkAseData ver palette).
Proof.
  intros H. apply handleBatchAction_Some in H as (_ & -> & _).
  unfold createASEBuffer. cbn [version blocks]. rewrite !length_map.
  do 4 apply (f_equal (fun x => _ ++ x)).
  induction palette as [|b bs IH]; [reflexivity|].
  cbn [map flat_map]. now rewrite IH, batchBlock_set_global, encodeBlock_set_global.
Qed.

Definition processSpot (b : Block) : Block * bool :=
  if negb (BlockType_eqb (type b) color) then (b, false)
  else if negb (colorTypeIs b 1) then (withColorType b 1, true) else (b, false).

Lemma batchBlock_process_spot b : batchBlock (lit "process-spot") b = processSpot b.
Proof. reflexivity. Qed.

Lemma processSpot_twice b : processSpot (fst (processSpot b)) = (fst (processSpot b), false).
Proof.
  unfold processSpot. destruct (negb (BlockType_eqb (type b) color)) eqn:Et.
  - cbn [fst]. now rewrite Et.
  - destruct (negb (colorTypeIs b 1)) eqn:E; cbn [fst].
    + cbn [withColorType type]. rewrite Et. unfold colorTypeIs. reflexivity.
    + now rewrite Et, E.
Qed.

(** X19. After the Process to Spot batch action every colour is a spot colour
    and keeps its model and values; the count is the number of colours
    that were not spot colours, and a second run changes nothing. *)
Theorem process_spot_makes_all_spot (palette palette' : list Block) (count : Z) :
  handleBatchAction (lit "process-spot") palette = Some (palette', count) ->
  Forall (fun b => type b = color -> colorType b = Some 1%Z) palette' /\
  map model palette' = map model palette /\
  map values palette' = map values palette /\
  count = Z.of_nat (List.length
            (filter (fun b => BlockType_eqb (type b) color && negb (colorTypeIs b 1))
               palette)) /\
  handleBatchAction (lit "process-spot") palette' = Some (palette', 0%Z).
Proof.
  intros H. apply handleBatchAction_Some in H as (Hne & -> & ->).
  set (palette' := map fst (map (batchBlock (lit "process-spot")) palette)).
  assert (Hp : palette' = map (fun b => fst (processSpot b)) palette).
  { unfold palette'. apply map_fst_batch. intros b. now rewrite batchBlock_process_spot. }
  split; [|split; [|split; [|split]]].
  - rewrite Hp, Forall_forall. intros x Hx. apply in_map_iff in Hx as (b & <- & _).
    unfold processSpot. destruct (BlockType_eqb (type b) color) eqn:Et; cbn [negb fst].
    + destruct (colorTypeIs b 1) eqn:E; cbn [negb fst]; [|reflexivity].
      intros _. now apply colorTypeIs_true.
    + intros Hc. rewrite Hc in Et. discriminate.
  - rewrite Hp, map_map. apply map_ext. intros b. unfold processSpot.
    destruct (negb _); [reflexivity|]. now destruct (negb _).
  - rewrite Hp, map_map. apply map_ext. intros b. unfold processSpot.
    destruct (negb _); [reflexivity|]. now destruct (negb _).
  - apply f_equal. clear. induction palette as [|b bs IH]; [reflexivity|].
    cbn [map filter]. rewrite batchBlock_process_spot. unfold processSpot at 1.
    destruct (BlockType_eqb (type b) color); cbn [negb andb snd]; [|exact IH].
    destruct (colorTypeIs b 1); cbn [negb snd List.length]; [exact IH|].
    now rewrite IH.
  - rewrite handleBatchAction_nonempty
      by (rewrite Hp; destruct palette; [congruence | discriminate]).
    rewrite Hp. clear.
    assert (E : map (batchBlock (lit "process-spot"))
                  (map (fun b => fst (processSpot b)) palette)
                = map (fun b => (fst (processSpot b), false)) palette).
    { rewrite map_map. apply map_ext. intros b.
      now rewrite batchBlock_process_spot, processSpot_twice. }
    rewrite E, map_map. cbn [fst]. apply f_equal, f_equal2; [reflexivity|].
    clear E. induction palette as [|b bs IH]; [reflexivity|]. exact IH.
Qed.

(** *** Changing the model of a swatch *)

Lemma blockToRgb_has_three block : List.length (blockToRgb block) = 3%nat.
Proof. apply ColorMore.blockToRgb_length. Qed.

(** X20. When the model selector really changes the model, the block gets one
    of the four model tags and as many values as that model has
    channels, whatever it held before; type, name and colour type stay.
    The new model is the selected one if that is CMYK, LAB or Gray, and
    RGB for anything else. *)
Theorem handleModelChange_consistent (newModelRaw : jsstring) (block : Block) :
  modelOf block <> trim newModelRaw ->
  exists m vs,
    handleModelChange newModelRaw block
      = mkBlock (type block) (name block) (Some m) (Some vs) (colorType block) /\
    knownModel m /\ List.length vs = numChannelsOf m /\
    trim m = (if jseqb (trim newModelRaw) (lit "CMYK")
                 || jseqb (trim newModelRaw) (lit "LAB")
                 || jseqb (trim newModelRaw) (lit "Gray")
              then trim newModelRaw else lit "RGB").
Proof.
  intros Hne. unfold Editor.handleModelChange.
  destruct (jseqb (modelOf block) (trim newModelRaw)) eqn:E;
    [apply jseqb_eq in E; contradiction|].
  pose proof (blockToRgb_has_three block) as Hl.
  destruct (jseqb (trim newModelRaw) (lit "RGB")) eqn:E1.
  { apply jseqb_eq in E1. eexists _, _. split; [reflexivity|].
    split; [right; left; reflexivity|]. split; [exact Hl|]. now rewrite E1. }
  destruct (jseqb (trim newModelRaw) (lit "CMYK")) eqn:E2.
  { apply jseqb_eq in E2. eexists _, _. split; [reflexivity|].
    split; [left; reflexivity|]. split; [apply rgbToCmyk_length|]. now rewrite E2. }
  destruct (jseqb (trim newModelRaw) (lit "LAB")) eqn:E3.
  { apply jseqb_eq in E3. eexists _, _. split; [reflexivity|].
    split; [right; right; left; reflexivity|]. split; [reflexivity|]. now rewrite E3. }
  destruct (jseqb (trim newModelRaw) (lit "Gray")) eqn:E4.
  { apply jseqb_eq in E4. eexists _, _. split; [reflexivity|].
    split; [right; right; right; reflexivity|]. split; [reflexivity|]. now rewrite E4. }
  eexists _, _. split; [reflexivity|].
  split; [right; left; reflexivity|]. split; [exact Hl|]. reflexivity.
Qed.



(** *** Typing a hex colour *)

Lemma filter_all {A} (f : A -> bool) l : forallb f (filter f l) = true.
Proof.
  induction l as [|x l IH]; [reflexivity|]. cbn [filter].
  destruct (f x) eqn:E; [|exact IH]. cbn [forallb]. now rewrite E.
Qed.

Lemma forallb_firstn {A} (f : A -> bool) n l :
  forallb f l = true -> forallb f (firstn n l) = true.
Proof.
  revert l; induction n as [|n IH]; intros [|x l]; try reflexivity.
  cbn [forallb firstn]. rewrite !andb_true_iff. intros [H1 H2]. auto.
Qed.

(** X22. The hex field takes the first six hex digits typed, whatever stands
    between them; an RGB swatch then gets exactly the three bytes they
    spell, over 255, and with fewer than six digits nothing happens. *)
Theorem handleHexInput_reads_six_digits (value : jsstring) (block : Block) :
  modelOf block = lit "RGB" ->
  match filter isHexDigit value with
  | a :: b :: c :: d :: e :: f :: _ =>
      handleHexInput value block
        = Some [channelOfHex a b; channelOfHex c d; channelOfHex e f]
  | _ => handleHexInput value block = None
  end.
Proof.
  intros Hm. unfold Editor.handleHexInput, sanitizeHex. rewrite Hm.
  pose proof (filter_all isHexDigit value) as Hf.
  destruct (filter isHexDigit value) as [|a [|b [|c [|d [|e [|f rest]]]]]];
    try reflexivity.
  cbn [firstn List.length Nat.eqb].
  change (jseqb (lit "RGB") (lit "RGB")) with true. cbv iota.
  unfold hexToRgb.
  assert (H6 : forallb isHexDigit [a; b; c; d; e; f] = true).
  { apply (forallb_firstn isHexDigit 6) in Hf. exact Hf. }
  now rewrite H6.
Qed.

End WithEnvironment.

(** *** Dragging a swatch *)

Lemma nth_error_spliceOut (i k : nat) (bs : list Block) :
  nth_error (spliceOut i bs) k
    = nth_error bs (if (k <? i)%nat then k else S k).
Proof.
  unfold spliceOut. destruct (Nat.ltb_spec k i) as [H|H].
  - destruct (Nat.lt_ge_cases k (List.length bs)) as [Hk|Hk].
    + rewrite nth_error_app1 by (rewrite length_firstn; lia).
      rewrite nth_error_firstn.
      destruct (Nat.ltb_spec k i); [reflexivity | lia].
    + rewrite (proj2 (nth_error_None bs k)) by lia.
      apply nth_error_None. rewrite length_app, length_firstn, length_skipn. lia.
  - destruct (Nat.lt_ge_cases i (List.length bs)) as [Hi|Hi].
    + rewrite nth_error_app2 by (rewrite length_firstn; lia).
      rewrite length_firstn, nth_error_skipn. apply f_equal. lia.
    + rewrite (proj2 (nth_error_None bs (S k))) by lia.
      apply nth_error_None. rewrite length_app, length_firstn, length_skipn. lia.
Qed.

Lemma nth_error_spliceIn (i k : nat) (x : Block) (bs : list Block) :
  (i <= List.length bs)%nat ->
  nth_error (spliceIn i x bs) k
    = if (k <? i)%nat then nth_error bs k
      else if (k =? i)%nat then Some x else nth_error bs (k - 1).
Proof.
  intros Hi. unfold spliceIn. destruct (Nat.ltb_spec k i) as [H|H].
  - rewrite nth_error_app1 by (rewrite length_firstn; lia).
    rewrite nth_error_firstn. destruct (Nat.ltb_spec k i); [reflexivity | lia].
  - rewrite nth_error_app2 by (rewrite length_firstn; lia).
    rewrite length_firstn, Nat.min_l by lia.
    destruct (Nat.eqb_spec k i) as [->|Hk].
    + now rewrite Nat.sub_diag.
    + destruct (k - i)%nat as [|j] eqn:Ej; [lia|]. cbn [nth_error].
      rewrite nth_error_skipn. apply f_equal. lia.
Qed.

Lemma spliceOut_Permutation i item bs :
  nth_error bs i = Some item -> Permutation bs (item :: spliceOut i bs).
Proof.
  intros H. apply nth_error_split in H as (l1 & l2 & -> & <-).
  unfold spliceOut. rewrite firstn_app, Nat.sub_diag, firstn_all.
  cbn [firstn]. rewrite app_nil_r.
  rewrite skipn_app, skipn_all2 by lia.
  replace (S (List.length l1) - List.length l1)%nat with 1%nat by lia.
  cbn [skipn app]. symmetry. apply Permutation_middle.
Qed.

Lemma spliceIn_Permutation i item bs : Permutation (item :: bs) (spliceIn i item bs).
Proof.
  unfold spliceIn. rewrite <- (firstn_skipn i bs) at 1. apply Permutation_middle.
Qed.

(** X23. Dragging a swatch onto another position (without Alt) reorders the
    palette and loses nothing: the result is a permutation, the dragged
    block sits at the target index, and a selected block is still the
    selected one afterwards, wherever it has moved. *)
Theorem handleSwatchDrop_move (sourceIndex targetIndex : Z) (palette : list Block)
    (currentSelection : option Z) :
  (0 <= sourceIndex < Z.of_nat (List.length palette))%Z ->
  (0 <= targetIndex < Z.of_nat (List.length palette))%Z ->
  sourceIndex <> targetIndex ->
  exists palette' selection',
    handleSwatchDrop false sourceIndex targetIndex palette currentSelection
      = Dropped palette' selection' /\
    Permutation palette palette' /\
    nth_error palette' (Z.to_nat targetIndex)
      = nth_error palette (Z.to_nat sourceIndex) /\
    (forall s, currentSelection = Some s ->
       (0 <= s < Z.of_nat (List.length palette))%Z ->
       exists s', selection' = Some s' /\
         (0 <= s' < Z.of_nat (List.length palette))%Z /\
         nth_error palette' (Z.to_nat s') = nth_error palette (Z.to_nat s)).
Proof.
  intros Hs Ht Hne. unfold handleSwatchDrop.
  replace (sourceIndex =? targetIndex)%Z with false by (symmetry; apply Z.eqb_neq; lia).
  cbn [andb negb].
  destruct (nth_error palette (Z.to_nat sourceIndex)) as [item|] eqn:Ei;
    [|apply nth_error_None in Ei; lia].
  eexists _, _. split; [reflexivity|].
  assert (Hlen : List.length (spliceOut (Z.to_nat sourceIndex) palette)
                 = (List.length palette - 1)%nat).
  { unfold spliceOut. rewrite length_app, length_firstn, length_skipn. lia. }
  assert (Hin : forall k,
    nth_error (spliceIn (Z.to_nat targetIndex) item
                 (spliceOut (Z.to_nat sourceIndex) palette)) k
    = if (k <? Z.to_nat targetIndex)%nat
      then nth_error palette (if (k <? Z.to_nat sourceIndex)%nat then k else S k)
      else if (k =? Z.to_nat targetIndex)%nat then Some item
      else nth_error palette
             (if (k - 1 <? Z.to_nat sourceIndex)%nat then (k - 1)%nat else S (k - 1))).
  { intros k. rewrite nth_error_spliceIn by lia. now rewrite !nth_error_spliceOut. }
  split; [|split].
  - etransitivity; [apply (spliceOut_Permutation _ _ _ Ei) | apply spliceIn_Permutation].
  - rewrite Hin, Nat.ltb_irrefl, Nat.eqb_refl. now symmetry.
  - intros s -> Hsel.
    destruct (Z.eqb_spec s sourceIndex) as [->|Hss].
    { exists targetIndex. split; [reflexivity|]. split; [lia|].
      rewrite Hin, Nat.ltb_irrefl, Nat.eqb_refl. now symmetry. }
    destruct (Z.leb_spec targetIndex s) as [H1|H1];
      destruct (Z.ltb_spec s sourceIndex) as [H2|H2]; cbn [andb].
    + exists (s + 1)%Z. split; [reflexivity|]. split; [lia|]. rewrite Hin.
      destruct (Nat.ltb_spec (Z.to_nat (s + 1)) (Z.to_nat targetIndex)); [lia|].
      destruct (Nat.eqb_spec (Z.to_nat (s + 1)) (Z.to_nat targetIndex)); [lia|].
      destruct (Nat.ltb_spec (Z.to_nat (s + 1) - 1) (Z.to_nat sourceIndex)); [|lia].
      apply f_equal. lia.
    + destruct (Z.ltb_spec sourceIndex s) as [H3|H3]; [|lia].
      destruct (Z.leb_spec s targetIndex) as [H4|H4]; cbn [andb].
      * assert (s = targetIndex) by lia. subst s.
        exists (targetIndex - 1)%Z. split; [reflexivity|]. split; [lia|]. rewrite Hin.
        destruct (Nat.ltb_spec (Z.to_nat (targetIndex - 1)) (Z.to_nat targetIndex)); [|lia].
        destruct (Nat.ltb_spec (Z.to_nat (targetIndex - 1)) (Z.to_nat sourceIndex)); [lia|].
        apply f_equal. lia.
      * exists s. split; [reflexivity|]. split; [lia|]. rewrite Hin.
        destruct (Nat.ltb_spec (Z.to_nat s) (Z.to_nat targetIndex)); [lia|].
        destruct (Nat.eqb_spec (Z.to_nat s) (Z.to_nat targetIndex)); [lia|].
        destruct (Nat.ltb_spec (Z.to_nat s - 1) (Z.to_nat sourceIndex)); [lia|].
        apply f_equal. lia.
    + destruct (Z.ltb_spec sourceIndex s) as [H3|H3]; [lia|]. cbn [andb].
      exists s. split; [reflexivity|]. split; [lia|]. rewrite Hin.
      destruct (Nat.ltb_spec (Z.to_nat s) (Z.to_nat targetIndex)); [|lia].
      destruct (Nat.ltb_spec (Z.to_nat s) (Z.to_nat sourceIndex)); [|lia].
      reflexivity.
    + destruct (Z.ltb_spec sourceIndex s) as [H3|H3]; [|lia].
      destruct (Z.leb_spec s targetIndex) as [H4|H4]; cbn [andb]; [|lia].
      exists (s - 1)%Z. split; [reflexivity|]. split; [lia|]. rewrite Hin.
      destruct (Nat.ltb_spec (Z.to_nat (s - 1)) (Z.to_nat targetIndex)); [|lia].
      destruct (Nat.ltb_spec (Z.to_nat (s - 1)) (Z.to_nat sourceIndex)); [lia|].
      apply f_equal. lia.
Qed.

(** X24. With no swatch selected a drop does not always leave it so:
    dragging a swatch onto the first position selects the second one;
    every other move keeps the selection empty. *)
Theorem handleSwatchDrop_without_selection (sourceIndex targetIndex : Z)
    (palette : list Block) :
  (0 <= sourceIndex < Z.of_nat (List.length palette))%Z ->
  (0 <= targetIndex < Z.of_nat (List.length palette))%Z ->
  sourceIndex <> targetIndex ->
  exists palette',
    handleSwatchDrop false sourceIndex targetIndex palette None
      = Dropped palette' (if (targetIndex =? 0)%Z then Some 1%Z else None).
Proof.
  intros Hs Ht Hne. unfold handleSwatchDrop.
  replace (sourceIndex =? targetIndex)%Z with false by (symmetry; apply Z.eqb_neq; lia).
  cbn [andb negb].
  destruct (nth_error palette (Z.to_nat sourceIndex)) as [item|] eqn:Ei;
    [|apply nth_error_None in Ei; lia].
  eexists. apply f_equal.
  replace (sourceIndex <? 0)%Z with false by (symmetry; apply Z.ltb_ge; lia).
  cbn [andb].
  destruct (Z.eqb_spec targetIndex 0) as [->|H0].
  - replace (0 <? sourceIndex)%Z with true by (symmetry; apply Z.ltb_lt; lia).
    reflexivity.
  - replace (targetIndex <=? 0)%Z with false by (symmetry; apply Z.leb_gt; lia).
    reflexivity.
Qed.

(** *** Merging a second file *)

Section Merge.

Variable toLowerCase : jsstring -> jsstring.

Abbreviation normalizeName := (Editor.normalizeName toLowerCase).
Abbreviation existingNamesOf := (Editor.existingNamesOf toLowerCase).
Abbreviation mergeLoop := (Editor.mergeLoop toLowerCase).
Abbreviation mergeBlocks := (Editor.mergeBlocks toLowerCase).
Abbreviation loadMergeFile := (Editor.loadMergeFile toLowerCase).

(** A colour block with a non-empty name. *)
Definition namedColor (b : Block) : Prop :=
  type b = color /\ exists c r, name b = Some (c :: r).

(** The key under which the merge knows a block. *)
Definition keyOf (b : Block) : option jsstring := option_map normalizeName (name b).

(** [l] is [l'] with some elements left out. *)
Inductive subsequence : list Block -> list Block -> Prop :=
| sub_nil : subsequence [] []
| sub_take x l l' : subsequence l l' -> subsequence (x :: l) (x :: l')
| sub_skip x l l' : subsequence l l' -> subsequence l (x :: l').

Lemma optName_eqb_eq a b : optName_eqb a b = true <-> a = b.
Proof.
  destruct a as [x|], b as [y|]; cbn; try (split; [discriminate|congruence]).
  - rewrite jseqb_eq. split; congruence.
  - tauto.
Qed.

Lemma has_In ex n : has ex n = true <-> In n ex.
Proof.
  unfold has. rewrite existsb_exists. split.
  - intros (x & Hx & E). apply optName_eqb_eq in E. now subst.
  - intros H. exists n. split; [exact H | now apply optName_eqb_eq].
Qed.

Lemma has_false ex n : has ex n = false <-> ~ In n ex.
Proof.
  rewrite <- has_In. destruct (has ex n); split; congruence.
Qed.

Lemma existingNamesOf_app palette added :
  Forall namedColor added ->
  existingNamesOf (palette ++ added) = existingNamesOf palette ++ map keyOf added.
Proof.
  intros H. unfold Editor.existingNamesOf. rewrite filter_app, map_app.
  apply f_equal. induction H as [|b bs [Hb _] _ IH]; [reflexivity|].
  cbn [filter map]. rewrite Hb. cbn [BlockType_eqb map]. now rewrite IH.
Qed.

Lemma mergeLoop_spec newBlocks : forall palette ex count palette' ex' count',
  mergeLoop newBlocks palette ex count = (palette', ex', count') ->
  exists added,
    palette' = palette ++ added /\ ex' = ex ++ map keyOf added /\
    count' = (count + Z.of_nat (List.length added))%Z /\
    subsequence added newBlocks /\ Forall namedColor added /\
    NoDup (map keyOf added) /\
    (forall b, In b added -> ~ In (keyOf b) ex) /\
    (forall b, In b newBlocks -> namedColor b -> In (keyOf b) ex').
Proof.
  induction newBlocks as [|b rest IH]; intros palette ex count palette' ex' count' H.
  - cbn in H. inversion H; subst. exists []. rewrite !app_nil_r. cbn.
    repeat split; try constructor; try lia; intros ? [].
  - cbn [Editor.mergeLoop] in H.
    assert (Skip : mergeLoop rest palette ex count = (palette', ex', count') ->
                   (namedColor b -> In (keyOf b) ex) ->
                   exists added,
                     palette' = palette ++ added /\ ex' = ex ++ map keyOf added /\
                     count' = (count + Z.of_nat (List.length added))%Z /\
                     subsequence added (b :: rest) /\ Forall namedColor added /\
                     NoDup (map keyOf added) /\
                     (forall x, In x added -> ~ In (keyOf x) ex) /\
                     (forall x, In x (b :: rest) -> namedColor x -> In (keyOf x) ex')).
    { intros H' Hb. apply IH in H' as (added & E1 & E2 & E3 & S & F & N & D & C).
      exists added. repeat split; try assumption; [now apply sub_skip|].
      intros x [<-|Hx] Hn; [|now apply C].
      rewrite E2. apply in_or_app. left. now apply Hb. }
    destruct (BlockType_eqb (type b) color) eqn:Et.
    2:{ apply Skip; [exact H|]. intros [Hc _]. rewrite Hc in Et. discriminate. }
    destruct (name b) as [[|c r]|] eqn:En.
    2:{ destruct (has ex (Some (normalizeName (c :: r)))) eqn:Eh; cbn [negb] in H.
        - apply Skip; [exact H|]. intros _. unfold keyOf. rewrite En.
          now apply has_In.
        - apply IH in H as (added & E1 & E2 & E3 & S & F & N & D & C).
          assert (Hb : namedColor b).
          { split; [now destruct (type b) | now exists c, r]. }
          assert (Hk : keyOf b = Some (normalizeName (c :: r)))
            by (unfold keyOf; now rewrite En).
          exists (b :: added). rewrite <- !app_assoc in E1, E2. cbn [app map List.length].
          rewrite Hk. split; [exact E1|]. split; [exact E2|]. split; [lia|].
          split; [now apply sub_take|]. split; [now constructor|].
          split; [|split].
          + constructor; [|exact N]. intros Hin. apply in_map_iff in Hin as (x & Ex & Hx).
            apply (D x Hx). rewrite Ex. apply in_or_app. right. now left.
          + intros x [<-|Hx].
            * rewrite Hk. now apply has_false.
            * intros Hin. apply (D x Hx). apply in_or_app. now left.
          + intros x [<-|Hx] Hn; [|now apply C].
            rewrite E2, Hk. apply in_or_app. right. now left. }
    all: apply Skip; [exact H|]; intros (_ & c & r & E); congruence.
Qed.

Lemma mergeLoop_noop newBlocks palette ex count :
  (forall b, In b newBlocks -> namedColor b -> In (keyOf b) ex) ->
  mergeLoop newBlocks palette ex count = (palette, ex, count).
Proof.
  induction newBlocks as [|b rest IH]; intros H; [reflexivity|].
  cbn [Editor.mergeLoop].
  assert (IH' : mergeLoop rest palette ex count = (palette, ex, count)).
  { apply IH. intros x Hx. apply H. now right. }
  destruct (BlockType_eqb (type b) color) eqn:Et; [|exact IH'].
  destruct (name b) as [[|c r]|] eqn:En; try exact IH'.
  assert (Hin : In (keyOf b) ex).
  { apply H; [now left|]. split; [now destruct (type b) | now exists c, r]. }
  unfold keyOf in Hin. rewrite En in Hin. apply has_In in Hin.
  cbn [option_map] in Hin. rewrite Hin. exact IH'.
Qed.

Lemma mergeBlocks_loop palette newData palette' count :
  mergeBlocks palette newData = (palette', count) ->
  exists ex', mergeLoop (blocks newData) palette (existingNamesOf palette) 0%Z
              = (palette', ex', count).
Proof.
  unfold Editor.mergeBlocks.
  destruct (mergeLoop _ _ _ _) as [[p e] c]. intros H. inversion H. now exists e.
Qed.

Lemma loadMergeFile_merge aseData newData :
  blocks aseData <> [] ->
  loadMergeFile aseData newData
    = (mkAseData (version aseData) (fst (mergeBlocks (blocks aseData) newData)),
       Some (snd (mergeBlocks (blocks aseData) newData))).
Proof.
  intros H. unfold Editor.loadMergeFile.
  destruct (blocks aseData); [congruence|]. now destruct (mergeBlocks _ _).
Qed.

(** X25. Merging into a palette that is not empty keeps the version and the
    palette as they are and appends blocks of the second file in their
    order: only colours with a name, none whose name (trimmed, in lower
    case) a colour of the palette already has, no two under the same
    name; the count is their number.  Groups of the second file are
    never taken over. *)
Theorem merge_appends_new_names (aseData newData : AseData) :
  blocks aseData <> [] ->
  exists added,
    loadMergeFile aseData newData
      = (mkAseData (version aseData) (blocks aseData ++ added),
         Some (Z.of_nat (List.length added))) /\
    subsequence added (blocks newData) /\
    Forall namedColor added /\
    NoDup (map keyOf added) /\
    (forall b, In b added -> ~ In (keyOf b) (existingNamesOf (blocks aseData))) /\
    (forall b, In b (blocks newData) -> namedColor b ->
       In (keyOf b) (existingNamesOf (blocks aseData ++ added))).
Proof.
  intros Hne. rewrite (loadMergeFile_merge _ _ Hne).
  destruct (mergeBlocks (blocks aseData) newData) as [palette' count] eqn:H.
  apply mergeBlocks_loop in H as (ex' & H).
  apply mergeLoop_spec in H as (added & E1 & E2 & E3 & S & F & N & D & C).
  exists added. cbn [fst snd]. split.
  { rewrite E1, E3. reflexivity. }
  split; [exact S|]. split; [exact F|]. split; [exact N|]. split; [exact D|].
  intros b Hb Hn. rewrite existingNamesOf_app by assumption.
  rewrite <- E2. now apply C.
Qed.

(** X26. Merging the same file a second time adds nothing. *)
Theorem merge_twice_adds_nothing (aseData newData : AseData) :
  blocks aseData <> [] ->
  loadMergeFile (fst (loadMergeFile aseData newData)) newData
    = (fst (loadMergeFile aseData newData), Some 0%Z).
Proof.
  intros Hne. rewrite (loadMergeFile_merge _ _ Hne). cbn [fst].
  destruct (mergeBlocks (blocks aseData) newData) as [palette' count] eqn:H.
  cbn [fst]. apply mergeBlocks_loop in H as (ex' & H).
  apply mergeLoop_spec in H as (added & E1 & E2 & E3 & S & F & N & D & C).
  assert (Hne' : palette' <> []).
  { rewrite E1. destruct (blocks aseData); [congruence | discriminate]. }
  rewrite loadMergeFile_merge by exact Hne'. cbn [version blocks].
  unfold Editor.mergeBlocks. rewrite mergeLoop_noop; [reflexivity|].
  intros b Hb Hn. rewrite E1, existingNamesOf_app by assumption.
  rewrite <- E2. now apply C.
Qed.

End Merge.

(** *** Examples *)

Abbreviation sampleBatch :=
  (Editor.handleBatchAction ColorClaims.sampleEntry ColorClaims.noHex
     ColorClaims.noTransform ColorClaims.samplePow ColorClaims.engineDown).
Abbreviation sampleModelChange :=
  (Editor.handleModelChange ColorClaims.sampleEntry ColorClaims.noHex
     ColorClaims.noTransform ColorClaims.samplePow ColorClaims.engineDown).

(** A Normal process swatch. *)
Definition normalSwatch : Block :=
  mkBlock color (Some (lit "Sea")) (Some (lit "RGB "))
    (Some [0; 1 # 2; 1 # 2]) (Some 2%Z).

Definition groupOfTwo : list Block :=
  [mkBlock groupStart (Some (lit "Blues")) None None None;
   globalSwatch; normalSwatch;
   mkBlock groupEnd None None None None].

Definition groupOfTwoSpot : list Block :=
  [mkBlock groupStart (Some (lit "Blues")) None None None;
   withColorType globalSwatch 1; withColorType normalSwatch 1;
   mkBlock groupEnd None None None None].

Lemma handleBatchAction_keeps_document_witness :
  map type groupOfTwoSpot = map type groupOfTwo /\
  map name groupOfTwoSpot = map name groupOfTwo /\
  Forall2 (fun b b' => type b <> color -> b' = b) groupOfTwo groupOfTwoSpot /\
  (0 <= 2 <= Z.of_nat (List.length groupOfTwo))%Z /\
  (validDocument (mkAseData (1, 0)%Z groupOfTwo) ->
   validDocument (mkAseData (1, 0)%Z groupOfTwoSpot)).
Proof.
  apply (handleBatchAction_keeps_document ColorClaims.sampleEntry ColorClaims.noHex
           ColorClaims.noTransform ColorClaims.samplePow ColorClaims.engineDown
           (lit "process-spot") (1, 0)%Z groupOfTwo groupOfTwoSpot 2).
  reflexivity.
Defined.

Lemma set_global_is_not_saved_witness :
  createASEBuffer sample_f32_bits
    (mkAseData (1, 0)%Z [globalSwatch; withColorType normalSwatch 0])
  = createASEBuffer sample_f32_bits (mkAseData (1, 0)%Z [globalSwatch; normalSwatch]).
Proof.
  apply (set_global_is_not_saved ColorClaims.sampleEntry ColorClaims.noHex
           ColorClaims.noTransform ColorClaims.samplePow ColorClaims.engineDown
           sample_f32_bits (1, 0)%Z [globalSwatch; normalSwatch]
           [globalSwatch; withColorType normalSwatch 0] 1).
  reflexivity.
Defined.

Lemma process_spot_makes_all_spot_witness :
  Forall (fun b => type b = color -> colorType b = Some 1%Z) groupOfTwoSpot /\
  map model groupOfTwoSpot = map model groupOfTwo /\
  map values groupOfTwoSpot = map values groupOfTwo /\
  2%Z = Z.of_nat (List.length
            (filter (fun b => BlockType_eqb (type b) color && negb (colorTypeIs b 1))
               groupOfTwo)) /\
  sampleBatch (lit "process-spot") groupOfTwoSpot = Some (groupOfTwoSpot, 0%Z).
Proof.
  apply (process_spot_makes_all_spot ColorClaims.sampleEntry ColorClaims.noHex
           ColorClaims.noTransform ColorClaims.samplePow ColorClaims.engineDown
           groupOfTwo groupOfTwoSpot 2).
  reflexivity.
Defined.

Lemma handleModelChange_consistent_witness :
  exists m vs,
    sampleModelChange (lit "CMYK") normalSwatch
      = mkBlock (type normalSwatch) (name normalSwatch) (Some m) (Some vs)
          (colorType normalSwatch) /\
    knownModel m /\ List.length vs = numChannelsOf m /\
    trim m = (if jseqb (trim (lit "CMYK")) (lit "CMYK")
                 || jseqb (trim (lit "CMYK")) (lit "LAB")
                 || jseqb (trim (lit "CMYK")) (lit "Gray")
              then trim (lit "CMYK") else lit "RGB").
Proof.
  apply (handleModelChange_consistent ColorClaims.sampleEntry ColorClaims.noHex
           ColorClaims.noTransform ColorClaims.samplePow ColorClaims.engineDown
           (lit "CMYK") normalSwatch).
  vm_compute. discriminate.
Defined.


Lemma handleHexInput_reads_six_digits_witness :
  Editor.handleHexInput ColorClaims.samplePow (lit "#ff 80-00") ColorMore.blackRgb
    = Some [channelOfHex 102 102; channelOfHex 56 48; channelOfHex 48 48].
Proof.
  apply (handleHexInput_reads_six_digits ColorClaims.samplePow (lit "#ff 80-00")
           ColorMore.blackRgb).
  reflexivity.
Defined.

Lemma handleSwatchDrop_move_witness :
  exists palette' selection',
    handleSwatchDrop false 2 0 groupOfTwo (Some 1%Z) = Dropped palette' selection' /\
    Permutation groupOfTwo palette' /\
    nth_error palette' (Z.to_nat 0) = nth_error groupOfTwo (Z.to_nat 2) /\
    (forall s, Some 1%Z = Some s ->
       (0 <= s < Z.of_nat (List.length groupOfTwo))%Z ->
       exists s', selection' = Some s' /\
         (0 <= s' < Z.of_nat (List.length groupOfTwo))%Z /\
         nth_error palette' (Z.to_nat s') = nth_error groupOfTwo (Z.to_nat s)).
Proof.
  apply (handleSwatchDrop_move 2 0 groupOfTwo (Some 1%Z)); cbn; lia.
Defined.

Lemma handleSwatchDrop_without_selection_witness :
  exists palette',
    handleSwatchDrop false 2 0 groupOfTwo None
      = Dropped palette' (if (0 =? 0)%Z then Some 1%Z else None).
Proof.
  apply (handleSwatchDrop_without_selection 2 0 groupOfTwo); cbn; lia.
Defined.

(** Lower case for the letters A-Z only. *)
Definition asciiLower (s : jsstring) : jsstring :=
  map (fun c => if ((65 <=? c) && (c <=? 90))%Z then (c + 32)%Z else c) s.

(** A second file with a group, a swatch the palette knows under another
    spelling, and a new swatch twice. *)
Definition secondFile : AseData :=
  mkAseData (1, 0)%Z
    [mkBlock groupStart (Some (lit "Extra")) None None None;
     mkBlock color (Some (lit " SKY ")) (Some (lit "RGB ")) (Some [1; 1; 1]) (Some 2%Z);
     normalSwatch; normalSwatch;
     mkBlock groupEnd None None None None].

Definition skyPalette : AseData := mkAseData (1, 0)%Z [globalSwatch].

Lemma merge_appends_new_names_witness :
  exists added,
    Editor.loadMergeFile asciiLower skyPalette secondFile
      = (mkAseData (version skyPalette) (blocks skyPalette ++ added),
         Some (Z.of_nat (List.length added))) /\
    subsequence added (blocks secondFile) /\
    Forall namedColor added /\
    NoDup (map (keyOf asciiLower) added) /\
    (forall b, In b added ->
       ~ In (keyOf asciiLower b)
           (Editor.existingNamesOf asciiLower (blocks skyPalette))) /\
    (forall b, In b (blocks secondFile) -> namedColor b ->
       In (keyOf asciiLower b)
         (Editor.existingNamesOf asciiLower (blocks skyPalette ++ added))).
Proof.
  apply (merge_appends_new_names asciiLower skyPalette secondFile).
  discriminate.
Defined.

Lemma merge_twice_adds_nothing_witness :
  Editor.loadMergeFile asciiLower
    (fst (Editor.loadMergeFile asciiLower skyPalette secondFile)) secondFile
  = (fst (Editor.loadMergeFile asciiLower skyPalette secondFile), Some 0%Z).
Proof.
  apply (merge_twice_adds_nothing asciiLower skyPalette secondFile).
  discriminate.
Defined.

End EditorFacts.

(** ** Hierarchical sort: the order it produces *)

Module SortMore.
Import ColorUtils ColorFacts Sort SortFrames SortFacts.

Local Open Scope Q_scope.

(** X27. Building the tree and flattening it, with no sort between, gives
    back the block list as it was, whether its groups are balanced or
    not: no block is lost or moved by the tree itself. *)
Theorem buildTree_flatten (blocks : list Block) :
  flat_map flatten (buildTree blocks) = blocks.
Proof. rewrite buildTree_frameTree. apply flatForest_frameTree. Qed.

(** *** A palette without groups *)

Lemma fold_buildStep_colors bs : forall rc,
  Forall (fun b => type b = color) bs ->
  fold_left buildStep bs (mkBuildState [] rc) = mkBuildState [] (rc ++ map leaf bs).
Proof.
  induction bs as [|b bs IH]; intros rc H; cbn [fold_left map].
  - now rewrite app_nil_r.
  - inversion H as [|? ? Hb Hbs]; subst. unfold buildStep at 2. rewrite Hb.
    unfold pushChild. cbn [openFrames rootChildren].
    rewrite (IH _ Hbs), <- app_assoc. reflexivity.
Qed.

Lemma frameTree_colors bs :
  Forall (fun b => type b = color) bs -> frameTree bs = map leaf bs.
Proof.
  intros H. unfold frameTree, initialState.
  rewrite (fold_buildStep_colors bs [] H). cbn. now rewrite app_nil_r.
Qed.

Lemma flatForest_leaves bs : flatForest (map leaf bs) = bs.
Proof.
  induction bs as [|b bs IH]; [reflexivity|].
  cbn. unfold flatForest in IH. now rewrite IH.
Qed.

Section WithEnvironment.

Variable localeCompare : jsstring -> jsstring -> Q.
Variable getOfficialEntry : jsstring -> option PantoneEntry.
Variable getOfficialHex : jsstring -> option jsstring.
Variable cmsDoTransform : Z -> list Z -> option (Z * Z * Z).
Variable Math_pow : Q -> Q -> Q.
Variable eng : ColorEngine.
Variable criterion : jsstring.

Abbreviation cmpB :=
  (compareBlocks localeCompare getOfficialEntry getOfficialHex cmsDoTransform
     Math_pow eng criterion).
Abbreviation cmpN :=
  (compareNodes localeCompare getOfficialEntry getOfficialHex cmsDoTransform
     Math_pow eng criterion).
Abbreviation sortN :=
  (sortNode localeCompare getOfficialEntry getOfficialHex cmsDoTransform
     Math_pow eng criterion).
Abbreviation sortT :=
  (sortTree localeCompare getOfficialEntry getOfficialHex cmsDoTransform
     Math_pow eng criterion).
Abbreviation sortB bs :=
  (sortBlocksHierarchically localeCompare getOfficialEntry
     getOfficialHex cmsDoTransform Math_pow eng bs criterion).

Lemma array_sort_leaves bs :
  array_sort cmpN (map leaf bs) = map leaf (array_sort cmpB bs).
Proof.
  induction bs as [|b bs IH]; [reflexivity|].
  cbn [map array_sort]. rewrite IH. generalize (array_sort cmpB bs) as l.
  induction l as [|y l IHl]; [reflexivity|].
  cbn [map insertSorted]. change (cmpN (leaf b) (leaf y)) with (cmpB b y).
  destruct (Qltb 0 (cmpB b y)); [|reflexivity]. cbn [map]. now rewrite IHl.
Qed.

(** X28. For a palette that holds colours only, the hierarchical sort is the
    plain stable sort of the block list by the comparator. *)
Theorem sortBlocks_flat_palette (blocks : list Block) :
  Forall (fun b => type b = color) blocks ->
  sortB blocks = array_sort cmpB blocks.
Proof.
  intros H. rewrite sortBlocks_frames, (frameTree_colors blocks H).
  unfold sortTree. rewrite map_map.
  assert (E : map (fun b => sortN (leaf b)) blocks = map leaf blocks)
    by (apply map_ext; reflexivity).
  rewrite E, array_sort_leaves. apply flatForest_leaves.
Qed.

(** *** The order among siblings *)

(** The children of every node of the tree stand in order. *)
#[local] Unset Elimination Schemes.
Inductive orderedTree : Tree -> Prop :=
| orderedNode b ch e :
    ordered cmpN ch -> Forall orderedTree ch -> orderedTree (Node b ch e).
#[local] Set Elimination Schemes.

Definition isGroupNode (n : Tree) : bool := isGroup (block_of n).

(** Groups first: a run of groups followed by a run of other nodes. *)
Definition groupsFirst (l : list Tree) : Prop :=
  exists gs cs, l = gs ++ cs /\
    Forall (fun n => isGroupNode n = true) gs /\
    Forall (fun n => isGroupNode n = false) cs.

Lemma ordered_groupsFirst l : ordered cmpN l -> groupsFirst l.
Proof.
  induction 1 as [|x|x y r Hxy Hr IH].
  - exists [], []. repeat split; constructor.
  - destruct (isGroupNode x) eqn:E.
    + exists [x], []. repeat split; repeat constructor; assumption.
    + exists [], [x]. repeat split; repeat constructor; assumption.
  - destruct IH as (gs & cs & E & Hg & Hc).
    destruct (isGroupNode x) eqn:Ex.
    + exists (x :: gs), cs. cbn [app]. rewrite E.
      repeat split; [now constructor | assumption].
    + assert (Ey : isGroupNode y = false).
      { destruct (isGroupNode y) eqn:Ey; [|reflexivity]. exfalso. apply Hxy.
        unfold compareNodes, compareBlocks. unfold isGroupNode in Ex, Ey.
        rewrite Ex, Ey. cbn [andb negb]. reflexivity. }
      destruct gs as [|g gs'].
      * exists [], (x :: cs). cbn [app] in *. rewrite E.
        repeat split; [constructor | now constructor].
      * cbn [app] in E. inversion E; subst. inversion Hg; subst. congruence.
Qed.

Hypothesis localeCompare_antisym :
  forall a b, 0 < localeCompare a b -> ~ 0 < localeCompare b a.

Lemma sortNode_ordered n : orderedTree (sortN n).
Proof.
  induction n as [b ch e IH] using Tree_ind. cbn [sortNode]. constructor.
  - apply array_sort_ordered.
    apply (compareNodes_antisym localeCompare getOfficialEntry getOfficialHex
             cmsDoTransform Math_pow eng criterion localeCompare_antisym).
  - eapply Permutation_Forall; [symmetry; apply array_sort_perm|].
    clear - IH. induction IH as [|c l Hc _ IHl]; cbn [map]; constructor; assumption.
Qed.

(** X29. With a locale comparison that never puts two strings each after the
    other, the sorted tree is in order at every level: among the
    children of the root and of every group no node stands before a node
    that the comparator puts before it, and groups come before
    colours. *)
Theorem sortTree_ordered (nodes : list Tree) :
  ordered cmpN (sortT nodes) /\
  Forall orderedTree (sortT nodes) /\
  groupsFirst (sortT nodes) /\
  (forall b ch e, orderedTree (Node b ch e) -> groupsFirst ch).
Proof.
  assert (Ho : ordered cmpN (sortT nodes)).
  { apply array_sort_ordered.
    apply (compareNodes_antisym localeCompare getOfficialEntry getOfficialHex
             cmsDoTransform Math_pow eng criterion localeCompare_antisym). }
  split; [exact Ho|]. split; [|split].
  - unfold sortTree. eapply Permutation_Forall; [symmetry; apply array_sort_perm|].
    rewrite Forall_forall. intros x Hx. apply in_map_iff in Hx as (n & <- & _).
    apply sortNode_ordered.
  - now apply ordered_groupsFirst.
  - intros b ch e H. inversion H; subst. now apply ordered_groupsFirst.
Qed.

End WithEnvironment.

(** *** Hue, saturation and lightness *)






(** *** Examples *)

Lemma sortBlocks_flat_palette_witness :
  SortClaims.sampleSort
    [SortClaims.swatch "Rust" (7 # 10) (3 # 10) (1 # 10); SortClaims.swatch "Amber" 1 (3 # 4) 0]
    (lit "name")
  = array_sort
      (compareBlocks SortClaims.ordinalCompare SortClaims.noEntry ColorClaims.noHex
         ColorClaims.noTransform ColorClaims.samplePow ColorClaims.engineDown
         (lit "name"))
      [SortClaims.swatch "Rust" (7 # 10) (3 # 10) (1 # 10);
       SortClaims.swatch "Amber" 1 (3 # 4) 0].
Proof.
  apply (sortBlocks_flat_palette SortClaims.ordinalCompare SortClaims.noEntry
           ColorClaims.noHex ColorClaims.noTransform ColorClaims.samplePow
           ColorClaims.engineDown (lit "name")).
  repeat constructor.
Defined.

Lemma sortTree_ordered_witness :
  groupsFirst
    (sortTree SortClaims.ordinalCompare SortClaims.noEntry ColorClaims.noHex
       ColorClaims.noTransform ColorClaims.samplePow ColorClaims.engineDown
       (lit "name") (buildTree SortClaims.nestedPalette)).
Proof.
  apply (sortTree_ordered SortClaims.ordinalCompare SortClaims.noEntry
           ColorClaims.noHex ColorClaims.noTransform ColorClaims.samplePow
           ColorClaims.engineDown (lit "name") SortClaims.ordinalCompare_antisym
           (buildTree SortClaims.nestedPalette)).
Defined.


End SortMore.
